(** * inferno/lib/job_runner.py: the rule scheduler

    A shallow embedding of [job_runner.py] and the properties of its
    scheduling loop.  Rules form a graph; [execute_rule] runs all sub-rules
    in concurrent batches against a Disco server, collecting the output urls
    of each finished job on a blackboard, and finally runs the top-level
    rule.

    The Disco server and [InfernoJob] are outside of this module: they are
    an interface ([Backend]) here, and every theorem holds for every
    implementation of it; what a theorem needs of the backend, it says.  The calls the runner makes, with the answers it
    got, are collected as a list of events, in the order of the run.

    The [settings] that the functions pass on to [InfernoJob] and to
    [get_disco_handle] are not looked into by the runner and are left out,
    and so is the look-up of the server handle.  The two [while] loops take
    fuel: a run whose loop is still going when the fuel is used up ends as
    [Diverged]. *)

From Stdlib Require Import Ascii.
From stdpp Require Import base option list strings gmap fin_maps.

(** ** Rules *)

Definition Url := string.
Definition JobName := string.

(** An [InfernoRule]: the runner reads its [name] and, through
    [extract_subrules], the rules it depends on. *)
#[warnings="-register-all"]
Inductive InfernoRule : Type :=
  Rule { name : string; sub_rules : list InfernoRule }.

(** Modelled from the spec: [extract_subrules] of [inferno.lib.rule] is not
    part of this module; the spec has it as "given any rule, returns its
    direct sub-rules". *)
Definition extract_subrules (rule : InfernoRule) : list InfernoRule :=
  sub_rules rule.

Definition InfernoRule_eq_dec : ∀ r1 r2 : InfernoRule, {r1 = r2} + {r1 ≠ r2}.
Proof.
  fix IH 1. intros [n1 s1] [n2 s2].
  destruct (String.string_dec n1 n2) as [->|Hn]; [|right; congruence].
  destruct (Stdlib.Lists.List.list_eq_dec IH s1 s2) as [->|Hs]; [left; reflexivity|right; congruence].
Defined.

#[global] Instance InfernoRule_eq_decision : EqDecision InfernoRule := InfernoRule_eq_dec.

(** Modelled from the spec: [flatten_rules] of [inferno.lib.rule] is not
    part of this module; the spec has it as "decomposing a possibly-nested
    rule into a flat rule list", with the root last. *)
Fixpoint flatten_rules (rule : InfernoRule) : list InfernoRule :=
  match rule with
  | Rule _ subs => flat_map flatten_rules subs ++ [rule]
  end.

(** Modelled from the spec: [deduplicate_rules] of [inferno.lib.rule] is not
    part of this module; the spec has it as "deduplicating repeated
    sub-rules", giving an "ordered list of unique rules".  The first
    occurrence of a rule is the one kept. *)
Fixpoint deduplicate_from (seen rules : list InfernoRule) : list InfernoRule :=
  match rules with
  | [] => []
  | rule :: rest =>
      if decide (rule ∈ seen) then deduplicate_from seen rest
      else rule :: deduplicate_from (rule :: seen) rest
  end.

Definition deduplicate_rules (rules : list InfernoRule) : list InfernoRule :=
  deduplicate_from [] rules.

(** ** The blackboard and the readiness check *)

(** [urls_blackboard]: a dict from rule names to output urls. *)
Abbreviation Blackboard := (gmap string (list Url)).

(** Python truth of [blackboard.get(name, None)]: a missing entry gives
    [None] and an empty list is false as well. *)
Definition truthy_entry (entry : option (list Url)) : bool :=
  match entry with
  | Some (_ :: _) => true
  | _ => false
  end.

(** The inner loop of [_get_runable_rules]: [ready] starts as [True] and the
    first sub-rule without urls sets it to [False] and leaves the loop. *)
Fixpoint subrules_ready (subs : list InfernoRule) (blackboard : Blackboard) : bool :=
  match subs with
  | [] => true
  | sub_rule :: rest =>
      if negb (truthy_entry (blackboard !! name sub_rule)) then false
      else subrules_ready rest blackboard
  end.

(** The outer loop, with its accumulator [ready_to_run]. *)
Fixpoint get_runable_loop (rules : list InfernoRule) (blackboard : Blackboard)
    (ready_to_run : list InfernoRule) : list InfernoRule :=
  match rules with
  | [] => ready_to_run
  | rule :: rest =>
      let ready := subrules_ready (extract_subrules rule) blackboard in
      get_runable_loop rest blackboard
        (if ready then ready_to_run ++ [rule] else ready_to_run)
  end.

Definition _get_runable_rules (rules : list InfernoRule) (blackboard : Blackboard)
    : list InfernoRule :=
  get_runable_loop rules blackboard [].

(** The readiness condition in the words of the spec: every direct sub-rule
    maps to a non-empty sequence of output references in the store. *)
Definition all_subrules_have_output (blackboard : Blackboard) (rule : InfernoRule) : Prop :=
  ∀ sub_rule, sub_rule ∈ extract_subrules rule →
    ∃ urls, blackboard !! name sub_rule = Some urls ∧ urls ≠ [].

(** ** The backend: Disco and [InfernoJob] *)

(** What [server.results(jobs, timeout)] gives for one job: its name, its
    status and its results. *)
Definition JobResult : Type := JobName * (string * list Url).

(** [server.results] either raises [CommError] or returns the pair
    [(inactive, active)]. *)
Inductive PollOutcome : Type :=
  | RaisesCommError
  | Polled (inactive active : list JobResult).

(** The calls of the runner that leave it.  [W] is the state of the world
    they act on: the server and the clock.  Of these calls the runner
    handles one exception, the [CommError] of [server.results]; the other
    calls are taken to return. *)
Class Backend (W : Type) : Type := {
  (** [InfernoJob(rule, settings, urls).start()]: the Disco job, or [None] *)
  job_start : InfernoRule → list Url → W → option JobName * W;
  (** [server.results(jobs, timeout)] *)
  server_results : list JobName → Z → W → PollOutcome * W;
  (** [server.kill(jobname)] *)
  server_kill : JobName → W → W;
  (** [job.wait()] *)
  job_wait : JobName → W → W;
  (** [job._purge(job.job.name)] *)
  job_purge : JobName → W → W
}.

(** An [InfernoJob], as far as the runner looks into it: [job] is set by
    [start()]. *)
Record InfernoJob : Type := MkInfernoJob {
  ij_rule : InfernoRule;
  ij_urls : list Url;
  ij_job : option JobName
}.

(** What a run does, in the order it does it.  [EvStore] is the assignment
    [urls_blackboard[key] = value] of [execute_rule]. *)
Inductive Event : Type :=
  | EvStart (rule : InfernoRule) (urls : list Url) (job : option JobName)
  | EvResults (jobs : list JobName) (timeout : Z) (answer : PollOutcome)
  | EvKill (jobname : JobName)
  | EvWait (job : JobName)
  | EvPurge (job : JobName)
  | EvStore (key : string) (value : list Url).

Inductive PyExn : Type :=
  | Exception (msg : string)
  | KeyError (key : string)
  | AttributeError
  | CommError.

(** How a call ends: it returns, it raises, or its loop is still running
    when the fuel is used up. *)
Inductive Outcome (A : Type) : Type :=
  | Returned (a : A)
  | Raised (e : PyExn)
  | Diverged.
Arguments Returned {A} a.
Arguments Raised {A} e.
Arguments Diverged {A}.

Definition is_returned {A} (o : Outcome A) : bool :=
  match o with Returned _ => true | _ => false end.

(** ** Job names *)

(** Python's [s.rsplit(sep)] without a limit: all the pieces between the
    separators. *)
Fixpoint rsplit (sep : Ascii.ascii) (s : string) : list string :=
  match s with
  | EmptyString => [EmptyString]
  | String c s' =>
      if Ascii.eqb c sep then EmptyString :: rsplit sep s'
      else match rsplit sep s' with
           | [] => [String c EmptyString]
           | piece :: pieces => String c piece :: pieces
           end
  end.

Definition _get_rule_name (disco_job_name : JobName) : string :=
  match rsplit "@"%char disco_job_name with
  | [] => EmptyString
  | piece :: _ => piece
  end.

(** The characters of a string. *)
Fixpoint chars (s : string) : list Ascii.ascii :=
  match s with
  | EmptyString => []
  | String c s' => c :: chars s'
  end.

(** ** The runner *)

Section Runner.
Context {W : Type} `{Backend W}.

(** A computation: from a world to an outcome, the events on the way and
    the world after. *)
Definition M (A : Type) : Type := W → Outcome A * list Event * W.

Definition ret {A} (a : A) : M A := λ w, (Returned a, [], w).
Definition raise {A} (e : PyExn) : M A := λ w, (Raised e, [], w).
Definition diverge {A} : M A := λ w, (Diverged, [], w).

Definition bind {A B} (m : M A) (f : A → M B) : M B := λ w,
  match m w with
  | (Returned a, ev, w1) =>
      match f a w1 with (o, ev', w2) => (o, ev ++ ev', w2) end
  | (Raised e, ev, w1) => (Raised e, ev, w1)
  | (Diverged, ev, w1) => (Diverged, ev, w1)
  end.

Notation "'do' x <- m ; k" := (bind m (λ x, k))
  (at level 10, x name, m at level 100, k at level 200).
Notation "'do' ' pat <- m ; k" := (bind m (λ x, match x with pat => k end))
  (at level 10, pat pattern, m at level 100, k at level 200).
Notation "m ;; k" := (bind m (λ _, k))
  (at level 100, k at level 200, right associativity).

Definition call_start (rule : InfernoRule) (urls : list Url) : M (option JobName) := λ w,
  match job_start rule urls w with
  | (job, w') => (Returned job, [EvStart rule urls job], w')
  end.

Definition call_results (jobs : list JobName) (timeout : Z) : M PollOutcome := λ w,
  match server_results jobs timeout w with
  | (answer, w') => (Returned answer, [EvResults jobs timeout answer], w')
  end.

Definition call_kill (jobname : JobName) : M unit := λ w,
  (Returned tt, [EvKill jobname], server_kill jobname w).

Definition call_wait (job : JobName) : M unit := λ w,
  (Returned tt, [EvWait job], job_wait job w).

Definition call_purge (job : JobName) : M unit := λ w,
  (Returned tt, [EvPurge job], job_purge job w).

Definition store (key : string) (value : list Url) : M unit := λ w,
  (Returned tt, [EvStore key value], w).

(** [for x in l: body(x)] *)
Fixpoint for_each {A} (l : list A) (body : A → M unit) : M unit :=
  match l with
  | [] => ret tt
  | x :: rest => body x ;; for_each rest body
  end.

Definition _start_job (rule : InfernoRule) (urls : list Url)
    : M (InfernoJob * option JobName) :=
  do job <- call_start rule urls;
  ret (MkInfernoJob rule urls job, job).

(** [urls = []; for sub_rule in extract_subrules(rule):
    urls += urls_blackboard[sub_rule.name]]; indexing a dict with a missing
    key raises [KeyError]. *)
Fixpoint collect_urls (subs : list InfernoRule) (urls_blackboard : Blackboard)
    (urls : list Url) : M (list Url) :=
  match subs with
  | [] => ret urls
  | sub_rule :: rest =>
      match urls_blackboard !! name sub_rule with
      | Some entry => collect_urls rest urls_blackboard (urls ++ entry)
      | None => raise (KeyError (name sub_rule))
      end
  end.

(** The first loop of [_run_concurrent_rules]. *)
Fixpoint start_rules (rule_list : list InfernoRule) (urls_blackboard : Blackboard)
    (jobs : list JobName) (inferno_jobs : list InfernoJob)
    : M (list JobName * list InfernoJob) :=
  match rule_list with
  | [] => ret (jobs, inferno_jobs)
  | rule :: rest =>
      do urls <- collect_urls (extract_subrules rule) urls_blackboard [];
      do '(inferno_job, job) <- _start_job rule urls;
      match job with
      | Some j =>
          start_rules rest urls_blackboard (jobs ++ [j]) (inferno_jobs ++ [inferno_job])
      | None =>
          raise (Exception ("There is not enough blobs to run " +:+ name rule))
      end
  end.

(** [for jobname, (status, results) in inactive: ...] *)
Fixpoint record_inactive (inactive : list JobResult)
    (job_results : Blackboard) (stop : bool) : Blackboard * bool :=
  match inactive with
  | [] => (job_results, stop)
  | (jobname, (status, results)) :: rest =>
      if String.eqb status "ready" then
        record_inactive rest (<[_get_rule_name jobname := results]> job_results) stop
      else if String.eqb status "dead" then
        record_inactive rest job_results true
      else
        record_inactive rest job_results stop
  end.

(** [while jobs: ...], at most [fuel] times round. *)
Fixpoint poll_jobs (fuel : nat) (jobs : list JobName)
    (job_results : Blackboard) (stop : bool)
    : M (list JobName * Blackboard * bool) :=
  match jobs with
  | [] => ret (jobs, job_results, stop)
  | _ :: _ =>
      match fuel with
      | O => diverge
      | S fuel' =>
          do answer <- call_results jobs 5000;
          match answer with
          | RaisesCommError => (* continue *)
              poll_jobs fuel' jobs job_results stop
          | Polled inactive active =>
              match record_inactive inactive job_results stop with
              | (job_results, stop) =>
                  let jobs := active.*1 in
                  if stop then (* break *) ret (jobs, job_results, stop)
                  else poll_jobs fuel' jobs job_results stop
              end
          end
      end
  end.

Definition _run_concurrent_rules (fuel : nat) (rule_list : list InfernoRule)
    (urls_blackboard : Blackboard) : M (list InfernoJob * Blackboard) :=
  do '(jobs, inferno_jobs) <- start_rules rule_list urls_blackboard [] [];
  do '(jobs, job_results, stop) <- poll_jobs fuel jobs ∅ false;
  (if stop then
     for_each jobs (λ jobname,
       call_kill jobname;;
       raise (Exception "One of the concurrent jobs failed."))
   else ret tt);;
  ret (inferno_jobs, job_results).

Fixpoint _run_sequential_rules (rule_list : list InfernoRule)
    (urls_blackboard : Blackboard) : M unit :=
  match rule_list with
  | [] => ret tt
  | rule :: rest =>
      do urls <- collect_urls (extract_subrules rule) urls_blackboard [];
      do '(job, disco_job) <- _start_job rule urls;
      match disco_job with
      | Some j => call_wait j;; _run_sequential_rules rest urls_blackboard
      | None =>
          raise (Exception ("There is not enough blobs to run " +:+ name rule))
      end
  end.

(** [for rule in all_rules: urls_blackboard[rule.name] = []] *)
Definition init_blackboard (all_rules : list InfernoRule) : Blackboard :=
  foldl (λ bb rule, <[name rule := []]> bb) ∅ all_rules.

(** [for key, value in ret.iteritems(): urls_blackboard[key] = value].  A
    dict gives its items in no order one can count on; [sub_rules_round]
    takes them in the order of [map_to_list], and no theorem depends on
    it, as the keys of a dict differ. *)
Fixpoint store_items (items : list (string * list Url)) (urls_blackboard : Blackboard)
    : M Blackboard :=
  match items with
  | [] => ret urls_blackboard
  | (key, value) :: rest =>
      store key value;; store_items rest (<[key := value]> urls_blackboard)
  end.

(** The state of the [while sub_rules:] loop. *)
Record LoopState : Type := MkLoopState {
  ls_sub_rules : list InfernoRule;
  ls_blackboard : Blackboard;
  ls_inferno_jobs : list InfernoJob
}.

(** One round of [while sub_rules:].  The two [try] blocks of
    [execute_rule] raise again what they catch, so that an exception of the
    batch is the exception of the round.  [rule not in runable_rules]
    compares rules. *)
Definition sub_rules_round (poll_fuel : nat) (st : LoopState) : M LoopState :=
  let runable_rules := _get_runable_rules (ls_sub_rules st) (ls_blackboard st) in
  do '(jobs, ret_) <- _run_concurrent_rules poll_fuel runable_rules (ls_blackboard st);
  let inferno_jobs := ls_inferno_jobs st ++ jobs in
  do urls_blackboard <- store_items (map_to_list ret_) (ls_blackboard st);
  let sub_rules := filter (λ rule, rule ∉ runable_rules) (ls_sub_rules st) in
  ret (MkLoopState sub_rules urls_blackboard inferno_jobs).

Fixpoint run_sub_rules (fuel poll_fuel : nat) (st : LoopState) : M LoopState :=
  match ls_sub_rules st with
  | [] => ret st
  | _ :: _ =>
      match fuel with
      | O => diverge
      | S fuel' =>
          do st' <- sub_rules_round poll_fuel st;
          run_sub_rules fuel' poll_fuel st'
      end
  end.

(** [job._purge(job.job.name)] *)
Definition purge_job (job : InfernoJob) : M unit :=
  match ij_job job with
  | Some j => call_purge j
  | None => raise AttributeError
  end.

(** [all_rules[-1:]] and [all_rules[:-1]] *)
Definition last_slice {A} (l : list A) : list A := drop (length l - 1) l.
Definition init_slice {A} (l : list A) : list A := take (length l - 1) l.

(** The state in which [execute_rule] enters its loop. *)
Definition initial_state (all_rules : list InfernoRule) : LoopState :=
  let urls_blackboard := init_blackboard all_rules in
  let sub_rules := init_slice all_rules in
  MkLoopState sub_rules urls_blackboard [].

Definition execute_rule (fuel poll_fuel : nat) (rule_ : InfernoRule) : M unit :=
  let all_rules := deduplicate_rules (flatten_rules rule_) in
  let parent := last_slice all_rules in
  do st <- run_sub_rules fuel poll_fuel (initial_state all_rules);
  _run_sequential_rules parent (ls_blackboard st);;
  for_each (ls_inferno_jobs st) purge_job.

(** The states of the loop: [rounds pf st w ev st' w'] when some rounds of
    the loop lead from [st] in the world [w] to [st'] in [w'], with the
    events [ev]. *)
Inductive rounds (poll_fuel : nat) : LoopState → W → list Event → LoopState → W → Prop :=
  | rounds_none st w : rounds poll_fuel st w [] st w
  | rounds_more st w ev1 st1 w1 ev2 st2 w2 :
      ls_sub_rules st ≠ [] →
      sub_rules_round poll_fuel st w = (Returned st1, ev1, w1) →
      rounds poll_fuel st1 w1 ev2 st2 w2 →
      rounds poll_fuel st w (ev1 ++ ev2) st2 w2.

End Runner.

(** ** A scripted backend

    A backend to run the model on: it refuses to start the rules named in
    [refused], names the job of rule [r] as [r@1], and answers the calls of
    [server.results] from the list [answers], one after the other (and with
    [CommError] when the list is used up). *)
Record Script : Type := MkScript {
  refused : list string;
  answers : list PollOutcome
}.

#[global] Instance scripted_backend : Backend Script := {
  job_start rule urls w :=
    (if decide (name rule ∈ refused w) then None else Some (name rule +:+ "@1"), w);
  server_results jobs timeout w :=
    match answers w with
    | [] => (RaisesCommError, w)
    | answer :: rest => (answer, MkScript (refused w) rest)
    end;
  server_kill jobname w := w;
  job_wait job w := w;
  job_purge job w := w
}.

(** The graph of the spec's scenarios: [C] depends on [A] and [B]. *)
Definition rule_A : InfernoRule := Rule "A" [].
Definition rule_B : InfernoRule := Rule "B" [].
Definition rule_C : InfernoRule := Rule "C" [rule_A; rule_B].

(** ** Reading the events of a run *)

(** The rules a run tried to start, the jobs it got for them, and the jobs
    it killed, waited for and purged, each in the order of the run; and the
    assignments to the blackboard. *)
Definition started_rules (ev : list Event) : list InfernoRule :=
  omap (λ e, match e with EvStart rule _ _ => Some rule | _ => None end) ev.

Definition started_jobs (ev : list Event) : list JobName :=
  omap (λ e, match e with EvStart _ _ (Some j) => Some j | _ => None end) ev.

Definition killed (ev : list Event) : list JobName :=
  omap (λ e, match e with EvKill j => Some j | _ => None end) ev.

Definition waited (ev : list Event) : list JobName :=
  omap (λ e, match e with EvWait j => Some j | _ => None end) ev.

Definition purged (ev : list Event) : list JobName :=
  omap (λ e, match e with EvPurge j => Some j | _ => None end) ev.

Definition stored (ev : list Event) : list (string * list Url) :=
  omap (λ e, match e with EvStore key value => Some (key, value) | _ => None end) ev.

(** The blackboard after the assignments [items], made from left to right. *)
Definition apply_stores (items : list (string * list Url)) (blackboard : Blackboard)
    : Blackboard :=
  foldl (λ bb item, <[item.1 := item.2]> bb) blackboard items.

(** The input of a rule in the words of the spec: the entries of its direct
    sub-rules on the blackboard, concatenated in the order of the
    sub-rules. *)
Definition resolved_input (blackboard : Blackboard) (rule : InfernoRule)
    : option (list Url) :=
  match mapM (λ sub_rule, blackboard !! name sub_rule) (extract_subrules rule) with
  | Some entries => Some (concat entries)
  | None => None
  end.

(** What the runner expects of the answers of the backend: the name of a
    job leads back to the name of its rule (Disco names the job of [r] as
    [r@...]), and [server.results] reports on the jobs it was asked for. *)
Definition expected_answer (e : Event) : Prop :=
  match e with
  | EvStart rule _ (Some j) => _get_rule_name j = name rule
  | EvResults jobs _ (Polled inactive active) =>
      inactive.*1 ⊆ jobs ∧ active.*1 ⊆ jobs
  | _ => True
  end.

(** [server.results] said that [job] is ready, with [results]. *)
Definition reported_ready (job : JobName) (results : list Url) (e : Event) : Prop :=
  match e with
  | EvResults _ _ (Polled inactive _) => (job, ("ready"%string, results)) ∈ inactive
  | _ => False
  end.

(** A run that only asks the server for results. *)
Definition only_results (ev : list Event) : Prop :=
  Forall (λ e, ∃ jobs answer, e = EvResults jobs 5000 answer) ev.

(** [e] is the start of a rule of [rl], with the input that the blackboard
    [bb] gives for it. *)
Definition start_of (rl : list InfernoRule) (bb : Blackboard) (e : Event) : Prop :=
  ∃ rule urls job,
    e = EvStart rule urls job ∧ rule ∈ rl ∧ resolved_input bb rule = Some urls.

(** ** Scenarios

    Runs of the graph [C(A, B)] on the scripted backend. *)

Definition rule_D : InfernoRule := Rule "D" [].

(** Both sub-rules are ready at the first call of [server.results]. *)
Definition script_all_ready : Script :=
  MkScript []
    [Polled [("A@1", ("ready", ["a1"])); ("B@1", ("ready", ["b1"]))] []]%string.

(** [B] is dead at the first call, [A] is ready, no job is active. *)
Definition script_B_dead : Script :=
  MkScript []
    [Polled [("A@1", ("ready", ["a1"])); ("B@1", ("dead", []))] []]%string.

(** [B] is dead at the first call, the two other jobs are active. *)
Definition script_B_dead_others_active : Script :=
  MkScript []
    [Polled [("B@1", ("dead", []))]
            [("A@1", ("active", [])); ("D@1", ("active", []))]]%string.

(** [B] does not start. *)
Definition script_B_refused : Script := MkScript ["B"%string] [].

(** The sub-rules are ready, [C] does not start. *)
Definition script_C_refused : Script :=
  MkScript ["C"%string]
    [Polled [("A@1", ("ready", ["a1"])); ("B@1", ("ready", ["b1"]))] []]%string.

(** The events of the run in which all goes well. *)
Definition events_all_ready : list Event :=
  [EvStart rule_A [] (Some "A@1");
   EvStart rule_B [] (Some "B@1");
   EvResults ["A@1"; "B@1"] 5000
     (Polled [("A@1", ("ready", ["a1"])); ("B@1", ("ready", ["b1"]))] []);
   EvStore "A" ["a1"]; EvStore "B" ["b1"];
   EvStart rule_C ["a1"; "b1"] (Some "C@1");
   EvWait "C@1"; EvPurge "A@1"; EvPurge "B@1"]%string.

(** A sub-rule [E] that waits for [A], while nothing runs [A]. *)
Definition rule_E : InfernoRule := Rule "E" [rule_A].

Definition state_stuck : LoopState :=
  MkLoopState [rule_E] {[ "A"%string := [] ]} [].

(** The events of the loop in the run in which all goes well. *)
Definition loop_events_all_ready : list Event :=
  [EvStart rule_A [] (Some "A@1");
   EvStart rule_B [] (Some "B@1");
   EvResults ["A@1"; "B@1"] 5000
     (Polled [("A@1", ("ready", ["a1"])); ("B@1", ("ready", ["b1"]))] []);
   EvStore "A" ["a1"]; EvStore "B" ["b1"]]%string.

(** ** The shape of a run *)

(** A job that was started: its rule, its input and its name. *)
Definition Started : Type := InfernoRule * list Url * JobName.

(** The events of jobs started one after the other, as the first loop of
    [_run_concurrent_rules] does. *)
Definition start_events (runs : list Started) : list Event :=
  (λ r, EvStart r.1.1 r.1.2 (Some r.2)) <$> runs.

(** The events of jobs each started and waited for before the next, as
    [_run_sequential_rules] does. *)
Definition run_events (runs : list Started) : list Event :=
  runs ≫= (λ r, [EvStart r.1.1 r.1.2 (Some r.2); EvWait r.2]).

(** [server.results] said that some job is dead. *)
Definition reports_dead (inactive : list JobResult) : Prop :=
  ∃ job results, (job, ("dead"%string, results)) ∈ inactive.

(** [e] is an answer of [server.results] that says that some job is dead. *)
Definition dead_poll (e : Event) : Prop :=
  match e with
  | EvResults _ _ (Polled inactive _) => reports_dead inactive
  | _ => False
  end.

(** The calls of [server.results] of one batch, from the list [jobs] on:
    each call is for the jobs that the answer before it had as active, or
    for the same jobs again when that call raised [CommError]; the wait is
    5000 in each. *)
Fixpoint poll_chain (jobs : list JobName) (ev : list Event) : Prop :=
  match ev with
  | [] => True
  | EvResults asked timeout answer :: rest =>
      asked = jobs ∧ asked ≠ [] ∧ timeout = 5000%Z ∧
      poll_chain
        (match answer with
         | RaisesCommError => jobs
         | Polled _ active => active.*1
         end) rest
  | _ => False
  end.

(** ** More scenarios *)

(** [A] is ready at the first call, with [B] and [D] active; at the second
    call [B] is dead and [D] active. *)
Definition script_ready_then_dead : Script :=
  MkScript []
    [Polled [("A@1", ("ready", ["a1"]))]
            [("B@1", ("active", [])); ("D@1", ("active", []))];
     Polled [("B@1", ("dead", []))] [("D@1", ("active", []))]]%string.

(** The job of [A] is dead at the first call, and no job is active. *)
Definition script_A_dead : Script :=
  MkScript [] [Polled [("A@1", ("dead", []))] []]%string.

(** The state of the loop for the graph [F(E(A))], before its first round
    and after it. *)
Definition state_chain : LoopState :=
  initial_state [rule_A; rule_E; Rule "F" [rule_E]].

Definition state_chain_after : LoopState :=
  MkLoopState [rule_E] (init_blackboard [rule_A; rule_E; Rule "F" [rule_E]])
    [MkInfernoJob rule_A [] (Some "A@1"%string)].

Definition events_B_dead_others_active : list Event :=
  [EvStart rule_A [] (Some "A@1");
   EvStart rule_B [] (Some "B@1");
   EvStart rule_D [] (Some "D@1");
   EvResults ["A@1"; "B@1"; "D@1"] 5000
     (Polled [("B@1", ("dead", []))]
             [("A@1", ("active", [])); ("D@1", ("active", []))]);
   EvKill "A@1"]%string.

Definition events_ready_then_dead : list Event :=
  [EvStart rule_A [] (Some "A@1");
   EvStart rule_B [] (Some "B@1");
   EvStart rule_D [] (Some "D@1");
   EvResults ["A@1"; "B@1"; "D@1"] 5000
     (Polled [("A@1", ("ready", ["a1"]))]
             [("B@1", ("active", [])); ("D@1", ("active", []))]);
   EvResults ["B@1"; "D@1"] 5000
     (Polled [("B@1", ("dead", []))] [("D@1", ("active", []))]);
   EvKill "D@1"]%string.

Definition events_batch_all_ready : list Event :=
  [EvStart rule_A [] (Some "A@1");
   EvStart rule_B [] (Some "B@1");
   EvResults ["A@1"; "B@1"] 5000
     (Polled [("A@1", ("ready", ["a1"])); ("B@1", ("ready", ["b1"]))] [])]%string.

(** ** Graphs and backends on which every rule gets run *)

(** The number of rules in the tree of a rule. *)
Fixpoint rule_size (rule : InfernoRule) : nat :=
  match rule with
  | Rule _ subs => S (sum_list (rule_size <$> subs))
  end.

(** [server.results] says of a job that it is ready, and has urls for it. *)
Definition ready_with_output (r : JobResult) : Prop :=
  r.2.1 = "ready"%string ∧ r.2.2 ≠ [].

(** A backend on which every job starts, and is named as Disco names jobs:
    by the name of its rule, an [@] and a stamp. *)
Definition starts_every_job (W : Type) `{Backend W} : Prop :=
  ∀ rule urls (w : W),
    ∃ stamp, (job_start rule urls w).1 = Some (name rule +:+ String "@" stamp).

(** [progress_within patience jobs w]: when the runner asks for [jobs], in
    the world [w], and goes on asking as the loop of [_run_concurrent_rules]
    does, then one of its first [patience] calls of [server.results] finds
    that some job has come to an end.  The calls before that one raise
    [CommError] or find every job active.  Every answer is about the jobs
    asked for, and a job that has come to an end is ready and has urls. *)
Fixpoint progress_within {W : Type} `{Backend W} (patience : nat)
    (jobs : list JobName) (w : W) : Prop :=
  match patience with
  | O => False
  | S patience' =>
      match server_results jobs 5000 w with
      | (RaisesCommError, w') => progress_within patience' jobs w'
      | (Polled inactive active, w') =>
          inactive.*1 ++ active.*1 ≡ₚ jobs ∧
          Forall ready_with_output inactive ∧
          (inactive = [] → progress_within patience' (active.*1) w')
      end
  end.

(** A backend on which the jobs come to an end, one at least with every
    [patience] calls of [server.results], each of them ready and with
    urls. *)
Definition reports_progress (W : Type) `{Backend W} (patience : nat) : Prop :=
  ∀ jobs (w : W), jobs ≠ [] → progress_within patience jobs w.

(** What the loop of [execute_rule] keeps, on such a backend: the sub-rules
    left are sub-rules of the graph, every rule of the graph has an entry,
    and the entry of a sub-rule that is not left has urls. *)
Definition loop_invariant (all_rules : list InfernoRule) (st : LoopState) : Prop :=
  ls_sub_rules st ⊆ init_slice all_rules ∧
  (∀ rule, rule ∈ all_rules → is_Some (ls_blackboard st !! name rule)) ∧
  (∀ rule, rule ∈ init_slice all_rules → rule ∉ ls_sub_rules st →
     ∃ urls, ls_blackboard st !! name rule = Some urls ∧ urls ≠ []).

(** ** An obliging backend

    A backend to run the model on, on which every job starts, named as
    Disco does, and every call of [server.results] says that the first of
    the jobs asked for is ready, with a url, and that the others are
    active. *)
#[global] Instance obliging_backend : Backend unit := {
  job_start rule urls w := (Some (name rule +:+ "@1"), w);
  server_results jobs timeout w :=
    match jobs with
    | [] => (Polled [] [], w)
    | j :: rest =>
        (Polled [(j, ("ready", [j]))] ((λ job, (job, ("active", []))) <$> rest), w)
    end;
  server_kill jobname w := w;
  job_wait job w := w;
  job_purge job w := w
}.

(** ** A hesitant backend

    A backend like the obliging one, of which the runner has to ask three
    times: of three calls of [server.results] the first raises [CommError],
    the second finds every job active, and the third says that the first of
    the jobs asked for is ready.  The world counts the calls. *)
#[global] Instance hesitant_backend : Backend nat := {
  job_start rule urls w := (Some (name rule +:+ "@1"), w);
  server_results jobs timeout w :=
    match w with
    | 0 => (RaisesCommError, 1)
    | 1 => (Polled [] ((λ job, (job, ("active", []))) <$> jobs), 2)
    | _ =>
        match jobs with
        | [] => (Polled [] [], 0)
        | j :: rest =>
            (Polled [(j, ("ready", [j]))]
               ((λ job, (job, ("active", []))) <$> rest), 0)
        end
    end;
  server_kill jobname w := w;
  job_wait job w := w;
  job_purge job w := w
}.

(** ** Scenarios for the runs that do not get through *)

(** The graph [F(E(A))], and a run of it in which the job of [A] is ready
    and has no urls. *)
Definition rule_F : InfernoRule := Rule "F" [rule_E].

Definition script_A_no_output : Script :=
  MkScript [] [Polled [("A@1", ("ready", []))] []]%string.

(** The graph [P(x, x@y(z))], whose rules have different names, and a run of
    it in which every job is ready, with urls. *)
Definition rule_z : InfernoRule := Rule "z" [].
Definition rule_x : InfernoRule := Rule "x" [].
Definition rule_xy : InfernoRule := Rule "x@y" [rule_z].
Definition rule_P : InfernoRule := Rule "P" [rule_x; rule_xy].

Definition script_P : Script :=
  MkScript []
    [Polled [("x@1", ("ready", ["x1"])); ("z@1", ("ready", ["z1"]))] [];
     Polled [("x@y@1", ("ready", ["r1"]))] []]%string.

(** ** What the backend answers *)

(** The backend names its jobs as Disco does: by the name of the rule, an
    [@] and a stamp. *)
Definition names_jobs_by_rule (W : Type) `{Backend W} : Prop :=
  ∀ rule urls (w : W) j, (job_start rule urls w).1 = Some j →
    ∃ stamp, j = name rule +:+ String "@" stamp.

(** [server.results] reports on jobs it is asked for, and on no others. *)
Definition reports_jobs_asked (W : Type) `{Backend W} : Prop :=
  ∀ jobs timeout (w : W) inactive active,
    (server_results jobs timeout w).1 = Polled inactive active →
    inactive.*1 ⊆ jobs ∧ active.*1 ⊆ jobs.

(** Every event of the computation [m], in whatever world it is run, is as
    [P] says. *)
Definition emits {W : Type} {A : Type} (P : Event → Prop) (m : @M W A) : Prop :=
  ∀ w, Forall P (m w).1.2.

(** A first round on the obliging backend, for the graph [C(A, B)]. *)
Definition events_obliging_round : list Event :=
  [EvStart rule_A [] (Some "A@1");
   EvStart rule_B [] (Some "B@1");
   EvResults ["A@1"; "B@1"] 5000
     (Polled [("A@1", ("ready", ["A@1"]))] [("B@1", ("active", []))]);
   EvResults ["B@1"] 5000 (Polled [("B@1", ("ready", ["B@1"]))] []);
   EvStore "A" ["A@1"]; EvStore "B" ["B@1"]]%string.

Definition state_obliging_round : LoopState :=
  MkLoopState []
    (<["B" := ["B@1"]]> (<["A" := ["A@1"]]>
       (init_blackboard [rule_A; rule_B; rule_C])))%string
    [MkInfernoJob rule_A [] (Some "A@1"); MkInfernoJob rule_B [] (Some "B@1")]%string.

(** * Properties *)

(** ** Readiness: lemmas *)

Lemma subrules_ready_spec subs blackboard :
  subrules_ready subs blackboard = true ↔
  ∀ sub_rule, sub_rule ∈ subs →
    ∃ urls, blackboard !! name sub_rule = Some urls ∧ urls ≠ [].
Proof.
  induction subs as [|s subs IH]; simpl.
  - split; [intros _ x Hx; inversion Hx | done].
  - destruct (blackboard !! name s) as [[|u us]|] eqn:E; simpl.
    + split; [done|]. intros H. destruct (H s) as (urls & Hl & Hne); [left|].
      congruence.
    + rewrite IH. split.
      * intros H x Hx. apply elem_of_cons in Hx as [->|Hx]; [|by apply H].
        exists (u :: us). by rewrite E.
      * intros H x Hx. apply H. by right.
    + split; [done|]. intros H. destruct (H s) as (urls & Hl & Hne); [left|].
      congruence.
Qed.

Lemma subrules_ready_iff blackboard rule :
  subrules_ready (extract_subrules rule) blackboard = true ↔
  all_subrules_have_output blackboard rule.
Proof. apply subrules_ready_spec. Qed.

Lemma get_runable_loop_filter rules blackboard acc :
  get_runable_loop rules blackboard acc =
  acc ++ filter (λ r, subrules_ready (extract_subrules r) blackboard = true) rules.
Proof.
  revert acc. induction rules as [|r rules IH]; intros acc; simpl.
  - by rewrite app_nil_r.
  - rewrite IH, filter_cons.
    destruct (subrules_ready (extract_subrules r) blackboard) eqn:E.
    + rewrite decide_True by done. by rewrite <- app_assoc.
    + rewrite decide_False by done. done.
Qed.

Lemma get_runable_filter rules blackboard :
  _get_runable_rules rules blackboard =
  filter (λ r, subrules_ready (extract_subrules r) blackboard = true) rules.
Proof. unfold _get_runable_rules. by rewrite get_runable_loop_filter. Qed.

Lemma get_runable_elem rules blackboard rule :
  rule ∈ _get_runable_rules rules blackboard ↔
  rule ∈ rules ∧ all_subrules_have_output blackboard rule.
Proof.
  rewrite get_runable_filter, list_elem_of_filter, subrules_ready_iff. tauto.
Qed.


(** How often a rule is in a list. *)
Lemma occurrences_filter (P : InfernoRule → Prop) `{∀ r, Decision (P r)} rule l :
  length (filter (rule =.) (filter P l)) =
  if decide (P rule) then length (filter (rule =.) l) else 0.
Proof.
  induction l as [|x l IH]; simpl.
  - by destruct (decide (P rule)).
  - rewrite (filter_cons P). destruct (decide (P x)) as [Hx|Hx].
    + rewrite !(filter_cons (rule =.)). destruct (decide (rule = x)) as [->|Hne].
      * rewrite decide_True in IH by done. rewrite decide_True by done.
        simpl. by rewrite IH.
      * done.
    + rewrite (filter_cons (rule =.)). destruct (decide (rule = x)) as [->|Hne].
      * rewrite decide_False in IH by done. by rewrite decide_False by done.
      * done.
Qed.

(** C3: the readiness check returns exactly the candidates all of whose
    direct sub-rules have a non-empty entry on the blackboard: a returned
    rule is a candidate whose sub-rules all have output (so none of them has
    an empty or a missing entry), every such candidate is returned, and a
    candidate without sub-rules is always returned. *)
Theorem get_runable_rules_exact (rules : list InfernoRule) (blackboard : Blackboard) :
  (∀ rule, rule ∈ _get_runable_rules rules blackboard ↔
           rule ∈ rules ∧ all_subrules_have_output blackboard rule) ∧
  (∀ rule sub_rule, rule ∈ _get_runable_rules rules blackboard →
     sub_rule ∈ extract_subrules rule →
     blackboard !! name sub_rule ≠ Some [] ∧ blackboard !! name sub_rule ≠ None) ∧
  (∀ rule, rule ∈ rules → extract_subrules rule = [] →
     rule ∈ _get_runable_rules rules blackboard).
Proof.
  split; [|split].
  - intros rule. apply get_runable_elem.
  - intros rule sub_rule Hin Hsub.
    apply get_runable_elem in Hin as [_ Hall].
    destruct (Hall sub_rule Hsub) as (urls & Hl & Hne).
    rewrite Hl. split; congruence.
  - intros rule Hin Hnil. apply get_runable_elem. split; [done|].
    intros sub_rule Hsub. rewrite Hnil in Hsub. inversion Hsub.
Qed.

Lemma get_runable_rules_exact_witness :
  rule_C ∈ _get_runable_rules [rule_A; rule_C] {[ "A" := ["a1"]; "B" := ["b1"] ]} ∧
  rule_A ∈ _get_runable_rules [rule_A; rule_C] ∅ ∧
  rule_C ∉ _get_runable_rules [rule_A; rule_C] {[ "A" := ["a1"]; "B" := [] ]}.
Proof.
  split; [|split].
  - destruct (get_runable_rules_exact [rule_A; rule_C]
                {[ "A" := ["a1"]; "B" := ["b1"] ]}) as (Hiff & _ & _).
    apply Hiff. split.
    + apply list_elem_of_In. simpl. tauto.
    + apply subrules_ready_iff. vm_compute. reflexivity.
  - destruct (get_runable_rules_exact [rule_A; rule_C] ∅) as (_ & _ & Hleaf).
    apply Hleaf.
    + apply list_elem_of_In. simpl. tauto.
    + reflexivity.
  - intros Hin.
    destruct (get_runable_rules_exact [rule_A; rule_C]
                {[ "A" := ["a1"]; "B" := [] ]}) as (_ & Hsound & _).
    destruct (Hsound rule_C rule_B Hin) as [Hne _].
    + apply list_elem_of_In. simpl. tauto.
    + apply Hne. vm_compute. reflexivity.
Defined.

(** C10: the list the readiness check returns is the candidate list with the
    rules that are not ready left out: it is a subsequence of the
    candidates in their order, a ready rule is in it as often as it is among
    the candidates and another rule not at all, so that with candidates
    without repetition (as [execute_rule] passes them) each ready rule is in
    it exactly once. *)
Theorem get_runable_rules_subsequence (rules : list InfernoRule) (blackboard : Blackboard) :
  _get_runable_rules rules blackboard `sublist_of` rules ∧
  (∀ rule,
     length (filter (rule =.) (_get_runable_rules rules blackboard)) =
     if subrules_ready (extract_subrules rule) blackboard
     then length (filter (rule =.) rules) else 0) ∧
  (NoDup rules →
     NoDup (_get_runable_rules rules blackboard) ∧
     ∀ rule, rule ∈ rules → all_subrules_have_output blackboard rule →
       length (filter (rule =.) (_get_runable_rules rules blackboard)) = 1).
Proof.
  assert (Hocc : ∀ rule,
     length (filter (rule =.) (_get_runable_rules rules blackboard)) =
     if subrules_ready (extract_subrules rule) blackboard
     then length (filter (rule =.) rules) else 0).
  { intros rule. rewrite get_runable_filter, occurrences_filter.
    destruct (subrules_ready (extract_subrules rule) blackboard).
    - by rewrite decide_True.
    - by rewrite decide_False. }
  split; [|split].
  - rewrite get_runable_filter. apply sublist_filter.
  - exact Hocc.
  - intros Hnd. split.
    + rewrite get_runable_filter. by apply NoDup_filter.
    + intros rule Hin Hall. rewrite Hocc.
      apply subrules_ready_iff in Hall. rewrite Hall.
      clear -Hnd Hin. induction Hnd as [|x l Hx Hnd IH]; [inversion Hin|].
      rewrite filter_cons. destruct (decide (rule = x)) as [->|Hne].
      * simpl. f_equal. apply length_zero_iff_nil.
        destruct (filter (x =.) l) as [|y k] eqn:E; [done|].
        assert (Hy : y ∈ filter (x =.) l) by (rewrite E; left).
        apply list_elem_of_filter in Hy as [<- Hy]. done.
      * apply elem_of_cons in Hin as [?|Hin]; [done|]. by apply IH.
Qed.

(** ** Events of a run: bookkeeping *)

Lemma started_rules_app ev1 ev2 :
  started_rules (ev1 ++ ev2) = started_rules ev1 ++ started_rules ev2.
Proof. apply omap_app. Qed.

Lemma started_jobs_app ev1 ev2 :
  started_jobs (ev1 ++ ev2) = started_jobs ev1 ++ started_jobs ev2.
Proof. apply omap_app. Qed.

Lemma killed_app ev1 ev2 : killed (ev1 ++ ev2) = killed ev1 ++ killed ev2.
Proof. apply omap_app. Qed.

Lemma waited_app ev1 ev2 : waited (ev1 ++ ev2) = waited ev1 ++ waited ev2.
Proof. apply omap_app. Qed.

Lemma purged_app ev1 ev2 : purged (ev1 ++ ev2) = purged ev1 ++ purged ev2.
Proof. apply omap_app. Qed.

Lemma stored_app ev1 ev2 : stored (ev1 ++ ev2) = stored ev1 ++ stored ev2.
Proof. apply omap_app. Qed.

Ltac split_events :=
  rewrite ?started_rules_app, ?started_jobs_app, ?killed_app, ?waited_app,
    ?purged_app, ?stored_app.

Lemma only_results_quiet ev :
  only_results ev →
  started_rules ev = [] ∧ started_jobs ev = [] ∧ killed ev = [] ∧
  waited ev = [] ∧ purged ev = [] ∧ stored ev = [].
Proof.
  induction 1 as [|e ev (jobs & answer & ->) _ IH]; [done|].
  destruct IH as (?&?&?&?&?&?). repeat split; simpl; done.
Qed.

Lemma elem_of_started_rules rule ev :
  rule ∈ started_rules ev ↔ ∃ urls job, EvStart rule urls job ∈ ev.
Proof.
  unfold started_rules. rewrite list_elem_of_omap. split.
  - intros (e & He & Hr). destruct e; simplify_eq. eauto.
  - intros (urls & job & He). eexists. split; [exact He|done].
Qed.

Lemma elem_of_started_jobs j ev :
  j ∈ started_jobs ev ↔ ∃ rule urls, EvStart rule urls (Some j) ∈ ev.
Proof.
  unfold started_jobs. rewrite list_elem_of_omap. split.
  - intros (e & He & Hr). destruct e as [r u [j'|]| | | | |]; simplify_eq. eauto.
  - intros (rule & urls & He). eexists. split; [exact He|done].
Qed.

Lemma elem_of_stored key value ev :
  (key, value) ∈ stored ev ↔ EvStore key value ∈ ev.
Proof.
  unfold stored. rewrite list_elem_of_omap. split.
  - intros (e & He & Hr). destruct e; simplify_eq. done.
  - intros He. eexists. split; [exact He|done].
Qed.

Section RunnerFacts.
Context {W : Type} `{Backend W}.

(** ** The steps of a computation *)

Lemma bind_inv {A B} (m : @M W A) (f : A → @M W B) w o ev w' :
  bind m f w = (o, ev, w') →
  (∃ a ev1 w1 ev2,
     m w = (Returned a, ev1, w1) ∧ f a w1 = (o, ev2, w') ∧ ev = ev1 ++ ev2) ∨
  (∃ e, m w = (Raised e, ev, w') ∧ o = Raised e) ∨
  (m w = (Diverged, ev, w') ∧ o = Diverged).
Proof.
  unfold bind. destruct (m w) as [[[a|e|] ev1] w1].
  - destruct (f a w1) as [[o2 ev2] w2] eqn:Hf. intros [= <- <- <-].
    left. by exists a, ev1, w1, ev2.
  - intros [= <- <- <-]. right. left. by exists e.
  - intros [= <- <- <-]. right. right. done.
Qed.

Lemma bind_returned {A B} (m : @M W A) (f : A → @M W B) w a ev1 w1 :
  m w = (Returned a, ev1, w1) →
  bind m f w = match f a w1 with (o, ev2, w2) => (o, ev1 ++ ev2, w2) end.
Proof. unfold bind. by intros ->. Qed.

Lemma bind_raised {A B} (m : @M W A) (f : A → @M W B) w e ev1 w1 :
  m w = (Raised e, ev1, w1) → bind m f w = (Raised e, ev1, w1).
Proof. unfold bind. by intros ->. Qed.

Lemma bind_diverged {A B} (m : @M W A) (f : A → @M W B) w ev1 w1 :
  m w = (Diverged, ev1, w1) → bind m f w = (Diverged, ev1, w1).
Proof. unfold bind. by intros ->. Qed.

(** ** Collecting the input urls *)

Lemma collect_urls_inv subs bb acc (w : W) o ev w' :
  collect_urls subs bb acc w = (o, ev, w') →
  ev = [] ∧ w' = w ∧
  match o with
  | Returned urls =>
      ∃ entries, mapM (λ s, bb !! name s) subs = Some entries ∧
                 urls = acc ++ concat entries
  | Raised (KeyError _) => mapM (λ s, bb !! name s) subs = None
  | _ => False
  end.
Proof.
  revert acc. induction subs as [|s subs IH]; intros acc; simpl.
  - intros [= <- <- <-]. repeat split. exists []. by rewrite app_nil_r.
  - destruct (bb !! name s) as [entry|] eqn:E; simpl.
    + intros Hrun. destruct (IH _ Hrun) as (-> & -> & Ho). repeat split.
      destruct o as [urls|[]|]; try done.
      * destruct Ho as (entries & -> & ->). exists (entry :: entries).
        simpl. by rewrite app_assoc.
      * by rewrite Ho.
    + intros [= <- <- <-]. done.
Qed.

Lemma collect_urls_resolved rule bb (w : W) o ev w' :
  collect_urls (extract_subrules rule) bb [] w = (o, ev, w') →
  ev = [] ∧ w' = w ∧
  match o with
  | Returned urls => resolved_input bb rule = Some urls
  | Raised (KeyError _) => resolved_input bb rule = None
  | _ => False
  end.
Proof.
  intros Hrun. destruct (collect_urls_inv _ _ _ _ _ _ _ Hrun) as (-> & -> & Ho).
  repeat split. unfold resolved_input. destruct o as [urls|[]|]; try done.
  - by destruct Ho as (entries & -> & ->).
  - by rewrite Ho.
Qed.

End RunnerFacts.

Section BatchFacts.
Context {W : Type} `{Backend W}.

(** ** Starting the jobs of a batch *)

Lemma start_job_run rule urls (w : W) :
  _start_job rule urls w =
  (Returned (MkInfernoJob rule urls (job_start rule urls w).1, (job_start rule urls w).1),
   [EvStart rule urls (job_start rule urls w).1], (job_start rule urls w).2).
Proof.
  unfold _start_job, bind, call_start, ret.
  by destruct (job_start rule urls w) as [job w1].
Qed.


Lemma start_of_mono rl rl' bb e : rl ⊆ rl' → start_of rl bb e → start_of rl' bb e.
Proof. intros Hsub (rule & urls & job & -> & Hin & Hres). exists rule, urls, job. auto. Qed.

Lemma start_rules_inv rl bb jobs ijs (w : W) o ev w' :
  start_rules rl bb jobs ijs w = (o, ev, w') →
  started_rules ev `prefix_of` rl ∧
  Forall (start_of rl bb) ev ∧
  match o with
  | Returned (jobs', ijs') =>
      started_rules ev = rl ∧ jobs' = jobs ++ started_jobs ev ∧
      length (started_jobs ev) = length rl ∧
      ∃ new, ijs' = ijs ++ new ∧ ij_job <$> new = Some <$> started_jobs ev
  | Raised (Exception _) | Raised (KeyError _) => True
  | _ => False
  end.
Proof.
  revert jobs ijs w ev. induction rl as [|rule rl IH]; intros jobs ijs w ev; simpl.
  - intros [= <- <- <-]. split; [done|]. split; [constructor|].
    simpl. rewrite app_nil_r. split; [done|]. split; [done|]. split; [done|].
    exists []. by rewrite app_nil_r.
  - intros Hrun. apply bind_inv in Hrun
      as [(urls & ev1 & w1 & ev2 & Hc & Hrun & ->)|[(e & Hc & ->)|(Hc & ->)]];
      apply collect_urls_resolved in Hc as (-> & -> & Hres); try done.
    2:{ destruct e; try done. split; [apply prefix_nil|]. split; [constructor|done]. }
    simpl. rewrite (bind_returned _ _ _ _ _ _ (start_job_run rule urls w)) in Hrun.
    destruct (job_start rule urls w) as [[j|] w1] eqn:Hstart; simpl in Hrun.
    + destruct (start_rules rl bb (jobs ++ [j]) (ijs ++ [MkInfernoJob rule urls (Some j)]) w1)
        as [[o2 ev3] w2] eqn:Hrest.
      injection Hrun as <- <- <-.
      destruct (IH _ _ _ _ Hrest) as (Hpre & Hall & Ho). simpl.
      split; [by apply prefix_cons|]. split.
      { constructor.
        - exists rule, urls, (Some j). split; [done|]. split; [left|done].
        - eapply Forall_impl; [exact Hall|]. intros e. apply start_of_mono.
          intros x Hx. by right. }
      destruct o2 as [[jobs' ijs']|[]|]; try done.
      destruct Ho as (-> & -> & Hlen & new & -> & Hnew).
      split; [done|]. split; [by rewrite <- app_assoc|]. split; [by rewrite Hlen|].
      exists (MkInfernoJob rule urls (Some j) :: new). split.
      * by rewrite <- app_assoc.
      * rewrite fmap_cons, Hnew. done.
    + injection Hrun as <- <- <-. simpl. split; [by apply prefix_cons, prefix_nil|].
      split; [|done]. constructor; [|constructor].
      exists rule, urls, None. split; [done|]. split; [left|done].
Qed.

End BatchFacts.

(** ** Waiting for the jobs of a batch *)

Lemma record_inactive_inv inactive jr stop jr' stop' :
  record_inactive inactive jr stop = (jr', stop') →
  ∀ k v, jr' !! k = Some v →
    jr !! k = Some v ∨
    ∃ j, (j, ("ready"%string, v)) ∈ inactive ∧ _get_rule_name j = k.
Proof.
  revert jr stop. induction inactive as [|[j [status results]] inactive IH];
    intros jr stop; simpl.
  - intros [= <- <-]. auto.
  - destruct (String.eqb status "ready") eqn:Hready.
    + apply String.eqb_eq in Hready as ->. intros Hrec k v Hk.
      destruct (IH _ _ Hrec k v Hk) as [Hold|(j' & Hin & Hname)].
      * rewrite lookup_insert in Hold. destruct (decide (_get_rule_name j = k)) as [Heq|Hne].
        -- injection Hold as ->. right. exists j. split; [left|done].
        -- auto.
      * right. exists j'. split; [by right|done].
    + destruct (String.eqb status "dead"); intros Hrec k v Hk;
        (destruct (IH _ _ Hrec k v Hk) as [Hold|(j' & Hin & Hname)];
         [auto|right; exists j'; split; [by right|done]]).
Qed.

Section PollFacts.
Context {W : Type} `{Backend W}.

Lemma call_results_run jobs timeout (w : W) :
  call_results jobs timeout w =
  (Returned (server_results jobs timeout w).1,
   [EvResults jobs timeout (server_results jobs timeout w).1],
   (server_results jobs timeout w).2).
Proof. unfold call_results. by destruct (server_results jobs timeout w). Qed.

Lemma poll_jobs_inv fuel jobs jr stop (w : W) o ev w' :
  poll_jobs fuel jobs jr stop w = (o, ev, w') →
  only_results ev ∧
  match o with
  | Returned (jobs', jr', stop') =>
      (Forall expected_answer ev → jobs' ⊆ jobs) ∧
      (∀ k v, jr' !! k = Some v →
         jr !! k = Some v ∨
         ∃ j, _get_rule_name j = k ∧ Exists (reported_ready j v) ev ∧
              (Forall expected_answer ev → j ∈ jobs))
  | Raised _ => False
  | Diverged => True
  end.
Proof.
  revert jobs jr stop w ev.
  induction fuel as [|fuel IH]; intros jobs jr stop w ev;
    (destruct jobs as [|j0 jobs0]; simpl;
     [intros [= <- <- <-]; split; [constructor|]; split; [done|auto] |]).
  - intros [= <- <- <-]. split; [constructor|done].
  - rewrite (bind_returned _ _ _ _ _ _ (call_results_run _ _ _)).
    set (jobs := j0 :: jobs0).
    destruct (server_results jobs 5000 w) as [[|inactive active] w1] eqn:Hres; simpl.
    + destruct (poll_jobs fuel jobs jr stop w1) as [[o2 ev2] w2] eqn:Hrest.
      intros [= <- <- <-]. destruct (IH _ _ _ _ _ Hrest) as (Honly & Ho).
      split; [constructor; [by eexists _, _|done]|].
      destruct o2 as [[[jobs' jr'] stop']| |]; try done.
      destruct Ho as (Hsub & Hjr). split.
      * intros Hexp. apply Hsub. by apply Forall_cons in Hexp as [_ ?].
      * intros k v Hk. destruct (Hjr k v Hk) as [?|(j & Hn & Hex & Hin)]; [auto|].
        right. exists j. split; [done|]. split; [by right|].
        intros Hexp. apply Hin. by apply Forall_cons in Hexp as [_ ?].
    + destruct (record_inactive inactive jr stop) as [jr1 stop1] eqn:Hrec.
      pose proof (record_inactive_inv _ _ _ _ _ Hrec) as Hjr1.
      assert (Hfirst : ∀ k v, jr1 !! k = Some v →
                jr !! k = Some v ∨
                ∃ j, _get_rule_name j = k ∧
                  Exists (reported_ready j v)
                    [EvResults jobs 5000 (Polled inactive active)] ∧
                  (expected_answer (EvResults jobs 5000 (Polled inactive active)) →
                   j ∈ jobs)).
      { intros k v Hk. destruct (Hjr1 k v Hk) as [?|(j & Hin & Hn)]; [auto|].
        right. exists j. split; [done|]. split; [by left|].
        intros [Hina _]. apply Hina. apply list_elem_of_fmap. by exists (j, ("ready"%string, v)). }
      destruct stop1.
      * intros [= <- <- <-]. split; [constructor; [by eexists _, _|constructor]|].
        split.
        -- intros Hexp. apply Forall_cons in Hexp as [[_ Hact] _]. done.
        -- intros k v Hk. destruct (Hfirst k v Hk) as [?|(j & Hn & Hex & Hin)]; [auto|].
           right. exists j. split; [done|]. split; [done|].
           intros Hexp. apply Hin. by apply Forall_cons in Hexp as [? _].
      * destruct (poll_jobs fuel (active.*1) jr1 false w1) as [[o2 ev2] w2] eqn:Hrest.
        intros [= <- <- <-]. destruct (IH _ _ _ _ _ Hrest) as (Honly & Ho).
        split; [constructor; [by eexists _, _|done]|].
        destruct o2 as [[[jobs' jr'] stop']| |]; try done.
        destruct Ho as (Hsub & Hjr). split.
        -- intros Hexp. apply Forall_cons in Hexp as [[_ Hact] Hexp2].
           etrans; [by apply Hsub|done].
        -- intros k v Hk. destruct (Hjr k v Hk) as [Hold|(j & Hn & Hex & Hin)].
           ++ destruct (Hfirst k v Hold) as [?|(j & Hn & Hex & Hin)]; [auto|].
              right. exists j. split; [done|]. split.
              ** apply Exists_cons. left.
                 apply Exists_cons in Hex as [Hex|Hex]; [done|].
                 by apply Exists_nil in Hex.
              ** intros Hexp. apply Hin. by apply Forall_cons in Hexp as [? _].
           ++ right. exists j. split; [done|]. split; [by right|].
              intros Hexp. apply Forall_cons in Hexp as [[_ Hact] Hexp2].
              apply Hact. by apply Hin.
Qed.

(** The loop that kills the jobs still active raises in its first round. *)
Lemma kill_loop_run (jobs : list JobName) (w : W) :
  for_each jobs (λ jobname,
    bind (call_kill jobname)
      (λ _, raise (Exception "One of the concurrent jobs failed."))) w =
  match jobs with
  | [] => (Returned tt, [], w)
  | jobname :: _ =>
      (Raised (Exception "One of the concurrent jobs failed."),
       [EvKill jobname], server_kill jobname w)
  end.
Proof. by destruct jobs. Qed.

End PollFacts.

Section ConcurrentFacts.
Context {W : Type} `{Backend W}.

(** ** A concurrent batch *)

Lemma only_results_no_start ev rule urls job :
  only_results ev → EvStart rule urls job ∉ ev.
Proof.
  unfold only_results. rewrite Forall_forall. intros Hall Hin.
  by destruct (Hall _ Hin) as (? & ? & ?).
Qed.

Lemma run_concurrent_inv fuel rl bb (w : W) o ev w' :
  _run_concurrent_rules fuel rl bb w = (o, ev, w') →
  started_rules ev `prefix_of` rl ∧
  waited ev = [] ∧ purged ev = [] ∧ stored ev = [] ∧
  (∀ rule urls job, EvStart rule urls job ∈ ev →
     rule ∈ rl ∧ resolved_input bb rule = Some urls) ∧
  o ≠ Raised CommError ∧ o ≠ Raised AttributeError ∧
  match o with
  | Returned (ijs, ret_) =>
      started_rules ev = rl ∧ length (started_jobs ev) = length rl ∧
      ij_job <$> ijs = Some <$> started_jobs ev ∧ killed ev = [] ∧
      (∀ k v, ret_ !! k = Some v →
         ∃ j, _get_rule_name j = k ∧ Exists (reported_ready j v) ev ∧
              (Forall expected_answer ev → j ∈ started_jobs ev))
  | _ => True
  end.
Proof.
  unfold _run_concurrent_rules. intros Hrun.
  assert (Hstarts : ∀ ev1 : list Event, Forall (start_of rl bb) ev1 →
            waited ev1 = [] ∧ purged ev1 = [] ∧ stored ev1 = [] ∧ killed ev1 = [] ∧
            ∀ rule urls job, EvStart rule urls job ∈ ev1 →
              rule ∈ rl ∧ resolved_input bb rule = Some urls).
  { intros ev1 Hall. split_and!.
    1-4: induction Hall as [|e ev1 (r & u & j & -> & _) _ IH]; done.
    intros rule urls job Hin. rewrite Forall_forall in Hall.
    destruct (Hall _ Hin) as (r & u & j & [= -> -> ->] & ? & ?). done. }
  apply bind_inv in Hrun
    as [([jobs ijs] & ev1 & w1 & ev2 & Hs & Hrun & ->)|[(e & Hs & ->)|(Hs & ->)]];
    apply start_rules_inv in Hs as (Hpre & Hall & Ho);
    destruct (Hstarts _ Hall) as (Hw & Hp & Hst & Hk & Hres); try done.
  2:{ split_and!; try done; by destruct e. }
  destruct Ho as (Hrl & -> & Hlen & new & -> & Hnew). simpl in *.
  apply bind_inv in Hrun
    as [([[jobs' jr'] stop'] & ev3 & w3 & ev4 & Hp3 & Hrun & ->)|[(e & Hp3 & ->)|(Hp3 & ->)]];
    apply poll_jobs_inv in Hp3 as (Honly & Ho); try done;
    destruct (only_results_quiet _ Honly) as (Hr3 & Hj3 & Hk3 & Hw3 & Hpu3 & Hst3).
  2:{ split_and!; split_events; rewrite ?Hr3, ?Hw3, ?Hpu3, ?Hst3, ?app_nil_r; try done.
      intros rule urls job Hin. apply elem_of_app in Hin as [Hin|Hin]; [by eapply Hres|].
      by apply only_results_no_start in Hin. }
  destruct Ho as (Hsub & Hjr).
  assert (Hin12 : ∀ (ev5 : list Event) rule urls job,
            started_rules ev5 = [] →
            EvStart rule urls job ∈ ev1 ++ ev3 ++ ev5 →
            rule ∈ rl ∧ resolved_input bb rule = Some urls).
  { intros ev5 rule urls job Hnil Hin.
    apply elem_of_app in Hin as [Hin|Hin]; [by eapply Hres|].
    apply elem_of_app in Hin as [Hin|Hin].
    - by apply only_results_no_start in Hin.
    - assert (rule ∈ started_rules ev5) as Hr
        by (apply elem_of_started_rules; eauto).
      rewrite Hnil in Hr. inversion Hr. }
  apply bind_inv in Hrun
    as [([] & ev5 & w5 & ev6 & Hkill & Hrun & ->)|[(e & Hkill & ->)|(Hkill & ->)]].
  - injection Hrun as <- <- <-. rewrite app_nil_r.
    assert (ev5 = []) as ->.
    { destruct stop'; [|by injection Hkill].
      rewrite kill_loop_run in Hkill. destruct jobs'; congruence. }
    rewrite !app_nil_r. split_and!; split_events;
      rewrite ?Hr3, ?Hw3, ?Hpu3, ?Hst3, ?Hj3, ?Hk3, ?app_nil_r; try done.
    { intros rule urls job Hin. apply (Hin12 [] rule urls job); [done|].
      by rewrite app_nil_r. }
    intros k v Hkv. destruct (Hjr k v Hkv) as [Hempty|(j & Hn & Hex & Hin)].
    { by rewrite lookup_empty in Hempty. }
    exists j. split; [done|]. split.
    + apply Exists_app. by right.
    + intros Hexp. apply Forall_app in Hexp as [_ Hexp].
      by apply Hin.
  - destruct stop'; [|by injection Hkill].
    rewrite kill_loop_run in Hkill. destruct jobs' as [|j jobs']; [done|].
    injection Hkill as <- <- <-.
    split_and!; split_events; rewrite ?Hr3, ?Hw3, ?Hpu3, ?Hst3, ?app_nil_r; try done.
    intros rule urls job. by apply Hin12.
  - destruct stop'; [|by injection Hkill].
    rewrite kill_loop_run in Hkill. by destruct jobs'.
Qed.

End ConcurrentFacts.

(** ** Filters *)

Lemma filter_ext_Forall {A} (P Q : A → Prop) `{∀ x, Decision (P x)} `{∀ x, Decision (Q x)}
    (l : list A) :
  Forall (λ x, P x ↔ Q x) l → filter P l = filter Q l.
Proof.
  induction 1 as [|x l Hx _ IH]; [done|].
  rewrite !filter_cons, IH. destruct (decide (P x)), (decide (Q x)); tauto.
Qed.

Lemma filter_not_in_filter {A} `{EqDecision A} (P : A → Prop) `{∀ x, Decision (P x)}
    (l : list A) :
  filter (λ x, x ∉ filter P l) l = filter (λ x, ¬ P x) l.
Proof.
  apply filter_ext_Forall, Forall_forall. intros x Hx.
  rewrite list_elem_of_filter. tauto.
Qed.

Lemma runable_and_rest subs bb :
  _get_runable_rules subs bb ++
    filter (λ rule, rule ∉ _get_runable_rules subs bb) subs ≡ₚ subs.
Proof.
  rewrite get_runable_filter, filter_not_in_filter. apply filter_app_complement.
Qed.

Lemma stored_of_stores (items : list (string * list Url)) :
  stored ((λ item, EvStore item.1 item.2) <$> items) = items.
Proof.
  induction items as [|[k v] items IH]; [done|].
  rewrite fmap_cons.
  change ((k, v) :: stored ((λ item, EvStore item.1 item.2) <$> items) = (k, v) :: items).
  by rewrite IH.
Qed.

Lemma stores_quiet (items : list (string * list Url)) :
  let ev := (λ item, EvStore item.1 item.2) <$> items in
  started_rules ev = [] ∧ started_jobs ev = [] ∧ killed ev = [] ∧
  waited ev = [] ∧ purged ev = [].
Proof. induction items as [|[k v] items IH]; simpl; [done|]. apply IH. Qed.

Section RoundFacts.
Context {W : Type} `{Backend W}.

(** ** One round of the loop *)

Lemma store_items_run items bb (w : W) :
  store_items items bb w =
  (Returned (apply_stores items bb), (λ item, EvStore item.1 item.2) <$> items, w).
Proof.
  revert bb. induction items as [|[k v] items IH]; intros bb; [done|].
  simpl. unfold bind, store. by rewrite IH.
Qed.

Lemma round_inv pf st (w : W) o ev w' :
  sub_rules_round pf st w = (o, ev, w') →
  let runable := _get_runable_rules (ls_sub_rules st) (ls_blackboard st) in
  started_rules ev `prefix_of` runable ∧ waited ev = [] ∧ purged ev = [] ∧
  (∀ rule urls job, EvStart rule urls job ∈ ev →
     rule ∈ runable ∧ resolved_input (ls_blackboard st) rule = Some urls) ∧
  o ≠ Raised CommError ∧ o ≠ Raised AttributeError ∧
  match o with
  | Returned st' =>
      started_rules ev = runable ∧
      length (started_jobs ev) = length runable ∧
      ls_sub_rules st' = filter (λ rule, rule ∉ runable) (ls_sub_rules st) ∧
      (∃ new, ls_inferno_jobs st' = ls_inferno_jobs st ++ new ∧
              ij_job <$> new = Some <$> started_jobs ev) ∧
      ls_blackboard st' = apply_stores (stored ev) (ls_blackboard st) ∧
      NoDup (stored ev).*1 ∧ killed ev = [] ∧
      ∃ ev_run, ev = ev_run ++ ((λ item, EvStore item.1 item.2) <$> stored ev) ∧
        stored ev_run = [] ∧
        ∀ k v, (k, v) ∈ stored ev →
          ∃ j, _get_rule_name j = k ∧ Exists (reported_ready j v) ev_run ∧
               (Forall expected_answer ev_run → j ∈ started_jobs ev_run)
  | _ => stored ev = []
  end.
Proof.
  intros Hrun runable. unfold sub_rules_round in Hrun. cbv zeta in Hrun.
  apply bind_inv in Hrun
    as [([ijs ret_] & ev1 & w1 & ev2 & Hc & Hrun & ->)|[(e & Hc & ->)|(Hc & ->)]];
    apply run_concurrent_inv in Hc
      as (Hpre & Hw & Hp & Hst & Hres & Hce & Hae & Ho); fold runable in Hpre, Hres, Ho;
    try done.
  2:{ split_and!; try done; intros [= ->]; done. }
  rewrite (bind_returned _ _ _ _ _ _ (store_items_run _ _ _)) in Hrun.
  injection Hrun as <- <- <-.
  destruct Ho as (Hrl & Hlen & Hijs & Hk & Hjust).
  pose proof (stores_quiet (map_to_list ret_)) as (Hs1 & Hs2 & Hs3 & Hs4 & Hs5).
  rewrite app_nil_r. split_events.
  rewrite Hs1, Hs2, Hs3, Hs4, Hs5, stored_of_stores, Hst, !app_nil_r. simpl.
  split_and!; try done.
  - intros rule urls job Hin. apply elem_of_app in Hin as [Hin|Hin]; [by eapply Hres|].
    apply list_elem_of_fmap in Hin as ([k v] & ? & _). done.
  - by exists ijs.
  - apply NoDup_fst_map_to_list.
  - exists ev1. split; [done|]. split; [done|].
    intros k v Hkv. apply elem_of_map_to_list in Hkv. by apply Hjust.
Qed.

End RoundFacts.

Section SequentialFacts.
Context {W : Type} `{Backend W}.

(** ** The top-level rule and the purge *)

Lemma run_sequential_inv rl bb (w : W) o ev w' :
  _run_sequential_rules rl bb w = (o, ev, w') →
  started_rules ev `prefix_of` rl ∧ killed ev = [] ∧ purged ev = [] ∧ stored ev = [] ∧
  (∀ rule urls job, EvStart rule urls job ∈ ev →
     rule ∈ rl ∧ resolved_input bb rule = Some urls) ∧
  match o with
  | Returned _ =>
      started_rules ev = rl ∧ waited ev = started_jobs ev ∧
      length (started_jobs ev) = length rl
  | Raised (Exception _) | Raised (KeyError _) => True
  | _ => False
  end.
Proof.
  revert w ev. induction rl as [|rule rl IH]; intros w ev; simpl.
  - intros [= <- <- <-]. split_and!; try done. intros ? ? ? Hin. inversion Hin.
  - intros Hrun. apply bind_inv in Hrun
      as [(urls & ev1 & w1 & ev2 & Hc & Hrun & ->)|[(e & Hc & ->)|(Hc & ->)]];
      apply collect_urls_resolved in Hc as (-> & -> & Hres); try done.
    2:{ destruct e; try done. split_and!; try done; [apply prefix_nil|].
        intros ? ? ? Hin. inversion Hin. }
    simpl. rewrite (bind_returned _ _ _ _ _ _ (start_job_run rule urls w)) in Hrun.
    destruct (job_start rule urls w) as [[j|] w1] eqn:Hstart; simpl in Hrun.
    + unfold bind at 1 in Hrun. simpl in Hrun.
      destruct (_run_sequential_rules rl bb (job_wait j w1)) as [[o2 ev3] w2] eqn:Hrest.
      injection Hrun as <- <- <-.
      destruct (IH _ _ Hrest) as (Hpre & Hk & Hp & Hs & Hin & Ho). simpl.
      split_and!; try done.
      * by apply prefix_cons.
      * intros r u jb Hr. apply elem_of_cons in Hr as [[= -> -> ->]|Hr]; [by split; [left|]|].
        apply elem_of_cons in Hr as [?|Hr]; [done|].
        destruct (Hin _ _ _ Hr). split; [by right|done].
      * destruct o2 as [[]|[]|]; try done. destruct Ho as (-> & -> & ->). done.
    + injection Hrun as <- <- <-. simpl. split_and!; try done.
      * by apply prefix_cons, prefix_nil.
      * intros r u jb Hr. apply list_elem_of_singleton in Hr as [= -> -> ->].
        by split; [left|].
Qed.

Lemma run_sequential_single rule bb (w : W) ev w' :
  _run_sequential_rules [rule] bb w = (Returned tt, ev, w') →
  ∃ urls j, ev = [EvStart rule urls (Some j); EvWait j] ∧
            resolved_input bb rule = Some urls.
Proof.
  simpl. intros Hrun. apply bind_inv in Hrun
    as [(urls & ev1 & w1 & ev2 & Hc & Hrun & ->)|[(e & Hc & [=])|(Hc & [=])]].
  apply collect_urls_resolved in Hc as (-> & -> & Hres).
  rewrite (bind_returned _ _ _ _ _ _ (start_job_run rule urls w)) in Hrun.
  destruct (job_start rule urls w) as [[j|] w1] eqn:Hstart; simpl in Hrun; [|done].
  injection Hrun as <- <-. by exists urls, j.
Qed.

Lemma purge_loop_run ijs js (w : W) :
  ij_job <$> ijs = Some <$> js →
  ∃ w', for_each ijs purge_job w = (Returned tt, EvPurge <$> js, w').
Proof.
  revert js w. induction ijs as [|ij ijs IH]; intros [|j js] w Heq; try done.
  - by exists w.
  - rewrite !fmap_cons in Heq. injection Heq as Hj Heq.
    destruct (IH js (job_purge j w) Heq) as (w' & Hrest). exists w'.
    change (for_each (ij :: ijs) purge_job w)
      with (bind (purge_job ij) (λ _, for_each ijs purge_job) w).
    assert (purge_job ij w = (Returned tt, [EvPurge j], job_purge j w)) as Hp
      by (unfold purge_job; by rewrite Hj).
    by rewrite (bind_returned _ _ _ _ _ _ Hp), Hrest.
Qed.

(** ** The rounds of the loop *)

Lemma rounds_trans pf st (w : W) ev1 st1 w1 ev2 st2 w2 :
  rounds pf st w ev1 st1 w1 → rounds pf st1 w1 ev2 st2 w2 →
  rounds pf st w (ev1 ++ ev2) st2 w2.
Proof.
  induction 1 as [|st w eva sta wa evb stb wb Hne Hround _ IH]; [done|].
  intros Hmore. rewrite <- app_assoc. eapply rounds_more; eauto.
Qed.

(** What [run_sub_rules] does is some rounds of the loop, and then: it
    returns, when no sub-rule is left; or the next round raises; or the next
    round does not come to an end, or there is no fuel for it. *)
Lemma run_sub_rules_rounds fuel pf st (w : W) o ev w' :
  run_sub_rules fuel pf st w = (o, ev, w') →
  ∃ st1 w1 ev1 ev2,
    rounds pf st w ev1 st1 w1 ∧ ev = ev1 ++ ev2 ∧
    match o with
    | Returned st' => st' = st1 ∧ w' = w1 ∧ ev2 = [] ∧ ls_sub_rules st1 = []
    | Raised e =>
        ls_sub_rules st1 ≠ [] ∧ sub_rules_round pf st1 w1 = (Raised e, ev2, w')
    | Diverged =>
        ls_sub_rules st1 ≠ [] ∧
        ((ev2 = [] ∧ w' = w1) ∨ sub_rules_round pf st1 w1 = (Diverged, ev2, w'))
    end.
Proof.
  revert st w ev. induction fuel as [|fuel IH]; intros st w ev; simpl;
    destruct (ls_sub_rules st) as [|r rs] eqn:Hsubs.
  - intros [= <- <- <-]. exists st, w, [], []. split; [constructor|]. done.
  - intros [= <- <- <-]. exists st, w, [], []. split; [constructor|].
    rewrite Hsubs. split; [done|]. split; [done|]. by left.
  - intros [= <- <- <-]. exists st, w, [], []. split; [constructor|]. done.
  - intros Hrun. apply bind_inv in Hrun
      as [(st1 & ev1 & w1 & ev2 & Hround & Hrun & ->)|[(e & Hround & ->)|(Hround & ->)]].
    + destruct (IH _ _ _ Hrun) as (st2 & w2 & eva & evb & Hrounds & -> & Ho).
      exists st2, w2, (ev1 ++ eva), evb. split.
      * eapply rounds_more; [|exact Hround|exact Hrounds]. by rewrite Hsubs.
      * split; [by rewrite app_assoc|done].
    + exists st, w, [], ev. split; [constructor|]. rewrite Hsubs. done.
    + exists st, w, [], ev. split; [constructor|]. rewrite Hsubs.
      split; [done|]. split; [done|]. by right.
Qed.

End SequentialFacts.

Lemma apply_stores_app items1 items2 bb :
  apply_stores (items1 ++ items2) bb = apply_stores items2 (apply_stores items1 bb).
Proof. apply foldl_app. Qed.

Lemma filter_not_in_nil {A} `{EqDecision A} (l : list A) :
  filter (λ x, x ∉ @nil A) l = l.
Proof.
  induction l as [|x l IH]; [done|]. rewrite filter_cons, IH.
  rewrite decide_True; [done|]. intros Hx. inversion Hx.
Qed.

Section LoopFacts.
Context {W : Type} `{Backend W}.

Lemma rounds_inv pf st (w : W) ev st' w' :
  rounds pf st w ev st' w' →
  waited ev = [] ∧ purged ev = [] ∧ killed ev = [] ∧
  started_rules ev ++ ls_sub_rules st' ≡ₚ ls_sub_rules st ∧
  length (started_jobs ev) = length (started_rules ev) ∧
  (∃ new, ls_inferno_jobs st' = ls_inferno_jobs st ++ new ∧
          ij_job <$> new = Some <$> started_jobs ev) ∧
  ls_blackboard st' = apply_stores (stored ev) (ls_blackboard st).
Proof.
  induction 1 as [st w|st w ev1 st1 w1 ev2 st2 w2 Hne Hround _ IH].
  - split_and!; try done. exists []. by rewrite app_nil_r.
  - destruct IH as (Hw2 & Hp2 & Hk2 & Hperm2 & Hlen2 & (new2 & Hij2 & Hnew2) & Hbb2).
    apply round_inv in Hround as (_ & Hw1 & Hp1 & _ & _ & _ & Ho). simpl in Ho.
    destruct Ho as (Hrl & Hlen1 & Hsubs1 & (new1 & Hij1 & Hnew1) & Hbb1 & _ & Hk1 & _).
    split_events. rewrite Hw1, Hw2, Hp1, Hp2, Hk1, Hk2.
    split_and!; try done.
    + rewrite <- app_assoc, Hperm2, Hrl, Hsubs1. apply runable_and_rest.
    + rewrite !length_app. by rewrite Hlen1, Hlen2, Hrl.
    + exists (new1 ++ new2). split.
      * by rewrite Hij2, Hij1, app_assoc.
      * by rewrite !fmap_app, Hnew1, Hnew2.
    + by rewrite apply_stores_app, Hbb2, Hbb1.
Qed.

(** A round in which no rule is ready changes nothing. *)
Lemma idle_round pf st (w : W) :
  _get_runable_rules (ls_sub_rules st) (ls_blackboard st) = [] →
  sub_rules_round pf st w = (Returned st, [], w).
Proof.
  intros Hnone. unfold sub_rules_round. rewrite Hnone.
  assert (_run_concurrent_rules pf [] (ls_blackboard st) w = (Returned ([], ∅), [], w))
    as Hbatch by (by destruct pf).
  rewrite (bind_returned _ _ _ _ _ _ Hbatch).
  rewrite map_to_list_empty. simpl.
  rewrite (filter_not_in_nil (ls_sub_rules st)), app_nil_r. by destruct st.
Qed.

Lemma round_lengths pf st (w : W) st' ev w' :
  sub_rules_round pf st w = (Returned st', ev, w') →
  length (_get_runable_rules (ls_sub_rules st) (ls_blackboard st)) +
    length (ls_sub_rules st') = length (ls_sub_rules st).
Proof.
  intros Hround. apply round_inv in Hround as (_ & _ & _ & _ & _ & _ & Ho).
  simpl in Ho. destruct Ho as (_ & _ & -> & _).
  rewrite <- length_app. apply Permutation_length, runable_and_rest.
Qed.

Lemma round_shrinks pf st (w : W) st' ev w' :
  sub_rules_round pf st w = (Returned st', ev, w') →
  _get_runable_rules (ls_sub_rules st) (ls_blackboard st) ≠ [] →
  length (ls_sub_rules st') < length (ls_sub_rules st).
Proof.
  intros Hround Hne. apply round_lengths in Hround.
  destruct (_get_runable_rules (ls_sub_rules st) (ls_blackboard st)); [done|].
  simpl in Hround. lia.
Qed.

Lemma spinning_loop pf st (w : W) fuel :
  ls_sub_rules st ≠ [] →
  _get_runable_rules (ls_sub_rules st) (ls_blackboard st) = [] →
  run_sub_rules fuel pf st w = (Diverged, [], w).
Proof.
  intros Hne Hnone. pose proof (idle_round pf st w Hnone) as Hidle.
  induction fuel as [|fuel IH]; simpl;
    destruct (ls_sub_rules st) eqn:Hsubs; try done.
  by rewrite (bind_returned _ _ _ _ _ _ Hidle), IH.
Qed.

Lemma loop_terminates pf fuel st (w : W) :
  length (ls_sub_rules st) ≤ fuel →
  (∀ st1 w1 ev1, rounds pf st w ev1 st1 w1 → ls_sub_rules st1 ≠ [] →
     _get_runable_rules (ls_sub_rules st1) (ls_blackboard st1) ≠ [] ∧
     (sub_rules_round pf st1 w1).1.1 ≠ Diverged) →
  (run_sub_rules fuel pf st w).1.1 ≠ Diverged.
Proof.
  revert st w. induction fuel as [|fuel IH]; intros st w Hlen Hready; simpl;
    destruct (ls_sub_rules st) as [|r rs] eqn:Hsubs; try done.
  { simpl in Hlen. lia. }
  destruct (Hready st w [] (rounds_none _ _ _)) as [Hne Hnd]; [by rewrite Hsubs|].
  unfold bind.
  destruct (sub_rules_round pf st w) as [[[st1|e|] ev1] w1] eqn:Hround; try done.
  specialize (IH st1 w1).
  destruct (run_sub_rules fuel pf st1 w1) as [[o2 ev2] w2] eqn:Hrest. simpl in *.
  apply IH.
  - pose proof (round_shrinks _ _ _ _ _ _ Hround Hne) as Hlt.
    rewrite Hsubs in Hlt. simpl in Hlt. lia.
  - intros st2 w2' ev2' Hrounds. apply (Hready st2 w2' (ev1 ++ ev2')).
    eapply rounds_more; [|exact Hround|exact Hrounds]. by rewrite Hsubs.
Qed.

End LoopFacts.

(** ** The list of all rules *)

Lemma deduplicate_from_elem seen rules rule :
  rule ∈ deduplicate_from seen rules ↔ rule ∈ rules ∧ rule ∉ seen.
Proof.
  revert seen. induction rules as [|r rules IH]; intros seen; simpl.
  - split; [intros Hin; inversion Hin|intros [Hin _]; inversion Hin].
  - destruct (decide (r ∈ seen)) as [Hseen|Hseen].
    + rewrite IH, elem_of_cons. split; [tauto|]. intros [[->|?] ?]; tauto.
    + rewrite elem_of_cons, IH, !elem_of_cons. split.
      * intros [->|[? ?]]; tauto.
      * intros [[->|?] ?]; [tauto|].
        destruct (decide (rule = r)); tauto.
Qed.

Lemma deduplicate_from_NoDup seen rules : NoDup (deduplicate_from seen rules).
Proof.
  revert seen. induction rules as [|r rules IH]; intros seen; simpl.
  - constructor.
  - destruct (decide (r ∈ seen)); [apply IH|]. constructor; [|apply IH].
    rewrite deduplicate_from_elem. intros [_ Hnot]. apply Hnot. left.
Qed.

Lemma deduplicate_rules_elem rules rule :
  rule ∈ deduplicate_rules rules ↔ rule ∈ rules.
Proof.
  unfold deduplicate_rules. rewrite deduplicate_from_elem. split; [tauto|].
  intros ?. split; [done|]. intros Hin. inversion Hin.
Qed.

Lemma deduplicate_rules_NoDup rules : NoDup (deduplicate_rules rules).
Proof. apply deduplicate_from_NoDup. Qed.

Lemma flatten_rules_self rule : rule ∈ flatten_rules rule.
Proof. destruct rule. simpl. apply elem_of_app. right. left. Qed.

Lemma slices {A} (l : list A) :
  l ≠ [] → ∃ t, last l = Some t ∧ last_slice l = [t] ∧ init_slice l ++ [t] = l.
Proof.
  intros Hne. induction l as [|x l _] using rev_ind; [done|].
  exists x. unfold last_slice, init_slice. rewrite last_snoc, length_app. simpl.
  replace (length l + 1 - 1) with (length l) by lia.
  by rewrite drop_app_length, take_app_length.
Qed.

Lemma all_rules_slices rule_ :
  let all_rules := deduplicate_rules (flatten_rules rule_) in
  NoDup all_rules ∧
  ∃ t, last all_rules = Some t ∧ last_slice all_rules = [t] ∧
       init_slice all_rules ++ [t] = all_rules.
Proof.
  intros all_rules. split; [apply deduplicate_rules_NoDup|]. apply slices.
  intros Hnil. pose proof (flatten_rules_self rule_) as Hin.
  apply deduplicate_rules_elem in Hin. fold all_rules in Hin. rewrite Hnil in Hin.
  inversion Hin.
Qed.

Section ExecuteFacts.
Context {W : Type} `{Backend W}.

(** ** A run of [execute_rule] *)

(** A run is some rounds of the loop, and then: the top-level rule is
    started and waited for and the jobs of the sub-rules are purged; or a
    round of the loop does not return; or the top-level rule does not
    start. *)
Lemma execute_rule_inv fuel pf rule_ (w : W) o ev w' :
  execute_rule fuel pf rule_ w = (o, ev, w') →
  let all_rules := deduplicate_rules (flatten_rules rule_) in
  ∃ st1 w1 ev1 ev2,
    rounds pf (initial_state all_rules) w ev1 st1 w1 ∧ ev = ev1 ++ ev2 ∧
    ((o = Returned tt ∧ ls_sub_rules st1 = [] ∧
      ∃ t urls j,
        last all_rules = Some t ∧
        resolved_input (ls_blackboard st1) t = Some urls ∧
        ev2 = [EvStart t urls (Some j); EvWait j] ++ (EvPurge <$> started_jobs ev1)) ∨
     (is_returned o = false ∧ o ≠ Raised CommError ∧ ls_sub_rules st1 ≠ [] ∧
      started_rules ev2 `prefix_of`
        _get_runable_rules (ls_sub_rules st1) (ls_blackboard st1) ∧
      purged ev2 = [] ∧ waited ev2 = []) ∨
     (is_returned o = false ∧ o ≠ Raised CommError ∧ o ≠ Diverged ∧
      ls_sub_rules st1 = [] ∧
      started_rules ev2 `prefix_of` last_slice all_rules ∧ purged ev2 = [])).
Proof.
  intros Hrun all_rules. unfold execute_rule in Hrun. cbv zeta in Hrun.
  fold all_rules in Hrun.
  destruct (all_rules_slices rule_) as (_ & t & Hlast & Hslice & _).
  fold all_rules in Hlast, Hslice.
  apply bind_inv in Hrun
    as [(st & ev1 & w1 & ev2 & Hloop & Hrun & ->)|[(e & Hloop & ->)|(Hloop & ->)]];
    apply run_sub_rules_rounds in Hloop as (st1 & w1' & eva & evb & Hrounds & -> & Ho).
  - destruct Ho as (-> & -> & -> & Hnil). rewrite app_nil_r.
    exists st1, w1', eva, ev2. split; [done|]. split; [done|].
    apply bind_inv in Hrun
      as [([] & ev3 & w3 & ev4 & Hseq & Hrun & ->)|[(e & Hseq & ->)|(Hseq & ->)]].
    + left. rewrite Hslice in Hseq.
      apply run_sequential_single in Hseq as (urls & j & -> & Hres).
      apply rounds_inv in Hrounds as (_ & _ & _ & _ & _ & (new & Hij & Hnew) & _).
      simpl in Hij. rewrite Hij in Hrun.
      destruct (purge_loop_run new (started_jobs eva) w3 Hnew) as (w4 & Hpurge).
      rewrite Hpurge in Hrun. injection Hrun as <- <- <-.
      split; [done|]. split; [done|]. by exists t, urls, j.
    + right. right.
      apply run_sequential_inv in Hseq as (Hpre & _ & Hp & _ & _ & Ho).
      split_and!; try done; by destruct e.
    + by apply run_sequential_inv in Hseq as (_ & _ & _ & _ & _ & ?).
  - destruct Ho as (Hne & Hround). exists st1, w1', eva, evb.
    split; [done|]. split; [done|]. right. left.
    apply round_inv in Hround as (Hpre & Hw & Hp & _ & Hce & _).
    split_and!; try done. intros [= ->]. done.
  - destruct Ho as (Hne & [[-> ->]|Hround]); exists st1, w1', eva.
    + exists []. split; [done|]. split; [done|]. right. left.
      split_and!; try done. apply prefix_nil.
    + exists evb. split; [done|]. split; [done|]. right. left.
      apply round_inv in Hround as (Hpre & Hw & Hp & _ & Hce & _).
      split_and!; done.
Qed.

End ExecuteFacts.

Lemma prefix_sublist {A} (l1 l2 : list A) : l1 `prefix_of` l2 → l1 `sublist_of` l2.
Proof. intros [k ->]. by apply sublist_inserts_r. Qed.

Lemma occurs_once {A} `{EqDecision A} (x : A) (l : list A) :
  NoDup l → x ∈ l → length (filter (x =.) l) = 1.
Proof.
  induction 1 as [|y l Hy Hnd IH]; intros Hin; [inversion Hin|].
  rewrite filter_cons. destruct (decide (x = y)) as [->|Hne].
  - simpl. f_equal. apply length_zero_iff_nil.
    destruct (filter (y =.) l) as [|z k] eqn:E; [done|].
    assert (Hz : z ∈ filter (y =.) l) by (rewrite E; left).
    apply list_elem_of_filter in Hz as [<- Hz]. done.
  - apply elem_of_cons in Hin as [?|Hin]; [done|]. by apply IH.
Qed.

Lemma purges_quiet (jobs : list JobName) :
  started_rules (EvPurge <$> jobs) = [] ∧ started_jobs (EvPurge <$> jobs) = [] ∧
  waited (EvPurge <$> jobs) = [] ∧ killed (EvPurge <$> jobs) = [] ∧
  stored (EvPurge <$> jobs) = [] ∧ purged (EvPurge <$> jobs) = jobs.
Proof.
  induction jobs as [|j jobs (?&?&?&?&?&IH)]; [done|]. split_and!; try done.
  rewrite fmap_cons. change (j :: purged (EvPurge <$> jobs) = j :: jobs). by rewrite IH.
Qed.

Section ExecuteTheorems.
Context {W : Type} `{Backend W}.

(** The rules started in a run are rules of the graph, and in the order of
    the run they are part of a list that has every rule of the graph once. *)
Lemma started_rules_sublist fuel pf rule_ (w : W) o ev w' :
  execute_rule fuel pf rule_ w = (o, ev, w') →
  ∃ l, started_rules ev `sublist_of` l ∧ l ≡ₚ deduplicate_rules (flatten_rules rule_).
Proof.
  intros Hrun. apply execute_rule_inv in Hrun
    as (st1 & w1 & ev1 & ev2 & Hrounds & -> & Hcases).
  destruct (all_rules_slices rule_) as (Hnd & t & Hlast & Hslice & Hall).
  set (all_rules := deduplicate_rules (flatten_rules rule_)) in *.
  apply rounds_inv in Hrounds as (_ & _ & _ & Hperm & _).
  change (ls_sub_rules (initial_state all_rules)) with (init_slice all_rules) in Hperm.
  rewrite started_rules_app.
  destruct Hcases as [(-> & Hnil & t' & urls & j & Hlast' & _ & ->)|
                      [(_ & _ & _ & Hpre & _)|(_ & _ & _ & Hnil & Hpre & _)]].
  - assert (t' = t) as -> by congruence.
    exists (started_rules ev1 ++ [t]). split.
    + rewrite started_rules_app. destruct (purges_quiet (started_jobs ev1)) as (-> & _).
      done.
    + rewrite Hnil, app_nil_r in Hperm. by rewrite Hperm, Hall.
  - exists ((started_rules ev1 ++ ls_sub_rules st1) ++ [t]). split.
    + apply sublist_inserts_r, sublist_app; [done|].
      etrans; [by apply prefix_sublist|]. rewrite get_runable_filter.
      apply sublist_filter.
    + by rewrite Hperm, Hall.
  - exists (started_rules ev1 ++ [t]). split.
    + apply sublist_app; [done|]. apply prefix_sublist. by rewrite <- Hslice.
    + rewrite Hnil, app_nil_r in Hperm. by rewrite Hperm, Hall.
Qed.

(** The starts of a run of [execute_rule], whatever its outcome: no rule is
    started twice, and every rule started is of the graph.  When the run
    returns, it has started every rule of the graph exactly once: the rules
    other than the last of the flattened, deduplicated list in the
    concurrent batches, all of them with a job, and after them the last
    one, which is the only one waited for.  Whether a run returns is the
    matter of [execute_rule_obliging]. *)
Lemma returned_run_starts_each_rule_once fuel pf rule_ (w : W) o ev w' :
  execute_rule fuel pf rule_ w = (o, ev, w') →
  let all_rules := deduplicate_rules (flatten_rules rule_) in
  NoDup (started_rules ev) ∧
  (∀ rule, rule ∈ started_rules ev → rule ∈ flatten_rules rule_) ∧
  (o = Returned tt →
     ∃ ev_sub t urls j ev_purge,
       ev = ev_sub ++ [EvStart t urls (Some j); EvWait j] ++ ev_purge ∧
       last all_rules = Some t ∧
       started_rules ev_sub ≡ₚ init_slice all_rules ∧
       length (started_jobs ev_sub) = length (started_rules ev_sub) ∧
       waited ev_sub = [] ∧ started_rules ev_purge = [] ∧
       ∀ rule, rule ∈ flatten_rules rule_ →
         length (filter (rule =.) (started_rules ev)) = 1).
Proof.
  intros Hrun all_rules.
  destruct (started_rules_sublist _ _ _ _ _ _ _ Hrun) as (l & Hsub & Hperm).
  fold all_rules in Hperm.
  assert (Hnd : NoDup (started_rules ev)).
  { eapply sublist_NoDup; [|exact Hsub]. rewrite Hperm. apply deduplicate_rules_NoDup. }
  split; [done|]. split.
  { intros rule Hin. apply deduplicate_rules_elem. fold all_rules. rewrite <- Hperm.
    by eapply elem_of_sublist. }
  intros ->. apply execute_rule_inv in Hrun
    as (st1 & w1 & ev1 & ev2 & Hrounds & -> & Hcases).
  destruct Hcases as [(_ & Hnil & t & urls & j & Hlast & _ & ->)|
                      [([=] & _)|([=] & _)]].
  fold all_rules in Hlast.
  destruct (all_rules_slices rule_) as (_ & t' & Hlast' & Hslice & Hall).
  fold all_rules in Hlast', Hslice, Hall. assert (t' = t) as -> by congruence.
  apply rounds_inv in Hrounds as (Hw & _ & _ & Hperm1 & Hlen & _).
  change (ls_sub_rules (initial_state all_rules)) with (init_slice all_rules) in Hperm1.
  rewrite Hnil, app_nil_r in Hperm1.
  destruct (purges_quiet (started_jobs ev1)) as (Hpq & _).
  exists ev1, t, urls, j, (EvPurge <$> started_jobs ev1).
  split_and!; try done.
  intros rule Hin. apply occurs_once; [done|].
  apply deduplicate_rules_elem in Hin. fold all_rules in Hin. rewrite <- Hall in Hin.
  split_events. rewrite Hpq, Hperm1. simpl. by rewrite ?app_nil_r.
Qed.

(** C8, as the code has it: when [execute_rule] returns, the jobs of all
    the sub-rules it started have been purged, in the order they were
    started and after the top-level rule was started and waited for; these
    are the jobs of the list [inferno_jobs] that the loop collects.  When
    the run does not return, because a batch or the top-level rule raises,
    nothing has been purged. *)
Theorem sub_jobs_purged_when_returned fuel pf rule_ (w : W) o ev w' :
  execute_rule fuel pf rule_ w = (o, ev, w') →
  (o = Returned tt →
     ∃ ev_sub st w1 t urls j,
       rounds pf (initial_state (deduplicate_rules (flatten_rules rule_))) w ev_sub st w1 ∧
       ij_job <$> ls_inferno_jobs st = Some <$> started_jobs ev_sub ∧
       ev = ev_sub ++ [EvStart t urls (Some j); EvWait j] ++
              (EvPurge <$> started_jobs ev_sub) ∧
       purged ev_sub = [] ∧ purged ev = started_jobs ev_sub) ∧
  (o ≠ Returned tt → purged ev = []).
Proof.
  intros Hrun. apply execute_rule_inv in Hrun
    as (st1 & w1 & ev1 & ev2 & Hrounds & -> & Hcases).
  pose proof (rounds_inv _ _ _ _ _ _ Hrounds)
    as (_ & Hp1 & _ & _ & _ & (new & Hij & Hnew) & _).
  simpl in Hij.
  destruct Hcases as [(-> & Hnil & t & urls & j & Hlast & _ & ->)|
                      [(Ho & _ & _ & _ & Hp2 & _)|(Ho & _ & _ & _ & _ & Hp2)]].
  - split; [|done]. intros _. exists ev1, st1, w1, t, urls, j.
    split_and!; try done.
    + by rewrite Hij.
    + split_events. destruct (purges_quiet (started_jobs ev1)) as (_&_&_&_&_&->).
      by rewrite Hp1.
  - split; [by intros ->|]. intros _. split_events. by rewrite Hp1, Hp2.
  - split; [by intros ->|]. intros _. split_events. by rewrite Hp1, Hp2.
Qed.

End ExecuteTheorems.

Section StepTheorems.
Context {W : Type} `{Backend W}.

(** C6: a job is started, by [_run_concurrent_rules] and by
    [_run_sequential_rules] alike, with the entries of the direct sub-rules
    of its rule on the blackboard, concatenated in the order of the
    sub-rules. *)
Theorem started_with_resolved_input fuel rule_list bb (w : W) rule urls job :
  (EvStart rule urls job ∈ (_run_concurrent_rules fuel rule_list bb w).1.2 →
     rule ∈ rule_list ∧ resolved_input bb rule = Some urls) ∧
  (EvStart rule urls job ∈ (_run_sequential_rules rule_list bb w).1.2 →
     rule ∈ rule_list ∧ resolved_input bb rule = Some urls).
Proof.
  split.
  - destruct (_run_concurrent_rules fuel rule_list bb w) as [[o ev] w'] eqn:Hrun.
    apply run_concurrent_inv in Hrun as (_ & _ & _ & _ & Hres & _). apply Hres.
  - destruct (_run_sequential_rules rule_list bb w) as [[o ev] w'] eqn:Hrun.
    apply run_sequential_inv in Hrun as (_ & _ & _ & _ & Hres & _). apply Hres.
Qed.

(** C5: when [server.results] raises [CommError], the loop goes on with the
    jobs, the results and the flag it had, having killed no job and raised
    nothing: its next call of [server.results] is for the same list of
    jobs.  The loop never raises, and [execute_rule] never raises
    [CommError]. *)
Theorem comm_error_is_retried :
  (∀ fuel jobs jr stop (w : W),
     jobs ≠ [] → (server_results jobs 5000 w).1 = RaisesCommError →
     poll_jobs (S fuel) jobs jr stop w =
     match poll_jobs fuel jobs jr stop (server_results jobs 5000 w).2 with
     | (o, ev, w') => (o, EvResults jobs 5000 RaisesCommError :: ev, w')
     end) ∧
  (∀ fuel jobs jr stop (w : W),
     jobs ≠ [] → (server_results jobs 5000 w).1 = RaisesCommError →
     ∃ answer ev,
       (poll_jobs (S (S fuel)) jobs jr stop w).1.2 =
       EvResults jobs 5000 RaisesCommError :: EvResults jobs 5000 answer :: ev) ∧
  (∀ fuel jobs jr stop (w : W) e,
     (poll_jobs fuel jobs jr stop w).1.1 ≠ Raised e ∧
     killed (poll_jobs fuel jobs jr stop w).1.2 = []) ∧
  (∀ fuel pf rule_ (w : W), (execute_rule fuel pf rule_ w).1.1 ≠ Raised CommError).
Proof.
  assert (Hstep : ∀ fuel jobs jr stop (w : W),
     jobs ≠ [] → (server_results jobs 5000 w).1 = RaisesCommError →
     poll_jobs (S fuel) jobs jr stop w =
     match poll_jobs fuel jobs jr stop (server_results jobs 5000 w).2 with
     | (o, ev, w') => (o, EvResults jobs 5000 RaisesCommError :: ev, w')
     end).
  { intros fuel jobs jr stop w Hne Herr. destruct jobs as [|j jobs]; [done|].
    simpl. rewrite (bind_returned _ _ _ _ _ _ (call_results_run _ _ _)).
    by rewrite Herr. }
  split; [exact Hstep|]. split; [|split].
  - intros fuel jobs jr stop w Hne Herr. rewrite (Hstep _ _ _ _ _ Hne Herr).
    destruct jobs as [|j jobs]; [done|]. simpl.
    rewrite (bind_returned _ _ _ _ _ _ (call_results_run _ _ _)).
    set (w1 := (server_results (j :: jobs) 5000 w).2).
    destruct (match (server_results (j :: jobs) 5000 w1).1 with
              | RaisesCommError => _ | Polled _ _ => _ end) as [[o ev] w2].
    simpl. eauto.
  - intros fuel jobs jr stop w e.
    destruct (poll_jobs fuel jobs jr stop w) as [[o ev] w'] eqn:Hrun.
    apply poll_jobs_inv in Hrun as (Honly & Ho). simpl. split.
    + intros ->. done.
    + by apply only_results_quiet in Honly as (_ & _ & ? & _).
  - intros fuel pf rule_ w.
    destruct (execute_rule fuel pf rule_ w) as [[o ev] w'] eqn:Hrun.
    apply execute_rule_inv in Hrun as (st1 & w1 & ev1 & ev2 & _ & _ & Hcases).
    simpl. destruct Hcases as [(-> & _)|[(_ & ? & _)|(_ & ? & _)]]; done.
Qed.

(** C7: the loop of [execute_rule] comes to an end, with as many rounds as
    there are sub-rules or fewer, when in every round that it reaches some
    rule is ready (and the batch of the round comes to an end), and every
    such round that returns leaves fewer sub-rules than it found.  And a
    round that returns with the sub-rules it found is followed by rounds
    that do the same: the loop does not come to an end, whatever the
    fuel. *)
Theorem sub_rules_loop_termination pf :
  (∀ fuel st (w : W),
     length (ls_sub_rules st) ≤ fuel →
     (∀ st1 w1 ev1, rounds pf st w ev1 st1 w1 → ls_sub_rules st1 ≠ [] →
        _get_runable_rules (ls_sub_rules st1) (ls_blackboard st1) ≠ [] ∧
        (sub_rules_round pf st1 w1).1.1 ≠ Diverged) →
     (run_sub_rules fuel pf st w).1.1 ≠ Diverged ∧
     ∀ st1 w1 ev1 st2 ev2 w2,
       rounds pf st w ev1 st1 w1 → ls_sub_rules st1 ≠ [] →
       sub_rules_round pf st1 w1 = (Returned st2, ev2, w2) →
       length (ls_sub_rules st2) < length (ls_sub_rules st1)) ∧
  (∀ st (w : W) st' ev w',
     ls_sub_rules st ≠ [] →
     sub_rules_round pf st w = (Returned st', ev, w') →
     ls_sub_rules st' = ls_sub_rules st →
     ∀ fuel, run_sub_rules fuel pf st' w' = (Diverged, [], w')).
Proof.
  split.
  - intros fuel st w Hlen Hready. split; [by apply loop_terminates|].
    intros st1 w1 ev1 st2 ev2 w2 Hrounds Hne Hround.
    eapply round_shrinks; [exact Hround|]. by eapply Hready.
  - intros st w st' ev w' Hne Hround Hsame fuel.
    pose proof (round_lengths _ _ _ _ _ _ Hround) as Hlen. rewrite Hsame in Hlen.
    assert (_get_runable_rules (ls_sub_rules st) (ls_blackboard st) = []) as Hnone.
    { apply length_zero_iff_nil. lia. }
    rewrite (idle_round pf st w Hnone) in Hround. injection Hround as <- <- <-.
    by apply spinning_loop.
Qed.

End StepTheorems.

(** ** The entries of the blackboard *)

Lemma apply_stores_lookup_notin items bb k :
  k ∉ items.*1 → apply_stores items bb !! k = bb !! k.
Proof.
  revert bb. induction items as [|[k' v'] items IH]; intros bb Hk; [done|].
  rewrite fmap_cons, not_elem_of_cons in Hk. destruct Hk as [Hne Hk].
  change (apply_stores ((k', v') :: items) bb)
    with (apply_stores items (<[k' := v']> bb)).
  rewrite IH by done. by apply lookup_insert_ne.
Qed.

Lemma apply_stores_lookup_in items bb k v :
  NoDup items.*1 → (k, v) ∈ items → apply_stores items bb !! k = Some v.
Proof.
  revert bb. induction items as [|[k' v'] items IH]; intros bb Hnd Hin;
    [inversion Hin|].
  rewrite fmap_cons in Hnd. apply NoDup_cons in Hnd as [Hk' Hnd].
  change (apply_stores ((k', v') :: items) bb)
    with (apply_stores items (<[k' := v']> bb)).
  apply elem_of_cons in Hin as [[= -> ->]|Hin].
  - rewrite apply_stores_lookup_notin by done. apply lookup_insert_eq.
  - by apply IH.
Qed.

Lemma init_blackboard_lookup all_rules rule :
  rule ∈ all_rules → init_blackboard all_rules !! name rule = Some [].
Proof.
  unfold init_blackboard. generalize (∅ : Blackboard).
  induction all_rules as [|r rs IH] using rev_ind; intros bb Hin; [inversion Hin|].
  rewrite foldl_app. simpl. apply elem_of_app in Hin as [Hin|Hin].
  - destruct (decide (name r = name rule)) as [->|Hne].
    + apply lookup_insert_eq.
    + rewrite lookup_insert_ne by done. by apply IH.
  - apply list_elem_of_singleton in Hin as ->. apply lookup_insert_eq.
Qed.

Section BlackboardFacts.
Context {W : Type} `{Backend W}.

Lemma round_stores pf st (w : W) st' ev w' :
  sub_rules_round pf st w = (Returned st', ev, w') →
  Forall expected_answer ev →
  ∀ k v, (k, v) ∈ stored ev →
    ∃ pre post rule urls j,
      ev = pre ++ (EvStore k v :: post) ∧
      rule ∈ _get_runable_rules (ls_sub_rules st) (ls_blackboard st) ∧
      name rule = k ∧
      EvStart rule urls (Some j) ∈ pre ∧ Exists (reported_ready j v) pre.
Proof.
  intros Hround Hexp k v Hkv.
  apply round_inv in Hround as (_ & _ & _ & Hres & _ & _ & Ho). simpl in Ho.
  destruct Ho as (_ & _ & _ & _ & _ & _ & _ & ev_run & Hev & _ & Hjust).
  rewrite Hev in Hexp. apply Forall_app in Hexp as [Hexp _].
  destruct (Hjust k v Hkv) as (j & Hname & Hready & Hstarted).
  pose proof (Hstarted Hexp) as Hstart.
  apply elem_of_started_jobs in Hstart as (rule & urls & Hstart).
  rewrite Forall_forall in Hexp. pose proof (Hexp _ Hstart) as Hj. simpl in Hj.
  destruct (list_elem_of_split _ _ Hkv) as (s1 & s2 & Hsplit).
  exists (ev_run ++ ((λ item, EvStore item.1 item.2) <$> s1)),
    ((λ item, EvStore item.1 item.2) <$> s2), rule, urls, j.
  split_and!.
  - rewrite Hev at 1. rewrite Hsplit, fmap_app, fmap_cons. simpl.
    by rewrite <- app_assoc.
  - apply (Hres rule urls (Some j)). rewrite Hev. apply elem_of_app. by left.
  - congruence.
  - apply elem_of_app. by left.
  - apply Exists_app. by left.
Qed.

Lemma rounds_stores pf st (w : W) ev st' w' :
  rounds pf st w ev st' w' →
  NoDup (name <$> ls_sub_rules st) →
  Forall expected_answer ev →
  NoDup (stored ev).*1 ∧
  ∀ k v, (k, v) ∈ stored ev →
    ∃ pre post rule urls j,
      ev = pre ++ (EvStore k v :: post) ∧
      rule ∈ ls_sub_rules st ∧ name rule = k ∧
      EvStart rule urls (Some j) ∈ pre ∧ Exists (reported_ready j v) pre.
Proof.
  induction 1 as [st w|st w ev1 st1 w1 ev2 st2 w2 Hne Hround _ IH];
    intros Hnd Hexp.
  { split; [constructor|]. intros k v Hin. inversion Hin. }
  apply Forall_app in Hexp as [Hexp1 Hexp2].
  pose proof (round_stores _ _ _ _ _ _ Hround Hexp1) as Hjust1.
  pose proof (round_inv _ _ _ _ _ _ Hround) as (_ & _ & _ & _ & _ & _ & Ho).
  simpl in Ho. destruct Ho as (_ & _ & Hsubs1 & _ & _ & Hnd1 & _).
  pose proof (runable_and_rest (ls_sub_rules st) (ls_blackboard st)) as Hperm.
  rewrite <- Hsubs1 in Hperm.
  assert (Hnames :
    NoDup ((name <$> _get_runable_rules (ls_sub_rules st) (ls_blackboard st))
             ++ (name <$> ls_sub_rules st1))).
  { rewrite <- fmap_app. by rewrite Hperm. }
  apply NoDup_app in Hnames as (_ & Hdisj & Hnd_rest).
  destruct (IH Hnd_rest Hexp2) as (Hnd2 & Hjust2).
  rewrite stored_app. split.
  - rewrite fmap_app. apply NoDup_app. split; [done|]. split; [|done].
    intros k Hk1 Hk2.
    apply list_elem_of_fmap in Hk1 as ([k1 v1] & -> & Hin1).
    apply list_elem_of_fmap in Hk2 as ([k2 v2] & Heq & Hin2). simpl in Heq. subst k2.
    destruct (Hjust1 _ _ Hin1) as (_ & _ & r1 & _ & _ & _ & Hr1 & Hn1 & _).
    destruct (Hjust2 _ _ Hin2) as (_ & _ & r2 & _ & _ & _ & Hr2 & Hn2 & _).
    simpl in *. apply (Hdisj k1).
    + rewrite <- Hn1. by apply list_elem_of_fmap_2.
    + rewrite <- Hn2. by apply list_elem_of_fmap_2.
  - intros k v Hin. apply elem_of_app in Hin as [Hin|Hin].
    + destruct (Hjust1 _ _ Hin) as (pre & post & rule & urls & j & -> & Hr & ? & ? & ?).
      exists pre, (post ++ ev2), rule, urls, j. split_and!; try done.
      * by rewrite <- app_assoc.
      * rewrite <- Hperm. apply elem_of_app. by left.
    + destruct (Hjust2 _ _ Hin) as (pre & post & rule & urls & j & -> & Hr & ? & ? & ?).
      exists (ev1 ++ pre), post, rule, urls, j. split_and!; try done.
      * by rewrite <- app_assoc.
      * rewrite <- Hperm. apply elem_of_app. by right.
      * apply elem_of_app. by right.
      * apply Exists_app. by right.
Qed.

End BlackboardFacts.

Section BlackboardTheorem.
Context {W : Type} `{Backend W}.

(** The entries of the blackboard in a run whose answers are as the runner
    expects them ([expected_answer]): the name of every job started, cut by
    [_get_rule_name], is the name of its rule, and [server.results] reports
    on jobs it was asked for.  When that is so is the matter of
    [rounds_expected].  Take a graph whose rules have different names.  At
    the start of [execute_rule] the entry of every rule is [[]].  In every state that the loop reaches: no key has
    been assigned twice; an assignment to a key was made after a job,
    started for the rule of that name, was reported ready, and with the
    results of that report; the entry of a rule is still [[]] if nothing has
    been assigned to its name, and is the value assigned otherwise; and the
    value assigned is the entry in every state the loop reaches later. *)
Lemma blackboard_written_once pf rule_ (w : W) ev st w' :
  let all_rules := deduplicate_rules (flatten_rules rule_) in
  NoDup (name <$> all_rules) →
  rounds pf (initial_state all_rules) w ev st w' →
  Forall expected_answer ev →
  (∀ rule, rule ∈ all_rules →
     ls_blackboard (initial_state all_rules) !! name rule = Some []) ∧
  NoDup (stored ev).*1 ∧
  (∀ k v, (k, v) ∈ stored ev →
     ∃ pre post rule urls j,
       ev = pre ++ (EvStore k v :: post) ∧
       rule ∈ all_rules ∧ name rule = k ∧
       EvStart rule urls (Some j) ∈ pre ∧ Exists (reported_ready j v) pre) ∧
  (∀ rule, rule ∈ all_rules →
     ((name rule ∉ (stored ev).*1) ∧ ls_blackboard st !! name rule = Some []) ∨
     (∃ v, (name rule, v) ∈ stored ev ∧ ls_blackboard st !! name rule = Some v)) ∧
  (∀ ev2 st2 w2,
     rounds pf st w' ev2 st2 w2 → Forall expected_answer ev2 →
     ∀ k v, (k, v) ∈ stored ev → ls_blackboard st2 !! k = Some v).
Proof.
  intros all_rules Hnames Hrounds Hexp.
  destruct (all_rules_slices rule_) as (_ & t & _ & _ & Hall).
  fold all_rules in Hall.
  assert (Hsubs : NoDup (name <$> ls_sub_rules (initial_state all_rules))).
  { change (ls_sub_rules (initial_state all_rules)) with (init_slice all_rules).
    rewrite <- Hall, fmap_app in Hnames. by apply NoDup_app in Hnames as (? & _). }
  destruct (rounds_stores _ _ _ _ _ _ Hrounds Hsubs Hexp) as (Hnd & Hjust).
  pose proof (rounds_inv _ _ _ _ _ _ Hrounds) as (_ & _ & _ & _ & _ & _ & Hbb).
  change (ls_blackboard (initial_state all_rules)) with (init_blackboard all_rules)
    in *.
  split_and!.
  - intros rule. apply init_blackboard_lookup.
  - done.
  - intros k v Hin.
    destruct (Hjust k v Hin) as (pre & post & rule & urls & j & ? & Hr & ? & ? & ?).
    exists pre, post, rule, urls, j. split_and!; try done.
    change (ls_sub_rules (initial_state all_rules)) with (init_slice all_rules) in Hr.
    rewrite <- Hall. apply elem_of_app. by left.
  - intros rule Hin. rewrite Hbb.
    destruct (decide (name rule ∈ (stored ev).*1)) as [Hk|Hk].
    + right. apply list_elem_of_fmap in Hk as ([k v] & Hkv & Hk). simpl in Hkv.
      subst k. exists v. split; [done|]. by apply apply_stores_lookup_in.
    + left. split; [done|]. rewrite apply_stores_lookup_notin by done.
      by apply init_blackboard_lookup.
  - intros ev2 st2 w2 Hrounds2 Hexp2 k v Hin.
    pose proof (rounds_trans _ _ _ _ _ _ _ _ _ Hrounds Hrounds2) as Hrounds12.
    assert (Hexp12 : Forall expected_answer (ev ++ ev2)) by by apply Forall_app.
    destruct (rounds_stores _ _ _ _ _ _ Hrounds12 Hsubs Hexp12) as (Hnd12 & _).
    pose proof (rounds_inv _ _ _ _ _ _ Hrounds12) as (_ & _ & _ & _ & _ & _ & Hbb12).
    rewrite Hbb12. apply apply_stores_lookup_in; [done|].
    rewrite stored_app. apply elem_of_app. by left.
Qed.

End BlackboardTheorem.

(** ** Job names *)

(** Disco names the job of a rule by the name of the rule, an [@] and a
    time stamp: from such a name, [_get_rule_name] gives back the name of
    the rule, as long as this has no [@] in it. *)
Lemma get_rule_name_of_job (rule_name stamp : string) :
  "@"%char ∉ chars rule_name →
  _get_rule_name (rule_name +:+ String "@" stamp) = rule_name.
Proof.
  unfold _get_rule_name. induction rule_name as [|c s IH]; simpl; [done|].
  intros Hno. apply not_elem_of_cons in Hno as [Hc Hs].
  destruct (Ascii.eqb c "@") eqn:E; [by apply Ascii.eqb_eq in E|].
  specialize (IH Hs). destruct (rsplit "@" (s +:+ String "@" stamp)); by subst.
Qed.

(** * The scenarios *)

Example run_all_ready :
  execute_rule 5 5 rule_C script_all_ready =
  (Returned tt, events_all_ready, MkScript [] []).
Proof. vm_compute. reflexivity. Qed.

(** C1, in the code: with [A] ready and [B] dead at the same call of
    [server.results] and no job active, the loop that kills the active jobs
    and raises has nothing to go round on: [_run_concurrent_rules] returns
    the results of [A], [execute_rule] writes them to the blackboard, starts
    [C] and returns.  And with [B] dead and two jobs active, the loop raises
    in its first round: the first active job is killed, the second is
    not. *)
Theorem dead_job_batch_does_not_fail :
  execute_rule 5 5 rule_C script_B_dead =
  (Returned tt,
   [EvStart rule_A [] (Some "A@1");
    EvStart rule_B [] (Some "B@1");
    EvResults ["A@1"; "B@1"] 5000
      (Polled [("A@1", ("ready", ["a1"])); ("B@1", ("dead", []))] []);
    EvStore "A" ["a1"];
    EvStart rule_C ["a1"] (Some "C@1");
    EvWait "C@1"; EvPurge "A@1"; EvPurge "B@1"]%string,
   MkScript [] []) ∧
  _run_concurrent_rules 5 [rule_A; rule_B; rule_D] ∅ script_B_dead_others_active =
  (Raised (Exception "One of the concurrent jobs failed."),
   [EvStart rule_A [] (Some "A@1");
    EvStart rule_B [] (Some "B@1");
    EvStart rule_D [] (Some "D@1");
    EvResults ["A@1"; "B@1"; "D@1"] 5000
      (Polled [("B@1", ("dead", []))]
              [("A@1", ("active", [])); ("D@1", ("active", []))]);
    EvKill "A@1"]%string,
   MkScript [] []).
Proof. split; vm_compute; reflexivity. Qed.

(** C2, in the code: when [B] does not start after [A] has started,
    [execute_rule] raises the exception that names [B] at once; the job of
    [A] is not killed. *)
Theorem refused_start_leaves_started_jobs :
  execute_rule 5 5 rule_C script_B_refused =
  (Raised (Exception "There is not enough blobs to run B"),
   [EvStart rule_A [] (Some "A@1"%string); EvStart rule_B [] None],
   script_B_refused).
Proof. vm_compute. reflexivity. Qed.

(** C8, as stated, fails: when the top-level rule does not start, the
    exception goes to the caller and the jobs of the sub-rules, which have
    come to an end, are not purged. *)
Lemma sub_jobs_not_purged_on_failure :
  (execute_rule 5 5 rule_C script_C_refused).1.1 =
    Raised (Exception "There is not enough blobs to run C") ∧
  started_jobs (execute_rule 5 5 rule_C script_C_refused).1.2 = ["A@1"; "B@1"]%string ∧
  purged (execute_rule 5 5 rule_C script_C_refused).1.2 = [].
Proof. vm_compute. done. Qed.

(** * The theorems at work on the scenarios *)

Lemma get_runable_rules_subsequence_witness :
  NoDup (_get_runable_rules [rule_A; rule_C] ∅) ∧
  length (filter (rule_A =.) (_get_runable_rules [rule_A; rule_C] ∅)) = 1.
Proof.
  destruct (get_runable_rules_subsequence [rule_A; rule_C] ∅) as (_ & _ & Hnd).
  assert (NoDup [rule_A; rule_C]) as Hcands.
  { apply NoDup_cons. split; [|apply NoDup_singleton].
    intros Hin. apply list_elem_of_singleton in Hin. discriminate Hin. }
  destruct (Hnd Hcands) as [Hout Honce]. split; [exact Hout|].
  apply Honce.
  - left.
  - intros sub_rule Hsub. inversion Hsub.
Defined.

Lemma returned_run_starts_each_rule_once_witness :
  NoDup [rule_A; rule_B; rule_C] ∧
  length (filter (rule_B =.) [rule_A; rule_B; rule_C]) = 1.
Proof.
  destruct (returned_run_starts_each_rule_once 5 5 rule_C script_all_ready
              (Returned tt) events_all_ready (MkScript [] []))
    as (Hnd & _ & Hall).
  - vm_compute. reflexivity.
  - split; [exact Hnd|].
    destruct (Hall eq_refl) as (ev_sub & t & urls & j & ev_purge & _ & _ & _ & _ & _ & _ & Honce).
    apply (Honce rule_B). right. left.
Defined.

Lemma sub_jobs_purged_when_returned_witness :
  purged events_all_ready = ["A@1"; "B@1"]%string.
Proof.
  destruct (sub_jobs_purged_when_returned 5 5 rule_C script_all_ready
              (Returned tt) events_all_ready (MkScript [] []))
    as (Hok & _).
  - vm_compute. reflexivity.
  - reflexivity.
Defined.

Lemma started_with_resolved_input_witness :
  resolved_input {[ "A" := ["a1"]; "B" := ["b1"] ]}%string rule_C = Some ["a1"; "b1"]%string.
Proof.
  apply (started_with_resolved_input 0 [rule_C]
           ({[ "A" := ["a1"]; "B" := ["b1"] ]}%string) (MkScript [] [])
           rule_C (["a1"; "b1"]%string) (Some "C@1"%string)).
  vm_compute. left.
Defined.

Lemma comm_error_is_retried_witness :
  poll_jobs 2 ["A@1"%string] ∅ false (MkScript [] []) =
  (Diverged,
   [EvResults ["A@1"%string] 5000 RaisesCommError;
    EvResults ["A@1"%string] 5000 RaisesCommError],
   MkScript [] []).
Proof.
  destruct (@comm_error_is_retried Script scripted_backend) as (Hstep & _).
  rewrite (Hstep 1 ["A@1"%string] ∅ false (MkScript [] [])).
  - reflexivity.
  - discriminate.
  - reflexivity.
Defined.

Lemma first_round_all_ready :
  ∃ st1,
    sub_rules_round 5 (initial_state [rule_A; rule_B; rule_C]) script_all_ready =
    (Returned st1, loop_events_all_ready, MkScript [] []) ∧
    ls_sub_rules st1 = [].
Proof. vm_compute. eexists. split; reflexivity. Defined.

Lemma sub_rules_loop_termination_witness :
  (run_sub_rules 2 5 (initial_state [rule_A; rule_B; rule_C]) script_all_ready).1.1
    ≠ Diverged ∧
  run_sub_rules 7 5 state_stuck script_all_ready = (Diverged, [], script_all_ready).
Proof.
  destruct (@sub_rules_loop_termination Script scripted_backend 5) as [Hends Hspins].
  split.
  - apply (Hends 2 (initial_state [rule_A; rule_B; rule_C]) script_all_ready).
    + vm_compute. lia.
    + destruct first_round_all_ready as (st1 & Hround & Hnil).
      intros st2 w2 ev2 Hrounds Hne.
      inversion Hrounds as [|? ? ? st1' ? ? ? ? _ Hround' Hrest]; subst.
      * split; [vm_compute; discriminate|]. rewrite Hround. discriminate.
      * rewrite Hround in Hround'. injection Hround' as <- _ <-.
        inversion Hrest as [|? ? ? ? ? ? ? ? Hne' _ _]; subst; congruence.
  - apply (Hspins state_stuck script_all_ready state_stuck [] script_all_ready).
    + discriminate.
    + vm_compute. reflexivity.
    + reflexivity.
Defined.

Lemma blackboard_written_once_witness :
  NoDup ["A"; "B"]%string.
Proof.
  destruct first_round_all_ready as (st1 & Hround & Hnil).
  destruct (blackboard_written_once 5 rule_C script_all_ready
              (loop_events_all_ready ++ []) st1 (MkScript [] []))
    as (_ & Hnd & _).
  - vm_compute. apply NoDup_cons. split.
    { intros Hin. apply elem_of_cons in Hin as [Hin|Hin]; [discriminate Hin|].
      apply list_elem_of_singleton in Hin. discriminate Hin. }
    apply NoDup_cons. split; [|apply NoDup_singleton].
    intros Hin. apply list_elem_of_singleton in Hin. discriminate Hin.
  - eapply rounds_more; [|exact Hround|apply rounds_none]. discriminate.
  - repeat (apply Forall_cons; split); try exact I; try reflexivity.
    + split; intros x Hx; exact Hx || inversion Hx.
    + apply Forall_nil_2.
  - exact Hnd.
Defined.

(** * More of the runner *)

(** ** Job names *)

Lemma get_rule_name_cons c s :
  _get_rule_name (String c s) =
  if Ascii.eqb c "@" then EmptyString else String c (_get_rule_name s).
Proof.
  unfold _get_rule_name. simpl. destruct (Ascii.eqb c "@"); [done|].
  assert (rsplit "@" s ≠ []) as Hne.
  { destruct s as [|c' s']; simpl; [done|].
    destruct (Ascii.eqb c' "@"); [done|]. by destruct (rsplit "@" s'). }
  by destruct (rsplit "@" s).
Qed.

(** X1: [_get_rule_name] cuts a job name at its first [@]: what it gives has
    no [@] in it and is the job name itself when that has none, and all
    that follows the first [@] of a name is lost, so that the name of a rule
    is recovered from [rule@stamp] when the rule name has no [@], and only
    its part before the first [@] otherwise. *)
Theorem get_rule_name_cuts_at_first_at :
  (∀ s, "@"%char ∉ chars (_get_rule_name s)) ∧
  (∀ s, "@"%char ∉ chars s → _get_rule_name s = s) ∧
  (∀ s stamp, _get_rule_name (s +:+ String "@" stamp) = _get_rule_name s) ∧
  (∀ s, ∃ rest, s = _get_rule_name s +:+ rest).
Proof.
  split_and!.
  - induction s as [|c s IH]; [by apply not_elem_of_nil|].
    rewrite get_rule_name_cons. destruct (Ascii.eqb c "@") eqn:E.
    + by apply not_elem_of_nil.
    + simpl. apply not_elem_of_cons. split; [|done].
      intros <-. by rewrite Ascii.eqb_refl in E.
  - induction s as [|c s IH]; [done|]. simpl. intros Hno.
    apply not_elem_of_cons in Hno as [Hc Hs]. rewrite get_rule_name_cons.
    destruct (Ascii.eqb c "@") eqn:E; [by apply Ascii.eqb_eq in E|].
    by rewrite IH.
  - induction s as [|c s IH]; intros stamp; [done|].
    change (String c s +:+ String "@" stamp) with (String c (s +:+ String "@" stamp)).
    rewrite !get_rule_name_cons. destruct (Ascii.eqb c "@"); [done|]. by rewrite IH.
  - induction s as [|c s [rest IH]]; [by exists EmptyString|].
    rewrite get_rule_name_cons. destruct (Ascii.eqb c "@").
    + by exists (String c s).
    + exists rest.
      change (String c (_get_rule_name s) +:+ rest)
        with (String c (_get_rule_name s +:+ rest)).
      by rewrite <- IH.
Qed.

Lemma get_rule_name_cuts_at_first_at_witness :
  _get_rule_name "rule_1" = "rule_1"%string ∧
  _get_rule_name "x@y@1" = "x"%string.
Proof.
  destruct get_rule_name_cuts_at_first_at as (_ & Hid & _).
  split; [|reflexivity]. apply Hid. vm_compute.
  intros Hin. repeat (apply elem_of_cons in Hin as [Hin|Hin]; [discriminate Hin|]).
  by apply not_elem_of_nil in Hin.
Defined.

Lemma start_events_quiet (runs : list Started) :
  started_rules (start_events runs) = runs.*1.*1 ∧
  started_jobs (start_events runs) = runs.*2 ∧
  killed (start_events runs) = [] ∧ waited (start_events runs) = [] ∧
  purged (start_events runs) = [] ∧ stored (start_events runs) = [].
Proof.
  induction runs as [|[[r u] j] runs (IH1 & IH2 & ? & ? & ? & ?)]; [done|].
  split_and!; try done.
  - change (r :: started_rules (start_events runs) = r :: runs.*1.*1). by rewrite IH1.
  - change (j :: started_jobs (start_events runs) = j :: runs.*2). by rewrite IH2.
Qed.

Section ShapeFacts.
Context {W : Type} `{Backend W}.

Lemma collect_urls_key_error subs bb acc (w : W) k ev w' :
  collect_urls subs bb acc w = (Raised (KeyError k), ev, w') →
  ∃ sub_rule, sub_rule ∈ subs ∧ name sub_rule = k ∧ bb !! k = None.
Proof.
  revert acc. induction subs as [|s subs IH]; intros acc; simpl; [done|].
  destruct (bb !! name s) as [entry|] eqn:E.
  - intros Hrun. destruct (IH _ Hrun) as (sub & ? & ? & ?).
    exists sub. split; [by right|done].
  - intros [= <- <- <-]. exists s. split; [left|done].
Qed.

(** The first loop of [_run_concurrent_rules]: it starts the rules in their
    order, and ends at the first whose input is not on the blackboard or
    whose job does not start. *)
Lemma start_rules_shape rl bb jobs ijs (w : W) o ev w' :
  start_rules rl bb jobs ijs w = (o, ev, w') →
  match o with
  | Returned (jobs', ijs') =>
      ∃ runs, ev = start_events runs ∧ runs.*1.*1 = rl ∧
        jobs' = jobs ++ runs.*2 ∧
        ijs' = ijs ++ ((λ r, MkInfernoJob r.1.1 r.1.2 (Some r.2)) <$> runs)
  | Raised (Exception msg) =>
      ∃ runs rule rest urls,
        rl = runs.*1.*1 ++ rule :: rest ∧
        msg = ("There is not enough blobs to run " +:+ name rule)%string ∧
        ev = start_events runs ++ [EvStart rule urls None]
  | Raised (KeyError k) =>
      ∃ runs rule rest sub_rule,
        rl = runs.*1.*1 ++ rule :: rest ∧
        sub_rule ∈ extract_subrules rule ∧ name sub_rule = k ∧ bb !! k = None ∧
        ev = start_events runs
  | _ => False
  end.
Proof.
  revert jobs ijs w ev. induction rl as [|rule rl IH]; intros jobs ijs w ev; simpl.
  - intros [= <- <- <-]. exists []. by rewrite !app_nil_r.
  - intros Hrun. apply bind_inv in Hrun
      as [(urls & ev1 & w1 & ev2 & Hc & Hrun & ->)|[(e & Hc & ->)|(Hc & ->)]].
    2:{ pose proof (collect_urls_resolved _ _ _ _ _ _ Hc) as (-> & -> & Hres).
        destruct e; try done.
        apply collect_urls_key_error in Hc as (sub & ? & ? & ?).
        by exists [], rule, rl, sub. }
    2:{ by apply collect_urls_resolved in Hc as (_ & _ & ?). }
    apply collect_urls_resolved in Hc as (-> & -> & _). simpl.
    rewrite (bind_returned _ _ _ _ _ _ (start_job_run rule urls w)) in Hrun.
    destruct (job_start rule urls w) as [[j|] w1] eqn:Hstart; simpl in Hrun.
    + destruct (start_rules rl bb (jobs ++ [j]) (ijs ++ [MkInfernoJob rule urls (Some j)]) w1)
        as [[o2 ev3] w2] eqn:Hrest.
      injection Hrun as <- <- <-. specialize (IH _ _ _ _ Hrest).
      destruct o2 as [[jobs' ijs']|[msg|k| |]|]; try done.
      * destruct IH as (runs & -> & <- & -> & ->). exists ((rule, urls, j) :: runs).
        rewrite <- !app_assoc. done.
      * destruct IH as (runs & r & rest & u & -> & -> & ->).
        by exists ((rule, urls, j) :: runs), r, rest, u.
      * destruct IH as (runs & r & rest & sub & -> & ? & ? & ? & ->).
        by exists ((rule, urls, j) :: runs), r, rest, sub.
    + injection Hrun as <- <- <-. by exists [], rule, rl, urls.
Qed.

End ShapeFacts.

Lemma record_inactive_stop inactive jr stop :
  (record_inactive inactive jr stop).2 = true ↔ stop = true ∨ reports_dead inactive.
Proof.
  revert jr stop. induction inactive as [|[j [status results]] inactive IH];
    intros jr stop; simpl.
  - split; [auto|]. intros [?|(? & ? & Hin)]; [done|inversion Hin].
  - assert (Hdead : reports_dead ((j, (status, results)) :: inactive) ↔
                    status = "dead"%string ∨ reports_dead inactive).
    { split.
      - intros (j' & r' & Hin). apply elem_of_cons in Hin as [[= <- <- <-]|Hin];
          [by left|right; by exists j', r'].
      - intros [->|(j' & r' & Hin)]; [exists j, results; left|exists j', r'; by right]. }
    rewrite Hdead. destruct (String.eqb status "ready") eqn:Hready.
    + apply String.eqb_eq in Hready as ->. rewrite IH. split; [tauto|].
      intros [?|[?|?]]; [tauto|done|tauto].
    + destruct (String.eqb status "dead") eqn:Hd.
      * apply String.eqb_eq in Hd as ->. rewrite IH. tauto.
      * apply String.eqb_neq in Hd. rewrite IH. tauto.
Qed.

Section BatchShape.
Context {W : Type} `{Backend W}.

(** The second loop of [_run_concurrent_rules]: it goes on until no job is
    active or an answer says that a job is dead, and that answer is its
    last. *)
Lemma poll_jobs_shape fuel jobs jr (w : W) o ev w' :
  poll_jobs fuel jobs jr false w = (o, ev, w') →
  only_results ev ∧
  match o with
  | Returned (jobs', jr', stop') =>
      if stop' then
        ∃ pre js inactive active,
          ev = pre ++ [EvResults js 5000 (Polled inactive active)] ∧
          jobs' = active.*1 ∧ reports_dead inactive ∧
          Forall (λ e, ¬ dead_poll e) pre
      else jobs' = [] ∧ Forall (λ e, ¬ dead_poll e) ev
  | Raised _ => False
  | Diverged => Forall (λ e, ¬ dead_poll e) ev
  end.
Proof.
  revert jobs jr w ev.
  induction fuel as [|fuel IH]; intros jobs jr w ev;
    (destruct jobs as [|j0 jobs0]; simpl;
     [intros [= <- <- <-]; split; [constructor|]; split; [done|constructor] |]).
  - intros [= <- <- <-]. split; constructor.
  - rewrite (bind_returned _ _ _ _ _ _ (call_results_run _ _ _)).
    set (jobs := j0 :: jobs0).
    destruct (server_results jobs 5000 w) as [[|inactive active] w1] eqn:Hres; simpl.
    + destruct (poll_jobs fuel jobs jr false w1) as [[o2 ev2] w2] eqn:Hrest.
      intros [= <- <- <-]. destruct (IH _ _ _ _ Hrest) as (Honly & Ho).
      split; [constructor; [by eexists _, _|done]|].
      destruct o2 as [[[jobs' jr'] [|]]| |]; try done.
      * destruct Ho as (pre & js & ina & act & -> & -> & Hdead & Hpre).
        exists (EvResults jobs 5000 RaisesCommError :: pre), js, ina, act.
        split_and!; try done. constructor; [|done]. by intros [].
      * destruct Ho as [-> Hno]. split; [done|]. constructor; [|done]. by intros [].
      * constructor; [|done]. by intros [].
    + pose proof (record_inactive_stop inactive jr false) as Hstop.
      destruct (record_inactive inactive jr false) as [jr1 stop1] eqn:Hrec.
      simpl in Hstop. destruct stop1.
      * intros [= <- <- <-]. split; [constructor; [by eexists _, _|constructor]|].
        exists [], jobs, inactive, active. split_and!; try done.
        destruct Hstop as [[?|?] _]; done.
      * assert (¬ reports_dead inactive) as Hno.
        { intros Hd. assert (false = true) as Habs by (apply Hstop; by right).
          discriminate Habs. }
        destruct (poll_jobs fuel (active.*1) jr1 false w1) as [[o2 ev2] w2] eqn:Hrest.
        intros [= <- <- <-]. destruct (IH _ _ _ _ Hrest) as (Honly & Ho).
        split; [constructor; [by eexists _, _|done]|].
        destruct o2 as [[[jobs' jr'] [|]]| |]; try done.
        -- destruct Ho as (pre & js & ina & act & -> & -> & Hdead & Hpre).
           exists (EvResults jobs 5000 (Polled inactive active) :: pre), js, ina, act.
           split_and!; try done. by constructor.
        -- destruct Ho as [-> Hnone]. split; [done|]. by constructor.
        -- by constructor.
Qed.

(** The ways [_run_concurrent_rules] ends, with the events of each. *)
Lemma batch_shape fuel rl bb (w : W) o ev w' :
  _run_concurrent_rules fuel rl bb w = (o, ev, w') →
  match o with
  | Returned (ijs, ret_) =>
      ∃ runs polls,
        ev = start_events runs ++ polls ∧ runs.*1.*1 = rl ∧ only_results polls ∧
        ijs = (λ r, MkInfernoJob r.1.1 r.1.2 (Some r.2)) <$> runs ∧
        (Forall (λ e, ¬ dead_poll e) polls ∨
         ∃ pre js inactive,
           polls = pre ++ [EvResults js 5000 (Polled inactive [])] ∧
           reports_dead inactive ∧ Forall (λ e, ¬ dead_poll e) pre)
  | Raised (Exception msg) =>
      (∃ runs rule rest urls,
         rl = runs.*1.*1 ++ rule :: rest ∧
         msg = ("There is not enough blobs to run " +:+ name rule)%string ∧
         ev = start_events runs ++ [EvStart rule urls None]) ∨
      (∃ runs pre js inactive j x active,
         msg = "One of the concurrent jobs failed."%string ∧ runs.*1.*1 = rl ∧
         ev = start_events runs ++ pre ++
                [EvResults js 5000 (Polled inactive ((j, x) :: active)); EvKill j] ∧
         only_results pre ∧ reports_dead inactive ∧
         Forall (λ e, ¬ dead_poll e) pre)
  | Raised (KeyError k) =>
      ∃ runs rule rest sub_rule,
        rl = runs.*1.*1 ++ rule :: rest ∧
        sub_rule ∈ extract_subrules rule ∧ name sub_rule = k ∧ bb !! k = None ∧
        ev = start_events runs
  | Raised _ => False
  | Diverged =>
      ∃ runs polls,
        ev = start_events runs ++ polls ∧ runs.*1.*1 = rl ∧ only_results polls ∧
        Forall (λ e, ¬ dead_poll e) polls
  end.
Proof.
  unfold _run_concurrent_rules. intros Hrun.
  apply bind_inv in Hrun
    as [([jobs ijs] & ev1 & w1 & ev2 & Hs & Hrun & ->)|[(e & Hs & ->)|(Hs & ->)]];
    apply start_rules_shape in Hs; try done.
  2:{ destruct e as [msg|k| |]; try done. by left. }
  destruct Hs as (runs & -> & Hrl & -> & ->). simpl in Hrun.
  apply bind_inv in Hrun
    as [([[jobs' jr'] stop'] & ev3 & w3 & ev4 & Hp & Hrun & ->)|[(e & Hp & ->)|(Hp & ->)]];
    apply poll_jobs_shape in Hp as (Honly & Ho); try done.
  2:{ by exists runs, ev2. }
  apply bind_inv in Hrun
    as [([] & ev5 & w5 & ev6 & Hkill & Hrun & ->)|[(e & Hkill & ->)|(Hkill & ->)]].
  - injection Hrun as <- <- <-. rewrite app_nil_r.
    destruct stop'.
    + rewrite kill_loop_run in Hkill.
      destruct Ho as (pre & js & inactive & active & -> & -> & Hdead & Hpre).
      destruct active as [|[j x] active]; [|done]. injection Hkill as <- <-.
      exists runs, (pre ++ [EvResults js 5000 (Polled inactive [])]).
      rewrite app_nil_r. split_and!; try done. right. by exists pre, js, inactive.
    + injection Hkill as <- <-. destruct Ho as [_ Hno].
      exists runs, ev3. rewrite app_nil_r. split_and!; try done. by left.
  - destruct stop'; [|done]. rewrite kill_loop_run in Hkill.
    destruct Ho as (pre & js & inactive & active & -> & -> & Hdead & Hpre).
    destruct active as [|[j x] active]; [done|]. injection Hkill as <- <- <-.
    right. exists runs, pre, js, inactive, j, x, active.
    split_and!; try done.
    + by rewrite <- !app_assoc.
    + by apply Forall_app in Honly as [? _].
  - destruct stop'; [|done]. rewrite kill_loop_run in Hkill.
    destruct Ho as (pre & js & inactive & active & -> & -> & Hdead & Hpre).
    by destruct active as [|[j x] active].
Qed.

End BatchShape.

Lemma start_events_no_dead_poll (runs : list Started) :
  Forall (λ e, ¬ dead_poll e) (start_events runs).
Proof. induction runs as [|[[r u] j] runs IH]; constructor; [by intros []|done]. Qed.

Lemma no_dead_poll_Exists (ev : list Event) :
  Forall (λ e, ¬ dead_poll e) ev → Exists dead_poll ev → False.
Proof.
  rewrite Forall_forall, Exists_exists. intros Hno (e & Hin & Hdead).
  by apply (Hno e).
Qed.

Section BatchTheorems.
Context {W : Type} `{Backend W}.

(** X2: when [_run_concurrent_rules] raises because the job of a rule does
    not start, it has started the rules before that one, each with a job,
    and then tried that one: the rules after it are not started, the server
    is not asked for results, and no job is killed, so that the jobs started
    before stay as they are. *)
Theorem start_failure_is_immediate fuel rl bb (w : W) n ev w' :
  _run_concurrent_rules fuel rl bb w =
    (Raised (Exception ("There is not enough blobs to run " +:+ n)), ev, w') →
  ∃ runs rule rest urls,
    rl = runs.*1.*1 ++ rule :: rest ∧ name rule = n ∧
    ev = start_events runs ++ [EvStart rule urls None] ∧
    started_jobs ev = runs.*2 ∧ killed ev = [].
Proof.
  intros Hrun. apply batch_shape in Hrun
    as [(runs & rule & rest & urls & -> & Hmsg & ->)|
        (runs & pre & js & ina & j & x & act & Hmsg & _)]; [|discriminate Hmsg].
  injection Hmsg as Hn. change (n = name rule) in Hn. subst n.
  exists runs, rule, rest, urls.
  destruct (start_events_quiet runs) as (_ & Hj & Hk & _).
  split_and!; try done; split_events; rewrite ?Hj, ?Hk; simpl; by rewrite ?app_nil_r.
Qed.

(** X3: an answer of [server.results] that says that a job is dead is the
    last one of its batch, and what follows depends on the jobs that the
    same answer has as active: with none, the batch returns, as a batch
    without a dead job does; with some, the first of them is killed, no
    other, and the batch raises.  And a batch raises with ["One of the
    concurrent jobs failed."] only after such an answer. *)
Theorem dead_report_ends_batch fuel rl bb (w : W) o ev w' :
  _run_concurrent_rules fuel rl bb w = (o, ev, w') →
  (Exists dead_poll ev →
   ∃ runs pre js inactive active,
     runs.*1.*1 = rl ∧ reports_dead inactive ∧ Forall (λ e, ¬ dead_poll e) pre ∧
     match active with
     | [] =>
         ev = start_events runs ++ pre ++ [EvResults js 5000 (Polled inactive [])] ∧
         is_returned o = true
     | (j, _) :: _ =>
         ev = start_events runs ++ pre ++
                [EvResults js 5000 (Polled inactive active); EvKill j] ∧
         killed ev = [j] ∧
         o = Raised (Exception "One of the concurrent jobs failed.")
     end) ∧
  (o = Raised (Exception "One of the concurrent jobs failed.") →
   Exists dead_poll ev).
Proof.
  intros Hrun. apply batch_shape in Hrun. split.
  - intros Hdead. destruct o as [[ijs ret_]|[msg|k| |]|]; try done.
    + destruct Hrun as (runs & polls & -> & Hrl & Honly & _ & [Hno|Hlast]).
      * exfalso. apply (no_dead_poll_Exists (start_events runs ++ polls)); [|done].
        apply Forall_app. split; [apply start_events_no_dead_poll|done].
      * destruct Hlast as (pre & js & inactive & -> & Hd & Hpre).
        by exists runs, pre, js, inactive, [].
    + destruct Hrun as [(runs & rule & rest & urls & -> & -> & ->)|
                        (runs & pre & js & ina & j & x & act & -> & Hrl & -> & Honly & Hd & Hpre)].
      * exfalso. apply (no_dead_poll_Exists (start_events runs ++ [EvStart rule urls None]));
          [|done].
        apply Forall_app. split; [apply start_events_no_dead_poll|].
        constructor; [by intros []|constructor].
      * exists runs, pre, js, ina, ((j, x) :: act). split_and!; try done.
        destruct (start_events_quiet runs) as (_ & _ & Hk & _).
        apply only_results_quiet in Honly as (_ & _ & Hk2 & _).
        split_events. by rewrite Hk, Hk2.
    + destruct Hrun as (runs & rule & rest & sub & -> & _ & _ & _ & ->).
      exfalso. by apply (no_dead_poll_Exists (start_events runs));
        [apply start_events_no_dead_poll|].
    + destruct Hrun as (runs & polls & -> & Hrl & Honly & Hno).
      exfalso. apply (no_dead_poll_Exists (start_events runs ++ polls)); [|done].
      apply Forall_app. split; [apply start_events_no_dead_poll|done].
  - intros ->.
    destruct Hrun as [(runs & rule & rest & urls & _ & Hmsg & _)|
                      (runs & pre & js & ina & j & x & act & _ & _ & -> & _ & Hd & _)];
      [discriminate Hmsg|].
    apply Exists_app. right. apply Exists_app. right. by left.
Qed.

End BatchTheorems.

Lemma entries_with_output subs (bb : Blackboard) entries :
  (∀ sub_rule, sub_rule ∈ subs →
     ∃ urls, bb !! name sub_rule = Some urls ∧ urls ≠ []) →
  mapM (λ s, bb !! name s) subs = Some entries →
  concat entries = [] ↔ subs = [].
Proof.
  intros Hall Hm. apply mapM_Some in Hm.
  destruct Hm as [|s entry subs entries Hs _]; [done|].
  destruct (Hall s) as (urls & Hl & Hne); [left|].
  assert (entry = urls) as -> by congruence.
  split; [|done]. simpl. intros Hnil. by apply app_eq_nil in Hnil as [? _].
Qed.

Section InputTheorems.
Context {W : Type} `{Backend W}.

(** X4: [_run_sequential_rules] runs its rules one after the other: each
    rule is started and waited for before the next is started, and the run
    ends at the first rule whose job does not start, or whose input is not
    on the blackboard, with the rules after it not started. *)
Theorem sequential_rules_run_in_order rl bb (w : W) o ev w' :
  _run_sequential_rules rl bb w = (o, ev, w') →
  match o with
  | Returned _ => ∃ runs, ev = run_events runs ∧ runs.*1.*1 = rl
  | Raised (Exception msg) =>
      ∃ runs rule rest urls,
        rl = runs.*1.*1 ++ rule :: rest ∧
        msg = ("There is not enough blobs to run " +:+ name rule)%string ∧
        ev = run_events runs ++ [EvStart rule urls None]
  | Raised (KeyError k) =>
      ∃ runs rule rest sub_rule,
        rl = runs.*1.*1 ++ rule :: rest ∧
        sub_rule ∈ extract_subrules rule ∧ name sub_rule = k ∧ bb !! k = None ∧
        ev = run_events runs
  | _ => False
  end.
Proof.
  revert w ev. induction rl as [|rule rl IH]; intros w ev; simpl.
  - intros [= <- <- <-]. by exists [].
  - intros Hrun. apply bind_inv in Hrun
      as [(urls & ev1 & w1 & ev2 & Hc & Hrun & ->)|[(e & Hc & ->)|(Hc & ->)]].
    2:{ pose proof (collect_urls_resolved _ _ _ _ _ _ Hc) as (-> & -> & Hres).
        destruct e; try done.
        apply collect_urls_key_error in Hc as (sub & ? & ? & ?).
        by exists [], rule, rl, sub. }
    2:{ by apply collect_urls_resolved in Hc as (_ & _ & ?). }
    apply collect_urls_resolved in Hc as (-> & -> & _). simpl.
    rewrite (bind_returned _ _ _ _ _ _ (start_job_run rule urls w)) in Hrun.
    destruct (job_start rule urls w) as [[j|] w1] eqn:Hstart; simpl in Hrun.
    + unfold bind at 1 in Hrun. simpl in Hrun.
      destruct (_run_sequential_rules rl bb (job_wait j w1)) as [[o2 ev3] w2] eqn:Hrest.
      injection Hrun as <- <- <-. specialize (IH _ _ Hrest).
      destruct o2 as [[]|[msg|k| |]|]; try done.
      * destruct IH as (runs & -> & <-). by exists ((rule, urls, j) :: runs).
      * destruct IH as (runs & r & rest & u & -> & -> & ->).
        by exists ((rule, urls, j) :: runs), r, rest, u.
      * destruct IH as (runs & r & rest & sub & -> & ? & ? & ? & ->).
        by exists ((rule, urls, j) :: runs), r, rest, sub.
    + injection Hrun as <- <- <-. by exists [], rule, rl, urls.
Qed.

(** X5: a batch of the rules that [_get_runable_rules] gives, run on the
    blackboard they are ready for, finds the input of every rule: it does
    not raise [KeyError], and the job of a rule is started with an empty
    list of urls only when the rule has no sub-rules. *)
Theorem runable_batch_finds_its_input fuel rules bb (w : W) o ev w' :
  _run_concurrent_rules fuel (_get_runable_rules rules bb) bb w = (o, ev, w') →
  (∀ k, o ≠ Raised (KeyError k)) ∧
  (∀ rule urls job, EvStart rule urls job ∈ ev →
     urls = [] ↔ extract_subrules rule = []).
Proof.
  intros Hrun. split.
  - intros k ->. apply batch_shape in Hrun
      as (runs & rule & rest & sub & Hrl & Hsub & <- & Hnone & _).
    assert (rule ∈ _get_runable_rules rules bb) as Hin.
    { rewrite Hrl. apply elem_of_app. right. left. }
    apply get_runable_elem in Hin as [_ Hall].
    destruct (Hall sub Hsub) as (urls & Hl & _). congruence.
  - intros rule urls job Hin.
    apply run_concurrent_inv in Hrun as (_ & _ & _ & _ & Hres & _).
    destruct (Hres _ _ _ Hin) as [Hr Hinput].
    apply get_runable_elem in Hr as [_ Hall]. unfold resolved_input in Hinput.
    destruct (mapM (λ s, bb !! name s) (extract_subrules rule)) as [entries|] eqn:Hm;
      [|done].
    injection Hinput as <-. by eapply entries_with_output.
Qed.

End InputTheorems.

(** ** The rules of a graph *)

Lemma InfernoRule_nested_ind (P : InfernoRule → Prop) :
  (∀ n subs, Forall P subs → P (Rule n subs)) → ∀ rule, P rule.
Proof.
  intros Hstep. fix IH 1. intros [n subs]. apply Hstep.
  induction subs as [|s subs IHsubs]; constructor; [apply IH|exact IHsubs].
Qed.

Lemma flatten_rules_sub_rules root :
  ∀ rule sub_rule,
    rule ∈ flatten_rules root → sub_rule ∈ extract_subrules rule →
    sub_rule ∈ flatten_rules root.
Proof.
  induction root as [n subs IH] using InfernoRule_nested_ind.
  intros rule sub Hrule Hsub. simpl in Hrule |- *.
  apply elem_of_app in Hrule as [Hrule|Hrule]; apply elem_of_app; left;
    apply list_elem_of_In, in_flat_map.
  - apply list_elem_of_In, in_flat_map in Hrule as (s & Hs & Hrule).
    exists s. split; [done|]. apply list_elem_of_In.
    apply list_elem_of_In in Hs, Hrule. rewrite Forall_forall in IH.
    exact (IH s Hs rule sub Hrule Hsub).
  - apply list_elem_of_singleton in Hrule as ->. simpl in Hsub.
    exists sub. split; [by apply list_elem_of_In|].
    apply list_elem_of_In, flatten_rules_self.
Qed.

Lemma apply_stores_is_Some items (bb : Blackboard) k :
  is_Some (bb !! k) → is_Some (apply_stores items bb !! k).
Proof.
  revert bb. induction items as [|[k' v'] items IH]; intros bb Hk; [done|].
  change (apply_stores ((k', v') :: items) bb)
    with (apply_stores items (<[k' := v']> bb)).
  apply IH. rewrite lookup_insert. by destruct (decide (k' = k)).
Qed.

Section LoopTheorems.
Context {W : Type} `{Backend W}.

(** X6: the results of a batch come to the blackboard only when the whole
    batch has returned: a round of the loop of [execute_rule] whose batch
    raises, or does not come to an end, assigns nothing, whatever its jobs
    were reported to be; and a round that returns assigns to each key at
    most once, after all its calls to the server. *)
Theorem failed_batch_writes_nothing pf st (w : W) o ev w' :
  sub_rules_round pf st w = (o, ev, w') →
  (is_returned o = false → stored ev = []) ∧
  (is_returned o = true →
     NoDup (stored ev).*1 ∧
     ∃ ev_run, ev = ev_run ++ ((λ item, EvStore item.1 item.2) <$> stored ev) ∧
               stored ev_run = []).
Proof.
  intros Hround. apply round_inv in Hround as (_ & _ & _ & _ & _ & _ & Ho).
  destruct o as [st'| |]; simpl; split; try done.
  intros _. destruct Ho as (_ & _ & _ & _ & _ & Hnd & _ & ev_run & Hev & Hnil & _).
  split; [done|]. by exists ev_run.
Qed.

(** X7: when a round of the loop of [execute_rule] returns without having
    assigned anything to the blackboard, and sub-rules are left, then the
    loop goes on for ever: the rules that are left were not ready, the
    blackboard is as it was, and so every round from then on starts no job,
    asks the server nothing and leaves the state as it is. *)
Theorem round_without_results_stalls pf st (w : W) st' ev w' :
  sub_rules_round pf st w = (Returned st', ev, w') →
  stored ev = [] → ls_sub_rules st' ≠ [] →
  _get_runable_rules (ls_sub_rules st') (ls_blackboard st') = [] ∧
  ∀ fuel, run_sub_rules fuel pf st' w' = (Diverged, [], w').
Proof.
  intros Hround Hnone Hleft.
  apply round_inv in Hround as (_ & _ & _ & _ & _ & _ & Ho). simpl in Ho.
  destruct Ho as (_ & _ & Hsubs & _ & Hbb & _).
  rewrite Hnone in Hbb. simpl in Hbb.
  assert (_get_runable_rules (ls_sub_rules st') (ls_blackboard st') = []) as Hidle.
  { rewrite Hbb, Hsubs, !get_runable_filter. rewrite <- get_runable_filter.
    rewrite filter_not_in_filter, get_runable_filter.
    destruct (filter _ (filter _ _)) as [|r rs] eqn:E; [done|].
    assert (r ∈ r :: rs) as Hin by left. rewrite <- E in Hin.
    apply list_elem_of_filter in Hin as [Hready Hin].
    apply list_elem_of_filter in Hin as [Hnot _]. done. }
  split; [done|]. intros fuel. by apply spinning_loop.
Qed.

End LoopTheorems.

Section RunTheorems.
Context {W : Type} `{Backend W}.

(** X8: a rule without sub-rules is run on its own: [execute_rule] starts
    its job with no input urls and waits for it, or raises at once when the
    job does not start; it does not ask the server for results, and it
    kills and purges nothing. *)
Theorem single_rule_is_run_alone fuel pf n (w : W) :
  execute_rule fuel pf (Rule n []) w =
  match job_start (Rule n []) [] w with
  | (Some j, w1) =>
      (Returned tt, [EvStart (Rule n []) [] (Some j); EvWait j], job_wait j w1)
  | (None, w1) =>
      (Raised (Exception ("There is not enough blobs to run " +:+ n)),
       [EvStart (Rule n []) [] None], w1)
  end.
Proof.
  assert (deduplicate_rules (flatten_rules (Rule n [])) = [Rule n []]) as Hall
    by reflexivity.
  unfold execute_rule. rewrite Hall.
  assert (run_sub_rules fuel pf (initial_state [Rule n []]) w =
          (Returned (initial_state [Rule n []]), [], w)) as Hloop by (by destruct fuel).
  rewrite (bind_returned _ _ _ _ _ _ Hloop).
  change (last_slice [Rule n []]) with [Rule n []].
  cbv [bind _start_job call_start call_wait ret raise _run_sequential_rules
       collect_urls for_each extract_subrules sub_rules name ls_blackboard
       ls_inferno_jobs initial_state].
  destruct (job_start (Rule n []) [] w) as [[j|] w1]; reflexivity.
Qed.

(** X9: the top-level rule is started only when the loop is through: in a
    run in which the last rule of the list is started, whatever comes of
    it, every other rule was started before it, once and with a job, in
    batches that returned; so that after a batch that raises the top-level
    rule is not started. *)
Theorem parent_starts_after_all_sub_rules fuel pf rule_ (w : W) o ev w' t :
  execute_rule fuel pf rule_ w = (o, ev, w') →
  let all_rules := deduplicate_rules (flatten_rules rule_) in
  last all_rules = Some t → t ∈ started_rules ev →
  ∃ ev_sub ev_parent st w1,
    ev = ev_sub ++ ev_parent ∧
    rounds pf (initial_state all_rules) w ev_sub st w1 ∧ ls_sub_rules st = [] ∧
    started_rules ev_sub ≡ₚ init_slice all_rules ∧
    length (started_jobs ev_sub) = length (started_rules ev_sub) ∧
    started_rules ev_parent = [t].
Proof.
  intros Hrun all_rules Hlast Hin.
  destruct (all_rules_slices rule_) as (Hnd & t' & Hlast' & Hslice & Hall).
  fold all_rules in Hnd, Hlast', Hslice, Hall. assert (t' = t) as -> by congruence.
  assert (t ∉ init_slice all_rules) as Hnot.
  { rewrite <- Hall in Hnd. apply NoDup_app in Hnd as (_ & Hdisj & _).
    intros Ht. apply (Hdisj t Ht). left. }
  apply execute_rule_inv in Hrun
    as (st1 & w1 & ev1 & ev2 & Hrounds & -> & Hcases).
  pose proof (rounds_inv _ _ _ _ _ _ Hrounds) as (_ & _ & _ & Hperm & Hlen & _).
  change (ls_sub_rules (initial_state (deduplicate_rules (flatten_rules rule_))))
    with (init_slice all_rules) in Hperm.
  rewrite started_rules_app in Hin.
  assert (t ∉ started_rules ev1) as Hnot1.
  { intros Ht. apply Hnot. rewrite <- Hperm. apply elem_of_app. by left. }
  apply elem_of_app in Hin as [Hin|Hin]; [done|].
  destruct Hcases as [(-> & Hnil & t' & urls & j & Hlast'' & _ & ->)|
                      [(_ & _ & _ & Hpre & _)|(_ & _ & _ & Hnil & Hpre & _)]].
  - fold all_rules in Hlast''. assert (t' = t) as -> by congruence.
    exists ev1, ([EvStart t urls (Some j); EvWait j] ++ (EvPurge <$> started_jobs ev1)),
      st1, w1.
    rewrite Hnil, app_nil_r in Hperm. split_and!; try done.
    rewrite started_rules_app. by destruct (purges_quiet (started_jobs ev1)) as (-> & _).
  - exfalso. apply Hnot. rewrite <- Hperm. apply elem_of_app. right.
    apply prefix_sublist in Hpre. apply (elem_of_sublist _ _ _ Hin) in Hpre.
    by apply get_runable_elem in Hpre as [? _].
  - exists ev1, ev2, st1, w1. rewrite Hnil, app_nil_r in Hperm.
    split_and!; try done. fold all_rules in Hpre. rewrite Hslice in Hpre.
    destruct Hpre as [k Hk]. destruct (started_rules ev2) as [|x xs]; [inversion Hin|].
    injection Hk as -> Hk. by destruct xs.
Qed.

(** A round of the loop raises what its batch raises: one of the two
    exceptions of [_run_concurrent_rules]. *)
Lemma round_exceptions pf st (w : W) e ev w' :
  sub_rules_round pf st w = (Raised e, ev, w') →
  e = Exception "One of the concurrent jobs failed." ∨
  ∃ rule, rule ∈ ls_sub_rules st ∧
          e = Exception ("There is not enough blobs to run " +:+ name rule).
Proof.
  intros Hround. unfold sub_rules_round in Hround. cbv zeta in Hround.
  apply bind_inv in Hround
    as [([ijs ret_] & ev1 & w1 & ev2 & Hc & Hround & ->)|[(e' & Hc & [= <-])|(Hc & [=])]].
  { rewrite (bind_returned _ _ _ _ _ _ (store_items_run _ _ _)) in Hround.
    discriminate Hround. }
  pose proof (runable_batch_finds_its_input _ _ _ _ _ _ _ Hc) as [Hkey _].
  apply batch_shape in Hc. destruct e as [msg|k| |]; try done.
  - destruct Hc as [(runs & rule & rest & urls & Hrl & -> & _)|
                    (runs & pre & js & ina & j & x & act & -> & _)]; [|by left].
    right. exists rule. split; [|done].
    assert (rule ∈ _get_runable_rules (ls_sub_rules st) (ls_blackboard st)) as Hin.
    { rewrite Hrl. apply elem_of_app. right. left. }
    by apply get_runable_elem in Hin as [? _].
  - by destruct (Hkey k).
Qed.

(** X10: [execute_rule] raises two exceptions and no other: that one of the
    concurrent jobs failed, and that there is not enough to run a rule,
    which is then a rule of the graph.  The blackboard has an entry for
    every rule of the graph at all times, so that no look-up of the input of
    a rule raises [KeyError]; and the jobs that are purged have all been
    started. *)
Theorem execute_rule_exceptions fuel pf rule_ (w : W) e ev w' :
  execute_rule fuel pf rule_ w = (Raised e, ev, w') →
  e = Exception "One of the concurrent jobs failed." ∨
  ∃ rule, rule ∈ flatten_rules rule_ ∧
          e = Exception ("There is not enough blobs to run " +:+ name rule).
Proof.
  intros Hrun. unfold execute_rule in Hrun. cbv zeta in Hrun.
  destruct (all_rules_slices rule_) as (Hnd & t & Hlast & Hslice & Hall).
  set (all_rules := deduplicate_rules (flatten_rules rule_)) in *.
  assert (Hgraph : ∀ rule, rule ∈ all_rules → rule ∈ flatten_rules rule_)
    by (intros rule; apply deduplicate_rules_elem).
  apply bind_inv in Hrun
    as [(st & ev1 & w1 & ev2 & Hloop & Hrun & ->)|[(e' & Hloop & [= <-])|(Hloop & [=])]];
    apply run_sub_rules_rounds in Hloop as (st1 & w1' & eva & evb & Hrounds & -> & Ho);
    pose proof (rounds_inv _ _ _ _ _ _ Hrounds) as (_ & _ & _ & Hperm & _ & Hij & Hbb);
    change (ls_sub_rules (initial_state all_rules)) with (init_slice all_rules) in Hperm;
    change (ls_blackboard (initial_state all_rules)) with (init_blackboard all_rules) in Hbb.
  - destruct Ho as (-> & -> & -> & Hnil).
    apply bind_inv in Hrun
      as [([] & ev3 & w3 & ev4 & Hseq & Hrun & ->)|[(e' & Hseq & [= <-])|(Hseq & [=])]].
    + destruct Hij as (new & Hij & Hnew). simpl in Hij. rewrite Hij in Hrun.
      destruct (purge_loop_run new (started_jobs eva) w3 Hnew) as (w4 & Hpurge).
      rewrite Hpurge in Hrun. discriminate Hrun.
    + rewrite Hslice in Hseq. apply sequential_rules_run_in_order in Hseq.
      assert (t ∈ all_rules) as Ht by (rewrite <- Hall; apply elem_of_app; right; left).
      destruct e as [msg|k| |]; try done.
      * destruct Hseq as (runs & rule & rest & urls & Hrl & -> & _).
        right. exists rule. split; [|done]. apply Hgraph.
        assert (rule ∈ [t]) as Hin by (rewrite Hrl; apply elem_of_app; right; left).
        by apply list_elem_of_singleton in Hin as ->.
      * destruct Hseq as (runs & rule & rest & sub & Hrl & Hsub & <- & Hnone & _).
        assert (rule ∈ [t]) as Hin by (rewrite Hrl; apply elem_of_app; right; left).
        apply list_elem_of_singleton in Hin as ->.
        assert (sub ∈ all_rules) as Hs.
        { apply deduplicate_rules_elem.
          eapply flatten_rules_sub_rules; [by apply Hgraph|done]. }
        assert (is_Some (ls_blackboard st1 !! name sub)) as [entry Hentry].
        { rewrite Hbb. apply apply_stores_is_Some.
          rewrite init_blackboard_lookup by done. by eexists. }
        congruence.
  - destruct Ho as (Hne & Hround).
    apply round_exceptions in Hround as [->|(rule & Hin & ->)]; [by left|].
    right. exists rule. split; [|done]. apply Hgraph.
    rewrite <- Hall. apply elem_of_app. left. rewrite <- Hperm.
    apply elem_of_app. by right.
Qed.

End RunTheorems.

(** ** The readiness check and lists *)

(** X11: [_get_runable_rules] works rule by rule: the ready rules of a
    list in two parts are those of the parts, checking the result again
    changes nothing, and a rule that is ready stays ready on a blackboard
    that has kept the entries that are not empty. *)
Theorem get_runable_rules_composes (bb : Blackboard) :
  (∀ l1 l2, _get_runable_rules (l1 ++ l2) bb =
            _get_runable_rules l1 bb ++ _get_runable_rules l2 bb) ∧
  (∀ l, _get_runable_rules (_get_runable_rules l bb) bb = _get_runable_rules l bb) ∧
  (∀ (bb' : Blackboard) l,
     (∀ k v, bb !! k = Some v → v ≠ [] → ∃ v', bb' !! k = Some v' ∧ v' ≠ []) →
     _get_runable_rules l bb `sublist_of` _get_runable_rules l bb').
Proof.
  split_and!.
  - intros l1 l2. by rewrite !get_runable_filter, filter_app.
  - intros l. rewrite !get_runable_filter, list_filter_filter.
    apply list_filter_iff. tauto.
  - intros bb' l Hkept. rewrite !get_runable_filter.
    induction l as [|r l IH]; [done|]. rewrite !filter_cons.
    destruct (decide (subrules_ready (extract_subrules r) bb = true)) as [Hr|Hr].
    + rewrite decide_True; [by apply sublist_skip|].
      apply subrules_ready_iff. apply subrules_ready_iff in Hr.
      intros sub Hsub. destruct (Hr sub Hsub) as (v & Hv & Hne). by eapply Hkept.
    + destruct (decide (subrules_ready (extract_subrules r) bb' = true));
        [by apply sublist_cons|done].
Qed.

Lemma get_runable_rules_composes_witness :
  _get_runable_rules [rule_A; rule_C] {[ "A" := ["a1"] ]}%string `sublist_of`
  _get_runable_rules [rule_A; rule_C] {[ "A" := ["a1"]; "B" := ["b1"] ]}%string.
Proof.
  destruct (get_runable_rules_composes ({[ "A" := ["a1"] ]}%string)) as (_ & _ & Hmono).
  apply Hmono. intros k v Hk Hv.
  apply lookup_singleton_Some in Hk as [<- <-].
  exists ["a1"%string]. split; [reflexivity|discriminate].
Defined.

Section PollChain.
Context {W : Type} `{Backend W}.

Lemma poll_jobs_chain fuel jobs jr stop (w : W) o ev w' :
  poll_jobs fuel jobs jr stop w = (o, ev, w') → poll_chain jobs ev.
Proof.
  revert jobs jr stop w ev.
  induction fuel as [|fuel IH]; intros jobs jr stop w ev;
    (destruct jobs as [|j0 jobs0]; simpl; [by intros [= <- <- <-] |]).
  - by intros [= <- <- <-].
  - rewrite (bind_returned _ _ _ _ _ _ (call_results_run _ _ _)).
    set (jobs := j0 :: jobs0).
    destruct (server_results jobs 5000 w) as [[|inactive active] w1] eqn:Hres;
      simpl.
    + destruct (poll_jobs fuel jobs jr stop w1) as [[o2 ev2] w2] eqn:Hrest.
      intros [= <- <- <-]. simpl. split_and!; try done. by eapply IH.
    + destruct (record_inactive inactive jr stop) as [jr1 stop1].
      destruct stop1.
      * intros [= <- <- <-]. simpl. done.
      * destruct (poll_jobs fuel (active.*1) jr1 false w1) as [[o2 ev2] w2] eqn:Hrest.
        intros [= <- <- <-]. simpl. split_and!; try done. by eapply IH.
Qed.

(** X12: the first thing [_run_concurrent_rules] returns is the list of the
    jobs it has started, one for each rule of the batch and in the order of
    the rules; each has the job that the start gave, and the input that the
    blackboard has for its rule. *)
Theorem batch_returns_a_job_per_rule fuel rl bb (w : W) ijs ret_ ev w' :
  _run_concurrent_rules fuel rl bb w = (Returned (ijs, ret_), ev, w') →
  ij_rule <$> ijs = rl ∧
  ij_job <$> ijs = Some <$> started_jobs ev ∧
  Forall (λ ij, EvStart (ij_rule ij) (ij_urls ij) (ij_job ij) ∈ ev ∧
                resolved_input bb (ij_rule ij) = Some (ij_urls ij)) ijs.
Proof.
  intros Hrun.
  pose proof (run_concurrent_inv _ _ _ _ _ _ _ Hrun)
    as (_ & _ & _ & _ & Hres & _ & _ & _ & _ & Hjobs & _).
  apply batch_shape in Hrun as (runs & polls & -> & <- & _ & -> & _).
  split_and!; try done.
  - rewrite <- list_fmap_compose. by rewrite <- list_fmap_compose.
  - apply Forall_forall. intros ij Hij.
    apply list_elem_of_fmap in Hij as ([[r u] j] & -> & Hin). simpl.
    assert (EvStart r u (Some j) ∈ start_events runs ++ polls) as Hev.
    { apply elem_of_app. left. unfold start_events.
      apply list_elem_of_fmap. by exists (r, u, j). }
    split; [done|]. by apply (Hres r u (Some j)).
Qed.

(** X13: the calls of [server.results] in a batch follow the active jobs:
    the first call is for all the jobs of the batch, in the order they were
    started, and each later call is for the jobs that the answer before it
    had as active (for the same jobs, when that call raised [CommError]);
    no call is made for an empty list, and the wait is 5000 in each.  The
    events of a batch are its starts, then these calls, then at most one
    kill. *)
Theorem polls_follow_the_active_jobs fuel rl bb (w : W) o ev w' :
  _run_concurrent_rules fuel rl bb w = (o, ev, w') →
  ∃ starts polls kills,
    ev = starts ++ polls ++ kills ∧
    Forall (start_of rl bb) starts ∧
    poll_chain (started_jobs starts) polls ∧
    (kills = [] ∨ ∃ j, kills = [EvKill j]).
Proof.
  unfold _run_concurrent_rules. intros Hrun.
  apply bind_inv in Hrun
    as [([jobs ijs] & ev1 & w1 & ev2 & Hs & Hrun & ->)|[(e & Hs & ->)|(Hs & ->)]];
    apply start_rules_inv in Hs as (_ & Hall & Ho).
  2,3: exists ev, [], []; rewrite !app_nil_r; split_and!; try done; by left.
  destruct Ho as (_ & -> & _). simpl in Hrun.
  apply bind_inv in Hrun
    as [([[jobs' jr'] stop'] & ev3 & w3 & ev4 & Hp & Hrun & ->)|[(e & Hp & ->)|(Hp & ->)]];
    apply poll_jobs_chain in Hp.
  2,3: exists ev1, ev2, []; rewrite !app_nil_r; split_and!; try done; by left.
  exists ev1, ev3, ev4. split_and!; try done.
  apply bind_inv in Hrun
    as [([] & ev5 & w5 & ev6 & Hkill & Hrun & ->)|[(e & Hkill & ->)|(Hkill & ->)]].
  - injection Hrun as <- <- <-. rewrite app_nil_r.
    destruct stop'; [|injection Hkill as <- <-; by left].
    rewrite kill_loop_run in Hkill. destruct jobs'; [|done].
    injection Hkill as <- <-. by left.
  - destruct stop'; [|done]. rewrite kill_loop_run in Hkill.
    destruct jobs' as [|j jobs']; [done|]. injection Hkill as <- <- <-.
    right. by exists j.
  - destruct stop'; [|done]. rewrite kill_loop_run in Hkill. by destruct jobs'.
Qed.

End PollChain.

(** * The further theorems at work on the scenarios *)

Lemma start_failure_is_immediate_witness :
  ∃ runs rule rest urls,
    [rule_A; rule_B] = runs.*1.*1 ++ rule :: rest ∧ name rule = "B"%string ∧
    [EvStart rule_A [] (Some "A@1"%string); EvStart rule_B [] None] =
      start_events runs ++ [EvStart rule urls None] ∧
    started_jobs [EvStart rule_A [] (Some "A@1"%string); EvStart rule_B [] None] =
      runs.*2 ∧
    killed [EvStart rule_A [] (Some "A@1"%string); EvStart rule_B [] None] = [].
Proof.
  apply (start_failure_is_immediate 5 [rule_A; rule_B] ∅ script_B_refused "B"
           _ script_B_refused).
  vm_compute. reflexivity.
Defined.

Lemma dead_report_ends_batch_witness :
  killed events_B_dead_others_active = ["A@1"%string].
Proof.
  destruct (dead_report_ends_batch 5 [rule_A; rule_B; rule_D] ∅
              script_B_dead_others_active
              (Raised (Exception "One of the concurrent jobs failed."))
              events_B_dead_others_active (MkScript [] []))
    as [Hdead _].
  - vm_compute. reflexivity.
  - destruct Hdead as (runs & pre & js & inactive & active & _ & _ & _ & Hend).
    + do 3 apply Exists_cons_tl. apply Exists_cons_hd.
      exists "B@1"%string, []. left.
    + reflexivity.
Defined.

Lemma sequential_rules_run_in_order_witness :
  ∃ runs : list Started,
    [EvStart rule_A [] (Some "A@1"); EvWait "A@1";
     EvStart rule_B [] (Some "B@1"); EvWait "B@1"]%string = run_events runs ∧
    runs.*1.*1 = [rule_A; rule_B].
Proof.
  apply (sequential_rules_run_in_order [rule_A; rule_B] ∅ (MkScript [] [])
           (Returned tt) _ (MkScript [] [])).
  vm_compute. reflexivity.
Defined.

Lemma runable_batch_finds_its_input_witness :
  (["a1"; "b1"]%string = [] ↔ extract_subrules rule_C = []) ∧
  (Diverged : Outcome (list InfernoJob * Blackboard)) ≠ Raised (KeyError "A").
Proof.
  destruct (runable_batch_finds_its_input 0 [rule_A; rule_C]
              ({[ "A" := ["a1"]; "B" := ["b1"] ]}%string) (MkScript [] [])
              Diverged
              [EvStart rule_A [] (Some "A@1"%string);
               EvStart rule_C ["a1"; "b1"]%string (Some "C@1"%string)]
              (MkScript [] []))
    as [Hkey Hinput].
  - vm_compute. reflexivity.
  - split; [|apply Hkey].
    apply (Hinput rule_C ["a1"; "b1"]%string (Some "C@1"%string)).
    right. left.
Defined.

Lemma failed_batch_writes_nothing_witness :
  stored events_ready_then_dead = [].
Proof.
  destruct (failed_batch_writes_nothing 5
              (initial_state [rule_A; rule_B; rule_D; rule_C])
              script_ready_then_dead
              (Raised (Exception "One of the concurrent jobs failed."))
              events_ready_then_dead (MkScript [] []))
    as [Hnone _].
  - vm_compute. reflexivity.
  - apply Hnone. reflexivity.
Defined.

Lemma round_without_results_stalls_witness :
  run_sub_rules 9 5 state_chain_after (MkScript [] []) =
  (Diverged, [], MkScript [] []).
Proof.
  destruct (round_without_results_stalls 5 state_chain script_A_dead
              state_chain_after
              [EvStart rule_A [] (Some "A@1"%string);
               EvResults ["A@1"%string] 5000
                 (Polled [("A@1", ("dead", []))]%string [])]
              (MkScript [] []))
    as [_ Hstall].
  - vm_compute. reflexivity.
  - reflexivity.
  - discriminate.
  - apply Hstall.
Defined.

Lemma parent_starts_after_all_sub_rules_witness :
  ∃ ev_sub ev_parent,
    events_all_ready = ev_sub ++ ev_parent ∧ started_rules ev_parent = [rule_C].
Proof.
  destruct (parent_starts_after_all_sub_rules 5 5 rule_C script_all_ready
              (Returned tt) events_all_ready (MkScript [] []) rule_C)
    as (ev_sub & ev_parent & st & w1 & Hev & _ & _ & _ & _ & Hparent).
  - vm_compute. reflexivity.
  - reflexivity.
  - vm_compute. do 2 right. left.
  - by exists ev_sub, ev_parent.
Defined.

Lemma execute_rule_exceptions_witness :
  Exception "There is not enough blobs to run B" =
    Exception "One of the concurrent jobs failed." ∨
  ∃ rule, rule ∈ flatten_rules rule_C ∧
    Exception "There is not enough blobs to run B" =
    Exception ("There is not enough blobs to run " +:+ name rule).
Proof.
  apply (execute_rule_exceptions 5 5 rule_C script_B_refused _
           [EvStart rule_A [] (Some "A@1"%string); EvStart rule_B [] None]
           script_B_refused).
  vm_compute. reflexivity.
Defined.

Lemma batch_returns_a_job_per_rule_witness :
  ij_rule <$> [MkInfernoJob rule_A [] (Some "A@1"%string);
               MkInfernoJob rule_B [] (Some "B@1"%string)] = [rule_A; rule_B].
Proof.
  destruct (batch_returns_a_job_per_rule 5 [rule_A; rule_B] ∅ script_all_ready
              [MkInfernoJob rule_A [] (Some "A@1"%string);
               MkInfernoJob rule_B [] (Some "B@1"%string)]
              ({[ "A" := ["a1"]; "B" := ["b1"] ]}%string)
              events_batch_all_ready (MkScript [] []))
    as (Hrules & _).
  - vm_compute. reflexivity.
  - exact Hrules.
Defined.

Lemma polls_follow_the_active_jobs_witness :
  ∃ starts polls kills,
    events_ready_then_dead = starts ++ polls ++ kills ∧
    Forall (start_of [rule_A; rule_B; rule_D] ∅) starts ∧
    poll_chain (started_jobs starts) polls ∧
    (kills = [] ∨ ∃ j, kills = [EvKill j]).
Proof.
  apply (polls_follow_the_active_jobs 5 [rule_A; rule_B; rule_D] ∅
           script_ready_then_dead
           (Raised (Exception "One of the concurrent jobs failed."))
           events_ready_then_dead (MkScript [] [])).
  vm_compute. reflexivity.
Defined.

(** * Runs that come to an end *)

(** ** The size of rules *)

Lemma rule_size_sub_rule rule sub_rule :
  sub_rule ∈ extract_subrules rule → rule_size sub_rule < rule_size rule.
Proof.
  destruct rule as [n subs]. simpl. intros Hin.
  induction subs as [|s subs IH]; [inversion Hin|].
  rewrite fmap_cons. simpl. apply elem_of_cons in Hin as [->|Hin]; [lia|].
  specialize (IH Hin). lia.
Qed.

Lemma rule_size_flatten root rule :
  rule ∈ flatten_rules root → rule_size rule ≤ rule_size root.
Proof.
  revert rule. induction root as [n subs IH] using InfernoRule_nested_ind.
  intros rule Hin. simpl in Hin. apply elem_of_app in Hin as [Hin|Hin].
  - apply list_elem_of_In, in_flat_map in Hin as (s & Hs & Hin).
    apply list_elem_of_In in Hs, Hin. rewrite Forall_forall in IH.
    pose proof (IH s Hs rule Hin) as Hle.
    pose proof (rule_size_sub_rule (Rule n subs) s Hs) as Hlt. lia.
  - by apply list_elem_of_singleton in Hin as ->.
Qed.

Lemma root_not_below root :
  root ∉ flat_map flatten_rules (extract_subrules root).
Proof.
  intros Hin. apply list_elem_of_In, in_flat_map in Hin as (s & Hs & Hin).
  apply list_elem_of_In in Hs, Hin.
  pose proof (rule_size_flatten _ _ Hin). pose proof (rule_size_sub_rule _ _ Hs). lia.
Qed.

Lemma deduplicate_from_snoc seen rules rule :
  rule ∉ rules → rule ∉ seen →
  deduplicate_from seen (rules ++ [rule]) = deduplicate_from seen rules ++ [rule].
Proof.
  revert seen. induction rules as [|r rules IH]; intros seen Hr Hseen; simpl.
  - by rewrite decide_False.
  - apply not_elem_of_cons in Hr as [Hne Hr].
    destruct (decide (r ∈ seen)); [by apply IH|].
    simpl. f_equal. apply IH; [done|]. apply not_elem_of_cons. split; done.
Qed.

(** The last rule of the list of all rules is the top-level rule. *)
Lemma last_rule_is_root root :
  last (deduplicate_rules (flatten_rules root)) = Some root.
Proof.
  unfold deduplicate_rules. destruct root as [n subs] eqn:E. simpl.
  rewrite deduplicate_from_snoc.
  - apply last_snoc.
  - rewrite <- E. change subs with (extract_subrules (Rule n subs)).
    rewrite <- E. apply root_not_below.
  - intros Hin. inversion Hin.
Qed.

Lemma smallest_rule (rules : list InfernoRule) :
  rules ≠ [] → ∃ rule, rule ∈ rules ∧ ∀ r, r ∈ rules → rule_size rule ≤ rule_size r.
Proof.
  induction rules as [|x rules IH]; [done|]. intros _.
  destruct rules as [|y rules].
  - exists x. split; [left|]. intros r Hr. by apply list_elem_of_singleton in Hr as ->.
  - destruct IH as (m & Hm & Hmin); [done|].
    destruct (decide (rule_size x ≤ rule_size m)) as [Hle|Hgt].
    + exists x. split; [left|]. intros r Hr.
      apply elem_of_cons in Hr as [->|Hr]; [done|]. specialize (Hmin r Hr). lia.
    + exists m. split; [by right|]. intros r Hr.
      apply elem_of_cons in Hr as [->|Hr]; [lia|by apply Hmin].
Qed.

(** ** A batch on a backend that starts every job and reports progress *)

Lemma record_inactive_ready inactive jr stop :
  Forall ready_with_output inactive →
  (record_inactive inactive jr stop).2 = stop ∧
  (map_Forall (λ _ v, v ≠ []) jr →
   map_Forall (λ _ v, v ≠ []) (record_inactive inactive jr stop).1) ∧
  (∀ k, is_Some (jr !! k) → is_Some ((record_inactive inactive jr stop).1 !! k)) ∧
  (∀ r, r ∈ inactive →
     is_Some ((record_inactive inactive jr stop).1 !! _get_rule_name r.1)).
Proof.
  intros Hall. revert jr.
  induction Hall as [|[j [status results]] inactive [Hready Hout] _ IH]; intros jr.
  { simpl. split_and!; try done. intros r Hr. inversion Hr. }
  simpl in Hready, Hout. subst status. simpl.
  destruct (IH (<[_get_rule_name j := results]> jr)) as (Hstop & Hne & Hkeep & Hnew).
  split_and!.
  - done.
  - intros Hjr. apply Hne. by apply map_Forall_insert_2.
  - intros k Hk. apply Hkeep. rewrite lookup_insert.
    by destruct (decide (_get_rule_name j = k)).
  - intros r Hr. apply elem_of_cons in Hr as [->|Hr]; [|by apply Hnew].
    simpl. apply Hkeep. rewrite lookup_insert_eq. by eexists.
Qed.

Section ObligingBatch.
Context {W : Type} `{Backend W}.

Lemma poll_jobs_step fuel j0 jobs0 jr (w : W) :
  poll_jobs (S fuel) (j0 :: jobs0) jr false w =
  bind (call_results (j0 :: jobs0) 5000)
    (λ answer,
       match answer with
       | RaisesCommError => poll_jobs fuel (j0 :: jobs0) jr false
       | Polled inactive active =>
           match record_inactive inactive jr false with
           | (job_results, stop) =>
               if stop then ret (active.*1, job_results, stop)
               else poll_jobs fuel (active.*1) job_results stop
           end
       end) w.
Proof. reflexivity. Qed.

(** The loop of a batch on a backend that reports progress: [left] calls
    are left until the next job comes to an end. *)
Lemma poll_jobs_patient patience fuel left jobs jr (w : W) :
  reports_progress W patience →
  (jobs ≠ [] →
   progress_within left jobs w ∧ left + patience * (length jobs - 1) ≤ fuel) →
  ∃ jr' ev w',
    poll_jobs fuel jobs jr false w = (Returned ([], jr', false), ev, w') ∧
    (map_Forall (λ _ v, v ≠ []) jr → map_Forall (λ _ v, v ≠ []) jr') ∧
    (∀ k, is_Some (jr !! k) → is_Some (jr' !! k)) ∧
    (∀ j, j ∈ jobs → is_Some (jr' !! _get_rule_name j)).
Proof.
  intros Hpoll. revert left jobs jr w.
  induction fuel as [|fuel IH]; intros left jobs jr w Hprog;
    (destruct jobs as [|j0 jobs0];
     [exists jr, [], w; simpl; split_and!; try done; intros j Hj; inversion Hj|]).
  { destruct Hprog as [Hp Hf]; [done|]. destruct left; [done|]. inversion Hf. }
  destruct Hprog as [Hp Hf]; [done|]. destruct left as [|left]; [done|].
  rewrite poll_jobs_step.
  rewrite (bind_returned _ _ _ _ _ _ (call_results_run _ _ _)).
  remember (j0 :: jobs0) as jobs eqn:Hjobs.
  assert (1 ≤ length jobs) as Hlen by (subst jobs; simpl; lia).
  simpl in Hp.
  destruct (server_results jobs 5000 w) as [[|inactive active] w1]; simpl.
  - destruct (IH left jobs jr w1) as (jr' & ev & w' & Hrest & Hne & Hkeep & Hnew).
    { intros _. split; [done|lia]. }
    rewrite Hrest. by eexists _, _, _.
  - destruct Hp as (Hperm & Hready & Hidle).
    destruct (record_inactive_ready inactive jr false Hready)
      as (Hstop & Hne1 & Hkeep1 & Hnew1).
    destruct (record_inactive inactive jr false) as [jr1 stop1] eqn:Hrec.
    simpl in Hstop, Hne1, Hkeep1, Hnew1. subst stop1.
    pose proof (Permutation_length Hperm) as Hlens. rewrite length_app in Hlens.
    assert (∃ left', active.*1 ≠ [] →
              progress_within left' (active.*1) w1 ∧
              left' + patience * (length (active.*1) - 1) ≤ fuel)
      as [left' Hnext].
    { destruct inactive as [|r inactive].
      - exists left. intros _. split; [by apply Hidle|]. simpl in Hlens.
        rewrite Hlens. lia.
      - exists patience. intros Hne. split; [by apply Hpoll|].
        simpl in Hlens.
        assert (1 ≤ length (active.*1)) as Ha
          by (destruct (active.*1); [done|simpl; lia]).
        assert (patience * S (length (active.*1) - 1) ≤
                patience * (length jobs - 1)) as Hmul
          by (apply Nat.mul_le_mono_l; lia).
        rewrite Nat.mul_succ_r in Hmul. lia. }
    destruct (IH left' (active.*1) jr1 w1 Hnext)
      as (jr' & ev & w' & Hrest & Hne & Hkeep & Hnew).
    rewrite Hrest. eexists _, _, _. split_and!; [done|auto|auto|].
    intros j Hj. rewrite <- Hperm in Hj. apply elem_of_app in Hj as [Hj|Hj].
    + apply list_elem_of_fmap in Hj as (r & -> & Hr). by apply Hkeep, Hnew1.
    + by apply Hnew.
Qed.

Lemma poll_jobs_obliging patience fuel jobs jr (w : W) :
  reports_progress W patience → patience * length jobs ≤ fuel →
  ∃ jr' ev w',
    poll_jobs fuel jobs jr false w = (Returned ([], jr', false), ev, w') ∧
    (map_Forall (λ _ v, v ≠ []) jr → map_Forall (λ _ v, v ≠ []) jr') ∧
    (∀ k, is_Some (jr !! k) → is_Some (jr' !! k)) ∧
    (∀ j, j ∈ jobs → is_Some (jr' !! _get_rule_name j)).
Proof.
  intros Hpoll Hlen. apply (poll_jobs_patient patience fuel patience); [done|].
  intros Hne. split; [by apply Hpoll|].
  destruct jobs as [|j jobs]; [done|]. simpl in *.
  rewrite Nat.sub_0_r. rewrite Nat.mul_succ_r in Hlen. lia.
Qed.

Lemma collect_urls_run subs bb acc (w : W) entries :
  mapM (λ s, bb !! name s) subs = Some entries →
  collect_urls subs bb acc w = (Returned (acc ++ concat entries), [], w).
Proof.
  revert acc entries. induction subs as [|s subs IH]; intros acc entries; simpl.
  - intros [= <-]. by rewrite app_nil_r.
  - destruct (bb !! name s) as [entry|]; [|done]. simpl.
    destruct (mapM (λ s, bb !! name s) subs) as [rest|] eqn:Hm; [|done].
    intros [= <-]. rewrite (IH _ rest) by done. simpl. by rewrite app_assoc.
Qed.

Lemma start_rules_obliging rl bb jobs ijs (w : W) :
  starts_every_job W →
  (∀ rule, rule ∈ rl → "@"%char ∉ chars (name rule)) →
  (∀ rule, rule ∈ rl → is_Some (resolved_input bb rule)) →
  ∃ js new ev w',
    start_rules rl bb jobs ijs w = (Returned (jobs ++ js, ijs ++ new), ev, w') ∧
    _get_rule_name <$> js = name <$> rl.
Proof.
  intros Hstart. revert jobs ijs w.
  induction rl as [|rule rl IH]; intros jobs ijs w Hnames Hinput.
  { exists [], [], [], w. by rewrite !app_nil_r. }
  destruct (Hinput rule) as [urls Hurls]; [left|].
  unfold resolved_input in Hurls.
  destruct (mapM (λ s, bb !! name s) (extract_subrules rule)) as [entries|] eqn:Hm;
    [|done].
  destruct (Hstart rule (concat entries) w) as (stamp & Hjob).
  remember (name rule +:+ String "@" stamp)%string as j eqn:Hj.
  destruct (IH (jobs ++ [j]) (ijs ++ [MkInfernoJob rule (concat entries) (Some j)])
              (job_start rule (concat entries) w).2)
    as (js & new & ev & w' & Hrest & Hjs).
  { intros r Hr. apply Hnames. by right. }
  { intros r Hr. apply Hinput. by right. }
  exists (j :: js), (MkInfernoJob rule (concat entries) (Some j) :: new),
    (EvStart rule (concat entries) (Some j) :: ev), w'.
  split.
  - simpl. rewrite (bind_returned _ _ _ _ _ _ (collect_urls_run _ _ _ _ _ Hm)).
    simpl. rewrite (bind_returned _ _ _ _ _ _ (start_job_run _ _ _)).
    rewrite Hjob. simpl. unfold JobName in *. rewrite Hrest.
    by rewrite <- !app_assoc.
  - rewrite !fmap_cons, Hjs. f_equal. subst j.
    apply get_rule_name_of_job, Hnames. left.
Qed.

End ObligingBatch.

Lemma apply_stores_map_to_list (m bb : Blackboard) k :
  apply_stores (map_to_list m) bb !! k =
  match m !! k with Some v => Some v | None => bb !! k end.
Proof.
  destruct (m !! k) as [v|] eqn:Hk.
  - apply apply_stores_lookup_in; [apply NoDup_fst_map_to_list|].
    by apply elem_of_map_to_list.
  - apply apply_stores_lookup_notin. intros Hin.
    apply list_elem_of_fmap in Hin as ([k' v'] & -> & Hin).
    apply elem_of_map_to_list in Hin. simpl in Hk. congruence.
Qed.

Lemma ready_rule_has_input (bb : Blackboard) rule :
  all_subrules_have_output bb rule → is_Some (resolved_input bb rule).
Proof.
  unfold all_subrules_have_output, resolved_input.
  induction (extract_subrules rule) as [|s subs IH]; intros Hall; [by eexists|].
  simpl. destruct (Hall s) as (urls & -> & _); [left|]. simpl.
  destruct IH as [rest Hrest]; [intros x Hx; apply Hall; by right|].
  destruct (mapM (λ sub_rule, bb !! name sub_rule) subs); [by eexists|done].
Qed.

Lemma entries_have_input (bb : Blackboard) rule :
  (∀ sub_rule, sub_rule ∈ extract_subrules rule → is_Some (bb !! name sub_rule)) →
  is_Some (resolved_input bb rule).
Proof.
  unfold resolved_input.
  induction (extract_subrules rule) as [|s subs IH]; intros Hall; [by eexists|].
  simpl. destruct (Hall s) as (urls & ->); [left|]. simpl.
  destruct IH as [rest Hrest]; [intros x Hx; apply Hall; by right|].
  destruct (mapM (λ sub_rule, bb !! name sub_rule) subs); [by eexists|done].
Qed.

Section ObligingLoop.
Context {W : Type} `{Backend W}.

Lemma batch_obliging patience pf rl bb (w : W) :
  starts_every_job W → reports_progress W patience →
  (∀ rule, rule ∈ rl → "@"%char ∉ chars (name rule)) →
  (∀ rule, rule ∈ rl → is_Some (resolved_input bb rule)) →
  patience * length rl ≤ pf →
  ∃ ijs ret_ ev w',
    _run_concurrent_rules pf rl bb w = (Returned (ijs, ret_), ev, w') ∧
    map_Forall (λ _ v, v ≠ []) ret_ ∧
    ∀ rule, rule ∈ rl → is_Some (ret_ !! name rule).
Proof.
  intros Hstart Hpoll Hnames Hinput Hlen.
  destruct (start_rules_obliging rl bb [] [] w Hstart Hnames Hinput)
    as (js & new & ev1 & w1 & Hs & Hjs).
  assert (length js = length rl) as Hjl.
  { by rewrite <- (length_fmap _get_rule_name), Hjs, length_fmap. }
  destruct (poll_jobs_obliging patience pf js ∅ w1 Hpoll)
    as (jr & ev2 & w2 & Hp & Hne & _ & Hnew); [by rewrite Hjl|].
  exists new, jr, (ev1 ++ ev2 ++ []), w2. split_and!.
  - unfold _run_concurrent_rules. rewrite (bind_returned _ _ _ _ _ _ Hs). simpl.
    rewrite (bind_returned _ _ _ _ _ _ Hp). simpl. unfold bind, ret. simpl. done.
  - apply Hne, map_Forall_empty.
  - intros rule Hin.
    assert (name rule ∈ _get_rule_name <$> js) as Hk
      by (rewrite Hjs; by apply list_elem_of_fmap_2).
    apply list_elem_of_fmap in Hk as (j & -> & Hj). by apply Hnew.
Qed.

Lemma round_obliging patience pf st (w : W) :
  starts_every_job W → reports_progress W patience →
  (∀ rule, rule ∈ ls_sub_rules st → "@"%char ∉ chars (name rule)) →
  patience * length (ls_sub_rules st) ≤ pf →
  let runable := _get_runable_rules (ls_sub_rules st) (ls_blackboard st) in
  ∃ st' ev w',
    sub_rules_round pf st w = (Returned st', ev, w') ∧
    ls_sub_rules st' = filter (λ rule, rule ∉ runable) (ls_sub_rules st) ∧
    (∀ k, is_Some (ls_blackboard st !! k) → is_Some (ls_blackboard st' !! k)) ∧
    (∀ k v, ls_blackboard st !! k = Some v → v ≠ [] →
       ∃ v', ls_blackboard st' !! k = Some v' ∧ v' ≠ []) ∧
    (∀ rule, rule ∈ runable →
       ∃ v, ls_blackboard st' !! name rule = Some v ∧ v ≠ []).
Proof.
  intros Hstart Hpoll Hnames Hlen runable.
  assert (Hsub : ∀ rule, rule ∈ runable → rule ∈ ls_sub_rules st)
    by (intros rule Hin; by apply get_runable_elem in Hin as [? _]).
  destruct (batch_obliging patience pf runable (ls_blackboard st) w Hstart Hpoll)
    as (ijs & ret_ & ev & w' & Hbatch & Hne & Hnew).
  { intros rule Hin. by apply Hnames, Hsub. }
  { intros rule Hin. apply get_runable_elem in Hin as [_ Hall].
    by apply ready_rule_has_input. }
  { etrans; [|exact Hlen]. apply Nat.mul_le_mono_l.
    unfold runable. rewrite get_runable_filter. apply length_filter. }
  eexists _, _, _. split_and!.
  - unfold sub_rules_round. fold runable.
    rewrite (bind_returned _ _ _ _ _ _ Hbatch).
    rewrite (bind_returned _ _ _ _ _ _ (store_items_run _ _ _)). simpl. done.
  - done.
  - intros k Hk. simpl. rewrite apply_stores_map_to_list. by destruct (ret_ !! k).
  - intros k v Hk Hv. simpl. rewrite apply_stores_map_to_list.
    destruct (ret_ !! k) as [v'|] eqn:Hr; [|by exists v].
    exists v'. split; [done|]. by apply (Hne k v').
  - intros rule Hin. simpl. rewrite apply_stores_map_to_list.
    destruct (Hnew rule Hin) as [v Hv]. rewrite Hv. exists v. split; [done|].
    by apply (Hne (name rule) v).
Qed.

End ObligingLoop.

Section ObligingRun.
Context {W : Type} `{Backend W}.

Lemma initial_loop_invariant all_rules :
  loop_invariant all_rules (initial_state all_rules).
Proof.
  split_and!.
  - done.
  - intros rule Hin. simpl. rewrite init_blackboard_lookup by done. by eexists.
  - intros rule Hin Hnot. done.
Qed.

(** In a graph, as long as sub-rules are left, one of them has all its
    sub-rules done: a smallest one. *)
Lemma some_rule_is_ready rule_ st :
  loop_invariant (deduplicate_rules (flatten_rules rule_)) st →
  ls_sub_rules st ≠ [] →
  _get_runable_rules (ls_sub_rules st) (ls_blackboard st) ≠ [].
Proof.
  intros (Hsubs & _ & Hdone) Hne.
  destruct (all_rules_slices rule_) as (_ & t & Hlast & _ & Hall).
  rewrite last_rule_is_root in Hlast. injection Hlast as <-.
  set (all_rules := deduplicate_rules (flatten_rules rule_)) in *.
  destruct (smallest_rule _ Hne) as (r & Hr & Hmin).
  assert (r ∈ _get_runable_rules (ls_sub_rules st) (ls_blackboard st)) as Hin;
    [|intros Hnil; rewrite Hnil in Hin; inversion Hin].
  apply get_runable_elem. split; [done|]. intros s Hs.
  pose proof (rule_size_sub_rule _ _ Hs) as Hlt.
  assert (r ∈ flatten_rules rule_) as Hrf.
  { apply deduplicate_rules_elem. fold all_rules. rewrite <- Hall.
    apply elem_of_app. left. by apply Hsubs. }
  pose proof (rule_size_flatten _ _ Hrf) as Hle.
  assert (s ∈ all_rules) as Hsa.
  { apply deduplicate_rules_elem. by eapply flatten_rules_sub_rules. }
  rewrite <- Hall in Hsa. apply elem_of_app in Hsa as [Hsa|Hsa].
  - apply Hdone; [done|]. intros Hleft. specialize (Hmin s Hleft). lia.
  - apply list_elem_of_singleton in Hsa as ->. lia.
Qed.

Lemma loop_obliging rule_ patience fuel pf st (w : W) :
  starts_every_job W → reports_progress W patience →
  (∀ rule, rule ∈ flatten_rules rule_ → "@"%char ∉ chars (name rule)) →
  loop_invariant (deduplicate_rules (flatten_rules rule_)) st →
  length (ls_sub_rules st) ≤ fuel → patience * length (ls_sub_rules st) ≤ pf →
  ∃ st' ev w',
    run_sub_rules fuel pf st w = (Returned st', ev, w') ∧
    ls_sub_rules st' = [] ∧
    loop_invariant (deduplicate_rules (flatten_rules rule_)) st'.
Proof.
  intros Hstart Hpoll Hnames. revert st w.
  destruct (all_rules_slices rule_) as (_ & t & _ & _ & Hall).
  set (all_rules := deduplicate_rules (flatten_rules rule_)) in *.
  induction fuel as [|fuel IH]; intros st w Hinv Hfuel Hpf;
    destruct (ls_sub_rules st) as [|r rs] eqn:Hsubs.
  1,3: exists st, [], w; simpl; by rewrite Hsubs.
  { simpl in Hfuel. lia. }
  assert (ls_sub_rules st ≠ []) as Hne by (by rewrite Hsubs).
  pose proof (some_rule_is_ready rule_ st Hinv Hne) as Hready.
  destruct Hinv as (Hsub & Hentries & Hdone).
  destruct (round_obliging patience pf st w Hstart Hpoll)
    as (st1 & ev1 & w1 & Hround & Hsubs1 & Hkeep & Hkeep_ne & Hnew).
  { intros rule Hin. apply Hnames, deduplicate_rules_elem. fold all_rules.
    rewrite <- Hall. apply elem_of_app. left. by apply Hsub. }
  { by rewrite Hsubs. }
  pose proof (round_shrinks _ _ _ _ _ _ Hround Hready) as Hshrink.
  rewrite Hsubs in Hshrink.
  assert (patience * length (ls_sub_rules st1) ≤ pf) as Hpf1.
  { etrans; [|exact Hpf]. apply Nat.mul_le_mono_l. lia. }
  simpl in Hshrink, Hfuel.
  destruct (IH st1 w1) as (st' & ev2 & w' & Hrest & Hnil & Hinv'); [|lia|done|].
  { split_and!.
    - rewrite Hsubs1. intros x Hx. apply list_elem_of_filter in Hx as [_ Hx].
      by apply Hsub.
    - intros rule Hin. by apply Hkeep, Hentries.
    - intros rule Hin Hnot.
      destruct (decide (rule ∈ _get_runable_rules (ls_sub_rules st) (ls_blackboard st)))
        as [Hrun|Hrun]; [by apply Hnew|].
      destruct (Hdone rule Hin) as (v & Hv & Hv').
      { intros Hleft. apply Hnot. rewrite Hsubs1. by apply list_elem_of_filter. }
      by eapply Hkeep_ne. }
  exists st', (ev1 ++ ev2), w'. split; [|done].
  simpl. rewrite Hsubs. by rewrite (bind_returned _ _ _ _ _ _ Hround), Hrest.
Qed.

Lemma run_single_obliging rule bb (w : W) :
  starts_every_job W → is_Some (resolved_input bb rule) →
  ∃ ev w', _run_sequential_rules [rule] bb w = (Returned tt, ev, w').
Proof.
  intros Hstart [urls Hurls]. unfold resolved_input in Hurls.
  destruct (mapM (λ s, bb !! name s) (extract_subrules rule)) as [entries|] eqn:Hm;
    [|done].
  destruct (Hstart rule (concat entries) w) as (stamp & Hjob).
  eexists _, _. simpl.
  rewrite (bind_returned _ _ _ _ _ _ (collect_urls_run _ _ _ _ _ Hm)). simpl.
  rewrite (bind_returned _ _ _ _ _ _ (start_job_run _ _ _)).
  rewrite Hjob. simpl. unfold bind, call_wait, ret. simpl. done.
Qed.

(** On a backend that starts every job and reports progress, and for rule
    names without [@], [execute_rule] returns. *)
Lemma execute_rule_obliging patience fuel pf rule_ (w : W) :
  starts_every_job W → reports_progress W patience →
  (∀ rule, rule ∈ flatten_rules rule_ → "@"%char ∉ chars (name rule)) →
  length (deduplicate_rules (flatten_rules rule_)) ≤ fuel →
  patience * length (deduplicate_rules (flatten_rules rule_)) ≤ pf →
  ∃ ev w', execute_rule fuel pf rule_ w = (Returned tt, ev, w').
Proof.
  intros Hstart Hpoll Hnames Hfuel Hpf.
  destruct (all_rules_slices rule_) as (_ & t & Hlast & Hslice & Hall).
  rewrite last_rule_is_root in Hlast. injection Hlast as <-.
  set (all_rules := deduplicate_rules (flatten_rules rule_)) in *.
  assert (length (init_slice all_rules) ≤ length all_rules) as Hlen.
  { rewrite <- Hall at 2. rewrite length_app. lia. }
  destruct (loop_obliging rule_ patience fuel pf (initial_state all_rules) w
              Hstart Hpoll Hnames)
    as (st & ev1 & w1 & Hloop & Hnil & (_ & Hentries & _)).
  { apply initial_loop_invariant. }
  { simpl. lia. }
  { simpl. etrans; [|exact Hpf]. by apply Nat.mul_le_mono_l. }
  destruct (run_single_obliging rule_ (ls_blackboard st) w1 Hstart)
    as (ev2 & w2 & Hseq).
  { apply entries_have_input. intros s Hs. apply Hentries.
    apply deduplicate_rules_elem.
    eapply flatten_rules_sub_rules; [apply flatten_rules_self|done]. }
  pose proof (run_sub_rules_rounds _ _ _ _ _ _ _ Hloop)
    as (st1 & w1' & eva & evb & Hrounds & _ & (<- & _ & _ & _)).
  apply rounds_inv in Hrounds as (_ & _ & _ & _ & _ & (new & Hij & Hnew) & _).
  simpl in Hij.
  destruct (purge_loop_run new (started_jobs eva) w2 Hnew) as (w3 & Hpurge).
  eexists _, _. unfold execute_rule. fold all_rules.
  rewrite (bind_returned _ _ _ _ _ _ Hloop). rewrite Hslice.
  rewrite (bind_returned _ _ _ _ _ _ Hseq). rewrite Hij, Hpurge. done.
Qed.

End ObligingRun.

Section EveryRuleOnce.
Context {W : Type} `{Backend W}.


End EveryRuleOnce.


Lemma active_names (l : list JobName) :
  ((λ job : JobName, (job, ("active"%string, @nil Url))) <$> l).*1 = l.
Proof. rewrite <- list_fmap_compose. apply list_fmap_id. Qed.

Lemma progress_within_step {W : Type} `{Backend W} patience jobs (w : W) :
  progress_within (S patience) jobs w =
  match server_results jobs 5000 w with
  | (RaisesCommError, w') => progress_within patience jobs w'
  | (Polled inactive active, w') =>
      inactive.*1 ++ active.*1 ≡ₚ jobs ∧
      Forall ready_with_output inactive ∧
      (inactive = [] → progress_within patience (active.*1) w')
  end.
Proof. reflexivity. Qed.

Lemma hesitant_backend_reports_progress : reports_progress nat 3.
Proof.
  assert (∀ patience jobs w, jobs ≠ [] →
            progress_within (S patience) jobs (S (S w))) as Hready.
  { intros patience [|j rest] w Hne; [done|]. rewrite progress_within_step.
    change (server_results (j :: rest) 5000 (S (S w)))
      with (Polled [(j, ("ready"%string, [j]))]
              ((λ job, (job, ("active"%string, @nil Url))) <$> rest), 0).
    cbv beta iota. rewrite active_names. split; [done|].
    split; [|done]. apply Forall_singleton. split; [reflexivity|discriminate]. }
  assert (∀ jobs, jobs ≠ [] → progress_within 2 jobs 1) as Hactive.
  { intros jobs Hne. rewrite progress_within_step.
    change (server_results jobs 5000 1)
      with (Polled [] ((λ job, (job, ("active"%string, @nil Url))) <$> jobs), 2).
    cbv beta iota. rewrite active_names. split; [done|].
    split; [constructor|]. intros _. by apply Hready. }
  intros jobs w Hne. destruct w as [|[|w]].
  - rewrite progress_within_step.
    change (server_results jobs 5000 0) with (RaisesCommError, 1).
    cbv beta iota. by apply Hactive.
  - rewrite progress_within_step.
    change (server_results jobs 5000 1)
      with (Polled [] ((λ job, (job, ("active"%string, @nil Url))) <$> jobs), 2).
    cbv beta iota. rewrite active_names. split; [done|].
    split; [constructor|]. intros _. by apply Hready.
  - by apply Hready.
Qed.


(** C9, in the code: [_get_rule_name] cuts the name of a job at its first
    [@], and so the results of the job of the rule [x@y] are written to the
    blackboard under the key [x]: the entry of [x], written when the job of
    [x] was ready, is written a second time, with the urls of another rule,
    and the entry of [x@y] is never written; [P] is started with [r1] for
    [x] and nothing for [x@y]. *)
Theorem job_name_cut_overwrites_entry :
  execute_rule 5 5 rule_P script_P =
  (Returned tt,
   [EvStart rule_x [] (Some "x@1");
    EvStart rule_z [] (Some "z@1");
    EvResults ["x@1"; "z@1"] 5000
      (Polled [("x@1", ("ready", ["x1"])); ("z@1", ("ready", ["z1"]))] []);
    EvStore "z" ["z1"]; EvStore "x" ["x1"];
    EvStart rule_xy ["z1"] (Some "x@y@1");
    EvResults ["x@y@1"] 5000 (Polled [("x@y@1", ("ready", ["r1"]))] []);
    EvStore "x" ["r1"];
    EvStart rule_P ["r1"] (Some "P@1");
    EvWait "P@1"; EvPurge "x@1"; EvPurge "z@1"; EvPurge "x@y@1"]%string,
   MkScript [] []) ∧
  NoDup (name <$> deduplicate_rules (flatten_rules rule_P)) ∧
  _get_rule_name "x@y@1" = "x"%string.
Proof.
  split; [vm_compute; reflexivity|]. split; [|reflexivity].
  vm_compute. repeat (apply NoDup_cons; split); try apply NoDup_nil_2;
    intros Hin;
    repeat (apply elem_of_cons in Hin as [Hin|Hin]; [discriminate Hin|]);
    by apply not_elem_of_nil in Hin.
Qed.

(** * The blackboard, for rule names without [@] *)

Section Emits.
Context {W : Type} `{Backend W}.

Lemma emits_ret {A} P (a : A) : emits P (ret a : @M W A).
Proof. intros w. constructor. Qed.

Lemma emits_raise {A} P e : emits P (raise e : @M W A).
Proof. intros w. constructor. Qed.

Lemma emits_diverge {A} P : emits P (diverge : @M W A).
Proof. intros w. constructor. Qed.

Lemma emits_bind {A B} P (m : @M W A) (f : A → @M W B) :
  emits P m → (∀ a, emits P (f a)) → emits P (bind m f).
Proof.
  intros Hm Hf w. specialize (Hm w). unfold bind.
  destruct (m w) as [[[a|e|] ev1] w1]; simpl in *; try done.
  specialize (Hf a w1). destruct (f a w1) as [[o ev2] w2]. simpl in *.
  by apply Forall_app.
Qed.

Lemma emits_for_each {A} P (l : list A) (body : A → @M W unit) :
  (∀ x, emits P (body x)) → emits P (for_each l body).
Proof.
  intros Hbody. induction l as [|x l IH]; simpl; [apply emits_ret|].
  apply emits_bind; [apply Hbody|]. by intros _.
Qed.

Lemma emits_collect_urls P subs bb acc :
  emits P (collect_urls subs bb acc : @M W _).
Proof.
  revert acc. induction subs as [|s subs IH]; intros acc; simpl; [apply emits_ret|].
  destruct (bb !! name s); [apply IH|apply emits_raise].
Qed.

Lemma emits_store_items items bb :
  emits expected_answer (store_items items bb : @M W _).
Proof.
  revert bb. induction items as [|[k v] items IH]; intros bb; simpl; [apply emits_ret|].
  apply emits_bind; [|intros _; apply IH].
  intros w. simpl. by apply Forall_singleton.
Qed.

End Emits.

Section ExpectedAnswers.
Context {W : Type} `{Backend W}.
Hypothesis Hnames : names_jobs_by_rule W.
Hypothesis Hasked : reports_jobs_asked W.

Lemma emits_start_job rule urls :
  "@"%char ∉ chars (name rule) →
  emits expected_answer (_start_job rule urls : @M W _).
Proof.
  intros Hno. unfold _start_job. apply emits_bind; [|intros a; apply emits_ret].
  intros w. unfold call_start.
  destruct (job_start rule urls w) as [job w1] eqn:E. simpl.
  apply Forall_singleton. destruct job as [j|]; simpl; [|done].
  destruct (Hnames rule urls w j) as [stamp ->]; [by rewrite E|].
  by apply get_rule_name_of_job.
Qed.

Lemma emits_call_results jobs timeout :
  emits expected_answer (call_results jobs timeout : @M W _).
Proof.
  intros w. unfold call_results.
  destruct (server_results jobs timeout w) as [answer w1] eqn:E. simpl.
  apply Forall_singleton. destruct answer as [|inactive active]; simpl; [done|].
  apply (Hasked jobs timeout w). by rewrite E.
Qed.

Lemma emits_start_rules rl bb jobs ijs :
  (∀ rule, rule ∈ rl → "@"%char ∉ chars (name rule)) →
  emits expected_answer (start_rules rl bb jobs ijs : @M W _).
Proof.
  revert jobs ijs. induction rl as [|rule rl IH]; intros jobs ijs Hno; simpl;
    [apply emits_ret|].
  apply emits_bind; [apply emits_collect_urls|]. intros urls.
  apply emits_bind; [apply emits_start_job, Hno; left|].
  intros [ij [j|]]; [|apply emits_raise].
  apply IH. intros r Hr. apply Hno. by right.
Qed.

Lemma emits_poll_jobs fuel jobs jr stop :
  emits expected_answer (poll_jobs fuel jobs jr stop : @M W _).
Proof.
  revert jobs jr stop. induction fuel as [|fuel IH]; intros [|j jobs] jr stop; simpl;
    try apply emits_ret; try apply emits_diverge.
  apply emits_bind; [apply emits_call_results|].
  intros [|inactive active]; [apply IH|].
  destruct (record_inactive inactive jr stop) as [jr' [|]];
    [apply emits_ret|apply IH].
Qed.

Lemma emits_run_concurrent fuel rl bb :
  (∀ rule, rule ∈ rl → "@"%char ∉ chars (name rule)) →
  emits expected_answer (_run_concurrent_rules fuel rl bb : @M W _).
Proof.
  intros Hno. unfold _run_concurrent_rules.
  apply emits_bind; [by apply emits_start_rules|]. intros [jobs ijs].
  apply emits_bind; [apply emits_poll_jobs|]. intros [[jobs' jr] stop].
  apply emits_bind; [|intros _; apply emits_ret].
  destruct stop; [|apply emits_ret].
  apply emits_for_each. intros jobname.
  apply emits_bind; [|intros _; apply emits_raise].
  intros w. simpl. by apply Forall_singleton.
Qed.

Lemma emits_round pf st :
  (∀ rule, rule ∈ ls_sub_rules st → "@"%char ∉ chars (name rule)) →
  emits expected_answer (sub_rules_round pf st : @M W _).
Proof.
  intros Hno. unfold sub_rules_round.
  apply emits_bind.
  { apply emits_run_concurrent. intros rule Hr.
    apply get_runable_elem in Hr as [Hr _]. by apply Hno. }
  intros [jobs ret_]. apply emits_bind; [apply emits_store_items|].
  intros bb. apply emits_ret.
Qed.

(** On such a backend the answers are as the runner expects them, as long
    as no name of a rule has an [@]. *)
Lemma rounds_expected pf st (w : W) ev st' w' :
  rounds pf st w ev st' w' →
  (∀ rule, rule ∈ ls_sub_rules st → "@"%char ∉ chars (name rule)) →
  Forall expected_answer ev.
Proof.
  induction 1 as [st w|st w ev1 st1 w1 ev2 st2 w2 Hne Hround _ IH]; intros Hno;
    [constructor|].
  apply Forall_app. split.
  - pose proof (emits_round pf st Hno w) as Hev. by rewrite Hround in Hev.
  - apply IH. intros rule Hr. apply Hno.
    apply round_inv in Hround as (_ & _ & _ & _ & _ & _ & Ho). simpl in Ho.
    destruct Ho as (_ & _ & Hsubs & _). rewrite Hsubs in Hr.
    by apply list_elem_of_filter in Hr as [_ Hr].
Qed.

(** X14: take a graph whose rules have different names, none with an [@],
    and a backend that names the job of a rule by the name of the rule, an
    [@] and a stamp, and whose [server.results] reports on jobs it is asked
    for.  At the start of [execute_rule] the entry of every rule is [[]].
    In every state that the loop reaches: no key has been assigned twice;
    an assignment to a key was made after a job, started for the rule of
    that name, was reported ready, and with the results of that report; the
    entry of a rule is still [[]] if nothing has been assigned to its name,
    and is the value assigned otherwise; and the value assigned is the
    entry in every state the loop reaches later. *)
Theorem plain_names_written_once pf rule_ (w : W) ev st w' :
  let all_rules := deduplicate_rules (flatten_rules rule_) in
  NoDup (name <$> all_rules) →
  (∀ rule, rule ∈ all_rules → "@"%char ∉ chars (name rule)) →
  rounds pf (initial_state all_rules) w ev st w' →
  (∀ rule, rule ∈ all_rules →
     ls_blackboard (initial_state all_rules) !! name rule = Some []) ∧
  NoDup (stored ev).*1 ∧
  (∀ k v, (k, v) ∈ stored ev →
     ∃ pre post rule urls j,
       ev = pre ++ (EvStore k v :: post) ∧
       rule ∈ all_rules ∧ name rule = k ∧
       EvStart rule urls (Some j) ∈ pre ∧ Exists (reported_ready j v) pre) ∧
  (∀ rule, rule ∈ all_rules →
     ((name rule ∉ (stored ev).*1) ∧ ls_blackboard st !! name rule = Some []) ∨
     (∃ v, (name rule, v) ∈ stored ev ∧ ls_blackboard st !! name rule = Some v)) ∧
  (∀ ev2 st2 w2,
     rounds pf st w' ev2 st2 w2 →
     ∀ k v, (k, v) ∈ stored ev → ls_blackboard st2 !! k = Some v).
Proof.
  intros all_rules Hnd Hno Hrounds.
  assert (Hsubs : ∀ rule, rule ∈ ls_sub_rules (initial_state all_rules) →
                    "@"%char ∉ chars (name rule)).
  { intros rule Hr. apply Hno.
    change (ls_sub_rules (initial_state all_rules)) with (init_slice all_rules) in Hr.
    unfold init_slice in Hr. by apply elem_of_take in Hr as (i & Hi & _);
      apply list_elem_of_lookup_2 in Hi. }
  pose proof (rounds_expected _ _ _ _ _ _ Hrounds Hsubs) as Hexp.
  destruct (blackboard_written_once pf rule_ w ev st w' Hnd Hrounds Hexp)
    as (Hinit & Hnd' & Hjust & Hentry & Hlater).
  split_and!; try done.
  intros ev2 st2 w2 Hrounds2. apply (Hlater ev2 st2 w2 Hrounds2).
  pose proof (rounds_trans _ _ _ _ _ _ _ _ _ Hrounds Hrounds2) as Hrounds12.
  pose proof (rounds_expected _ _ _ _ _ _ Hrounds12 Hsubs) as Hexp12.
  by apply Forall_app in Hexp12 as [_ ?].
Qed.

End ExpectedAnswers.

Lemma plain_names_written_once_witness :
  NoDup ["A"; "B"]%string.
Proof.
  destruct (@plain_names_written_once unit obliging_backend) with
    (pf := 5) (rule_ := rule_C) (w := tt) (ev := events_obliging_round ++ [])
    (st := state_obliging_round) (w' := tt)
    as (_ & Hnd & _).
  - intros rule urls w j [= <-]. by exists "1"%string.
  - intros [|j rest] timeout w inactive active [= <- <-]; [done|].
    split; simpl.
    + intros x Hx. apply list_elem_of_singleton in Hx as ->. left.
    + rewrite <- list_fmap_compose. rewrite list_fmap_id.
      intros x Hx. by right.
  - vm_compute. apply NoDup_cons. split.
    { intros Hin. apply elem_of_cons in Hin as [Hin|Hin]; [discriminate Hin|].
      apply elem_of_cons in Hin as [Hin|Hin]; [discriminate Hin|].
      by apply not_elem_of_nil in Hin. }
    apply NoDup_cons. split.
    { intros Hin. apply elem_of_cons in Hin as [Hin|Hin]; [discriminate Hin|].
      by apply not_elem_of_nil in Hin. }
    apply NoDup_singleton.
  - intros rule Hin. vm_compute in Hin.
    repeat (apply elem_of_cons in Hin as [->|Hin]);
      try (by apply not_elem_of_nil in Hin);
      (vm_compute; intros Hat;
       repeat (apply elem_of_cons in Hat as [Hat|Hat]; [discriminate Hat|]);
       by apply not_elem_of_nil in Hat).
  - eapply rounds_more; [discriminate| |apply rounds_none].
    vm_compute. reflexivity.
  - exact Hnd.
Defined.
